(** * parallelcoin: fee estimator, address-manager store, header store and
    voting-pool key validation

    A shallow embedding of the Go sources

    - [pkg/mempool/estimatefee.go]            (module [Fee]),
    - [pkg/waddrmgr/db.go] over the walletdb bucket interface
      (modules [Walletdb] and [Waddrmgr]),
    - the header store and voting-pool functions exercised by
      [cmd/spv/headerfs/store_test.go] and [pkg/votingpool/pool_wb_test.go]
      (modules [HeaderFS] and [VotingPool]),

    followed by the properties proved about them.  Part I holds the
    definitions, Part II the lemmas and theorems. *)

From Stdlib Require Import String Ascii.
From Stdlib Require Import Strings.Byte.
From Stdlib Require Import ZArith List Lia Bool.
From Stdlib Require Import Permutation Sorted OrdersEx RelationClasses.
From Stdlib Require Import Floats.SpecFloat.
Import ListNotations.
Open Scope Z_scope.

(* ===================================================================== *)
(** * Part I: definitions *)
(* ===================================================================== *)

(** ** Go data: bytes, fixed-width integers, slices *)

Definition bytes := list byte.

Definition Z_of_byte (b : byte) : Z := Z.of_N (Byte.to_N b).

Definition byte_of_Z (z : Z) : byte :=
  match Byte.of_N (Z.to_N (z mod 256)) with
  | Some b => b
  | None => x00
  end.

(** uint32(z), int32(z), uint64(z): wrap-around conversions. *)
Definition u32 (z : Z) : Z := z mod 2 ^ 32.
Definition i32 (z : Z) : Z := (z + 2 ^ 31) mod 2 ^ 32 - 2 ^ 31.
Definition u64 (z : Z) : Z := z mod 2 ^ 64.

(** Outcome of a Go call that may return a value, return an error, or panic. *)
Inductive result (A : Type) : Type :=
| Ok (a : A)
| Err (msg : string)
| Panic.
Arguments Ok {A} a.
Arguments Err {A} msg.
Arguments Panic {A}.

Definition is_Ok {A} (r : result A) : bool :=
  match r with Ok _ => true | _ => false end.
Definition is_Err {A} (r : result A) : bool :=
  match r with Err _ => true | _ => false end.

(** Outcome of a Go function whose only result is an [error]. *)
Inductive outcome : Type :=
| Done
| Failed (msg : string)
| Panicked.

(** [l[i] = x] on a slice; the caller checks the bound. *)
Fixpoint upd {A} (i : nat) (x : A) (l : list A) : list A :=
  match l, i with
  | [], _ => []
  | _ :: t, O => x :: t
  | h :: t, S i' => h :: upd i' x t
  end.

(** binary.LittleEndian / binary.BigEndian: n bytes of an unsigned value. *)
Fixpoint le_bytes (n : nat) (z : Z) : bytes :=
  match n with
  | O => []
  | S n' => byte_of_Z z :: le_bytes n' (z / 256)
  end.

Fixpoint le_value (bs : bytes) : Z :=
  match bs with
  | [] => 0
  | b :: t => Z_of_byte b + 256 * le_value t
  end.

Definition be_bytes (n : nat) (z : Z) : bytes := rev (le_bytes n z).
Definition be_value (bs : bytes) : Z := le_value (rev bs).

Definition byte_eqb (a b : byte) : bool := Byte.eqb a b.

Fixpoint bytes_eqb (a b : bytes) : bool :=
  match a, b with
  | [], [] => true
  | x :: a', y :: b' => Byte.eqb x y && bytes_eqb a' b'
  | _, _ => false
  end.

(** bytes.Compare: lexicographic order on byte strings. *)
Fixpoint bytes_compare (a b : bytes) : comparison :=
  match a, b with
  | [], [] => Eq
  | [], _ :: _ => Lt
  | _ :: _, [] => Gt
  | x :: a', y :: b' =>
      match Z.compare (Z_of_byte x) (Z_of_byte y) with
      | Eq => bytes_compare a' b'
      | c => c
      end
  end.

(** A Go string literal as the bytes of a []byte conversion. *)
Definition bytes_of_string (s : string) : bytes := list_byte_of_string s.

(** sort.Sort(data) for a sort.Interface whose Less is [less]: an insertion
    sort.  Go's sort.Sort is not stable; elements that compare equal under
    Less may come out in a different relative order there. *)
Section Sort.
Variable A : Type.
Variable less : A -> A -> bool.

Fixpoint sort_insert (x : A) (l : list A) : list A :=
  match l with
  | [] => [x]
  | y :: t => if less x y then x :: y :: t else y :: sort_insert x t
  end.

Definition sort_Sort (l : list A) : list A := fold_right sort_insert [] l.
End Sort.
Arguments sort_insert {A} less x l.
Arguments sort_Sort {A} less l.


(* ===================================================================== *)
(** ** pkg/mempool/estimatefee.go *)
(* ===================================================================== *)

Module Fee.

(** *** float64

    A float64 is kept as its IEEE-754 bit pattern (math.Float64bits), the
    form binary.Write serialises; comparisons and arithmetic go through its
    value as a [spec_float] of precision 53 and maximal exponent 1024. *)
Definition f64_prec : Z := 53.
Definition f64_emax : Z := 1024.

Definition f64 (bits : Z) : spec_float :=
  let b := bits mod 2 ^ 64 in
  let s := 2 ^ 63 <=? b in
  let e := (b / 2 ^ 52) mod 2 ^ 11 in
  let m := b mod 2 ^ 52 in
  if e =? 0 then
    match m with
    | Zpos p => S754_finite s p (-1074)
    | _ => S754_zero s
    end
  else if e =? 2047 then
    if m =? 0 then S754_infinity s else S754_nan
  else
    match m + 2 ^ 52 with
    | Zpos p => S754_finite s p (e - 1075)
    | _ => S754_nan
    end.

(** Go's [a > b], [a <= b] and [a == b] on float64. *)
Definition f64_gt (a b : Z) : bool := SFltb (f64 b) (f64 a).
Definition SF_le (x y : spec_float) : bool := SFleb x y.
Definition SF_gt (x y : spec_float) : bool := SFltb y x.

Definition bits_zero : Z := 0.                        (* 0.0 *)
Definition bits_inf : Z := 0x7FF0000000000000.        (* math.Inf(1) *)
Definition bits_minus_one : Z := 0xBFF0000000000000.  (* -1.0 *)
Definition bits_1000 : Z := 0x408F400000000000.       (* 1000.0 *)
Definition bits_1e_8 : Z := 0x3E45798EE2308C3A.       (* 1e-8 *)

(** *** Constants *)
Definition estimateFeeDepth : Z := 25.
Definition estimateFeeBinSize : Z := 100.
Definition estimateFeeMaxReplacements : Z := 10.
Definition DefaultEstimateFeeMaxRollback : Z := 2.
Definition DefaultEstimateFeeMinRegisteredBlocks : Z := 3.
Definition bytePerKb : spec_float := f64 bits_1000.
Definition duoPerSatoshi : spec_float := f64 bits_1e_8.

(** mining.UnminedHeight is declared in pkg/mining, outside the files at
    hand; it is the 0x7fffffff of the btcd code this package derives from. *)
Definition UnminedHeight : Z := 0x7fffffff.

(** *** Types *)
Definition SatoshiPerByte := Z.            (* float64 bits *)
Definition DUOPerKilobyte := spec_float.   (* float64 value *)
Definition Hash := bytes.                  (* chainhash.Hash, [32]byte *)

Record observedTransaction : Type := {
  ot_hash : Hash;
  ot_feeRate : SatoshiPerByte;   (* feeRate *)
  ot_observed : Z;               (* observed, int32 *)
  ot_mined : Z                   (* mined, int32 *)
}.

(** A [*observedTransaction] is an index into the estimator's [heap] of
    transaction objects; an index outside the heap is the nil pointer. *)
Definition ptr := nat.

Record registeredBlock : Type := {
  rb_hash : Hash;
  transactions : list ptr
}.

Record FeeEstimator : Type := {
  maxRollback : Z;            (* uint32 *)
  binSize : Z;                (* int32 *)
  maxReplacements : Z;        (* int32 *)
  minRegisteredBlocks : Z;    (* uint32 *)
  lastKnownHeight : Z;        (* int32 *)
  numBlocksRegistered : Z;    (* uint32 *)
  heap : list observedTransaction;
  (* map[chainhash.Hash]*observedTransaction; the order of the entries
     stands for the iteration order of [range], which Go leaves open *)
  observed : list (Hash * ptr);
  bin : list (list ptr);      (* [estimateFeeDepth][]*observedTransaction *)
  cached : option (list SatoshiPerByte);
  dropped : list registeredBlock
}.

Record estimateFeeSet : Type := {
  set_feeRate : list SatoshiPerByte;
  set_bin : list Z            (* [estimateFeeDepth]uint32 *)
}.

(** The block handed to RegisterBlock: its height, its hash and the hashes
    of its transactions in the order in which the range over the
    [transactions] map visits them. *)
Record block : Type := {
  blk_height : Z;             (* int32 *)
  blk_hash : Hash;
  blk_txs : list Hash
}.

Definition deref (h : list observedTransaction) (p : ptr) : option observedTransaction :=
  nth_error h p.

(** [ef.bin[i]] of the 25-element array. *)
Definition bin_at (b : list (list ptr)) (i : nat) : list ptr := nth i b [].
Definition indices25 : list nat := seq 0 25.
Definition bins25 (b : list (list ptr)) : list (list ptr) :=
  map (bin_at b) indices25.

Definition map_get (m : list (Hash * ptr)) (k : Hash) : option ptr :=
  match find (fun e => bytes_eqb (fst e) k) m with
  | Some e => Some (snd e)
  | None => None
  end.


(** *** NewFeeEstimator *)
Definition NewFeeEstimator (maxRollback minRegisteredBlocks : Z) : FeeEstimator :=
  {| maxRollback := maxRollback;
     binSize := estimateFeeBinSize;
     maxReplacements := estimateFeeMaxReplacements;
     minRegisteredBlocks := minRegisteredBlocks;
     lastKnownHeight := UnminedHeight;
     numBlocksRegistered := 0;
     heap := [];
     observed := [];
     bin := repeat [] 25;
     cached := None;
     dropped := [] |}.

(** *** estimateFeeSet *)

(** estimateFeeSet.Less: [b.feeRate[i] > b.feeRate[j]]. *)
Definition feeSet_less (a b : SatoshiPerByte) : bool := f64_gt a b.

Fixpoint rates_of (h : list observedTransaction) (ps : list ptr)
  : option (list SatoshiPerByte) :=
  match ps with
  | [] => Some []
  | p :: t =>
      match deref h p, rates_of h t with
      | Some o, Some rs => Some (ot_feeRate o :: rs)
      | _, _ => None
      end
  end.

(** newEstimateFeeSet; [None] is the nil-pointer panic of [o.feeRate]. *)
Definition newEstimateFeeSet (ef : FeeEstimator) : option estimateFeeSet :=
  match rates_of (heap ef) (concat (bins25 (bin ef))) with
  | Some rs =>
      Some {| set_feeRate := sort_Sort feeSet_less rs;
              set_bin := map (fun b => u32 (Z.of_nat (length b))) (bins25 (bin ef)) |}
  | None => None
  end.

Definition sum_bins (b : list Z) (n : nat) : Z :=
  fold_left Z.add (firstn n b) 0.

(** estimateFeeSet.estimateFee *)
Definition estimateFee (b : estimateFeeSet) (confirmations : Z) : SatoshiPerByte :=
  if confirmations <=? 0 then bits_inf
  else if confirmations >? estimateFeeDepth then bits_zero
  else if (length (set_feeRate b) =? 0)%nat then bits_zero
  else
    let min := sum_bins (set_bin b) (Z.to_nat (confirmations - 1)) in
    let max := min + nth (Z.to_nat (confirmations - 1)) (set_bin b) 0 - 1 in
    let max := if max <? min then min else max in
    let feeIndex := Z.quot (min + max) 2 in
    let feeIndex :=
      if feeIndex >=? Z.of_nat (length (set_feeRate b))
      then Z.of_nat (length (set_feeRate b)) - 1 else feeIndex in
    nth (Z.to_nat feeIndex) (set_feeRate b) bits_zero.

(** FeeEstimator.estimates *)
Definition estimates (ef : FeeEstimator) : option (list SatoshiPerByte) :=
  match newEstimateFeeSet ef with
  | Some set => Some (map (fun i => estimateFee set (Z.of_nat i + 1)) indices25)
  | None => None
  end.

(** SatoshiPerByte.ToBtcPerKb *)
Definition ToBtcPerKb (rate : SatoshiPerByte) : DUOPerKilobyte :=
  if SFeqb (f64 rate) (f64 bits_minus_one) then f64 bits_minus_one
  else SFmul f64_prec f64_emax
         (SFmul f64_prec f64_emax (f64 rate) bytePerKb) duoPerSatoshi.

(** FeeEstimator.EstimateFee: the returned pair and the estimator after the
    call (the cache may have been filled). *)
Definition EstimateFee (ef : FeeEstimator) (numBlocks : Z)
  : result DUOPerKilobyte * FeeEstimator :=
  if numBlocksRegistered ef <? minRegisteredBlocks ef then
    (Err "not enough blocks have been observed", ef)
  else if numBlocks =? 0 then
    (Err "cannot confirm transaction in zero blocks", ef)
  else if numBlocks >? estimateFeeDepth then
    (Err "can only estimate fees for up to 100 blocks from now", ef)
  else
    let c := match cached ef with
             | Some c => Some c
             | None => estimates ef
             end in
    match c with
    | None => (Panic, ef)
    | Some c =>
        let ef' := {| maxRollback := maxRollback ef; binSize := binSize ef;
                      maxReplacements := maxReplacements ef;
                      minRegisteredBlocks := minRegisteredBlocks ef;
                      lastKnownHeight := lastKnownHeight ef;
                      numBlocksRegistered := numBlocksRegistered ef;
                      heap := heap ef; observed := observed ef; bin := bin ef;
                      cached := Some c; dropped := dropped ef |} in
        match nth_error c (Z.to_nat (numBlocks - 1)) with
        | Some r => (Ok (ToBtcPerKb r), ef')
        | None => (Panic, ef')
        end
    end.

(** *** RegisterBlock *)

(** State of the loop over the block's transactions. *)
Record regState : Type := {
  rs_heap : list observedTransaction;
  rs_bin : list (list ptr);
  rs_counts : list Z;          (* replacementCounts [estimateFeeDepth]int *)
  rs_dropped : list ptr;       (* dropped.transactions *)
  rs_rand : list Z             (* the draws rand.Intn will make *)
}.

Definition set_mined (o : observedTransaction) (h : Z) : observedTransaction :=
  {| ot_hash := ot_hash o; ot_feeRate := ot_feeRate o;
     ot_observed := ot_observed o; ot_mined := h |}.

Inductive step (A : Type) : Type :=
| Continue (s : A)
| Return (o : outcome) (s : A).
Arguments Continue {A} s.
Arguments Return {A} o s.

(** One iteration of [for t := range transactions]. *)
Definition register_tx (ef : FeeEstimator) (height : Z) (s : regState) (h : Hash)
  : step regState :=
  match map_get (observed ef) h with
  | None => Continue s
  | Some p =>
      match deref (rs_heap s) p with
      | None => Return Panicked s
      | Some o =>
          let blocksToConfirm := i32 (height - ot_observed o - 1) in
          if negb (ot_mined o =? UnminedHeight) then
            Return (Failed "transaction has already been mined") s
          else if blocksToConfirm >=? estimateFeeDepth then Continue s
          else if blocksToConfirm <? 0 then Return Panicked s
          else
            let i := Z.to_nat blocksToConfirm in
            if nth i (rs_counts s) 0 =? maxReplacements ef then Continue s
            else
              let heap' := upd p (set_mined o height) (rs_heap s) in
              let counts' := upd i (nth i (rs_counts s) 0 + 1) (rs_counts s) in
              let b := bin_at (rs_bin s) i in
              if Z.of_nat (length b) =? binSize ef then
                let l := binSize ef - nth i counts' 0 in
                if l <=? 0 then
                  Return Panicked
                    {| rs_heap := heap'; rs_bin := rs_bin s; rs_counts := counts';
                       rs_dropped := rs_dropped s; rs_rand := rs_rand s |}
                else
                  let drop := Z.to_nat (hd 0 (rs_rand s) mod l) in
                  let last := Z.to_nat (l - 1) in
                  let b1 := upd drop (nth last b p) b in
                  let b2 := upd last p b1 in
                  Continue
                    {| rs_heap := heap';
                       rs_bin := upd i b2 (rs_bin s);
                       rs_counts := counts';
                       rs_dropped := rs_dropped s ++ [nth drop b p];
                       rs_rand := tl (rs_rand s) |}
              else
                Continue
                  {| rs_heap := heap';
                     rs_bin := upd i (b ++ [p]) (rs_bin s);
                     rs_counts := counts';
                     rs_dropped := rs_dropped s;
                     rs_rand := rs_rand s |}
      end
  end.

Fixpoint register_txs (ef : FeeEstimator) (height : Z) (s : regState) (txs : list Hash)
  : step regState :=
  match txs with
  | [] => Continue s
  | h :: t =>
      match register_tx ef height s h with
      | Continue s' => register_txs ef height s' t
      | Return o s' => Return o s'
      end
  end.

(** The sweep over [ef.observed] that deletes transactions observed too
    long ago. *)
Definition aged_out (h : list observedTransaction) (height : Z) (e : Hash * ptr) : bool :=
  match deref h (snd e) with
  | Some o => (ot_mined o =? UnminedHeight)
              && (i32 (height - ot_observed o) >=? estimateFeeDepth)
  | None => false
  end.

Definition with_block (ef : FeeEstimator) (height : Z) (s : regState)
  (obs : list (Hash * ptr)) (dr : list registeredBlock) : FeeEstimator :=
  {| maxRollback := maxRollback ef; binSize := binSize ef;
     maxReplacements := maxReplacements ef;
     minRegisteredBlocks := minRegisteredBlocks ef;
     lastKnownHeight := height;
     numBlocksRegistered := u32 (numBlocksRegistered ef + 1);
     heap := rs_heap s; observed := obs; bin := rs_bin s;
     cached := None; dropped := dr |}.

Definition clear_cache (ef : FeeEstimator) : FeeEstimator :=
  {| maxRollback := maxRollback ef; binSize := binSize ef;
     maxReplacements := maxReplacements ef;
     minRegisteredBlocks := minRegisteredBlocks ef;
     lastKnownHeight := lastKnownHeight ef;
     numBlocksRegistered := numBlocksRegistered ef;
     heap := heap ef; observed := observed ef; bin := bin ef;
     cached := None; dropped := dropped ef |}.

(** FeeEstimator.RegisterBlock; [rnd] lists the raw draws behind the calls
    of rand.Intn, each reduced into the requested range. *)
Definition RegisterBlock (ef : FeeEstimator) (b : block) (rnd : list Z)
  : outcome * FeeEstimator :=
  let height := blk_height b in
  if negb (height =? i32 (lastKnownHeight ef + 1))
     && negb (lastKnownHeight ef =? UnminedHeight) then
    (Failed "intermediate block not recorded", clear_cache ef)
  else
    let s0 := {| rs_heap := heap ef; rs_bin := bins25 (bin ef);
                 rs_counts := repeat 0 25; rs_dropped := []; rs_rand := rnd |} in
    match register_txs ef height s0 (blk_txs b) with
    | Return o s => (o, with_block ef height s (observed ef) (dropped ef))
    | Continue s =>
        let obs := filter (fun e => negb (aged_out (rs_heap s) height e)) (observed ef) in
        let d := {| rb_hash := blk_hash b; transactions := rs_dropped s |} in
        if maxRollback ef =? 0 then
          (Done, with_block ef height s obs (dropped ef))
        else if u32 (Z.of_nat (length (dropped ef))) =? maxRollback ef then
          (Done, with_block ef height s obs (tl (dropped ef) ++ [d]))
        else
          (Done, with_block ef height s obs (dropped ef ++ [d]))
    end.

(** *** Save *)













(** *** RestoreFeeEstimator *)

























(** *** Well-formed estimator states

    The conditions under which the estimator does not panic: every pointer
    held in a bin designates a transaction object, and the cached
    estimates, when present, are the ones [estimates] computes (the code
    resets the cache whenever the bins change). *)
Definition bins_valid (ef : FeeEstimator) : bool :=
  forallb (fun p => (p <? length (heap ef))%nat) (concat (bins25 (bin ef))).

Definition cache_consistent (ef : FeeEstimator) : Prop :=
  match cached ef with
  | Some c => estimates ef = Some c
  | None => True
  end.

(** The fee rates of all binned transactions, in bin order, and sorted as
    [newEstimateFeeSet] sorts them. *)
Definition binned_rates (ef : FeeEstimator) : list SatoshiPerByte :=
  match rates_of (heap ef) (concat (bins25 (bin ef))) with
  | Some rs => sort_Sort feeSet_less rs
  | None => []
  end.

(** Number of transactions in the bins of depths [1..k]. *)
Definition binned_upto (ef : FeeEstimator) (k : nat) : Z :=
  Z.of_nat (length (concat (firstn k (bins25 (bin ef))))).

(** Median position of the index range [[lo, hi)]. *)
Definition median_pos (lo hi : Z) : Z := (lo + (hi - 1)) / 2.

(** Every bin is short enough for its length to fit the uint32 of
    [estimateFeeSet.bin]. *)
Definition bins_small (ef : FeeEstimator) : Prop :=
  Forall (fun b : list ptr => Z.of_nat (length b) < 2 ^ 32) (bins25 (bin ef)).



Definition key_le (a b : Z * Z * Z) : Prop :=
  let '(a1, a2, a3) := a in
  let '(b1, b2, b3) := b in
  a1 < b1 \/ (a1 = b1 /\ (a2 < b2 \/ (a2 = b2 /\ a3 <= b3))).


(** The index [estimateFee] reads in a sorted rate array of [n] entries,
    given the bin sizes [b]: the median of the range, clamped to the array. *)
Definition fee_index (b : list Z) (n : Z) (confirmations : Z) : Z :=
  let lo := sum_bins b (Z.to_nat (confirmations - 1)) in
  let hi := Z.max lo (lo + nth (Z.to_nat (confirmations - 1)) b 0 - 1) in
  Z.min ((lo + hi) / 2) (n - 1).

(** *** Example states *)

Definition empty_block (h : Z) : block :=
  {| blk_height := h; blk_hash := repeat x00 32; blk_txs := [] |}.

(** Two binned transactions with fee rates 2.0 and 1.0 satoshi per byte. *)
Definition three_tx_state : FeeEstimator :=
  {| maxRollback := 2; binSize := 100; maxReplacements := 10;
     minRegisteredBlocks := 3; lastKnownHeight := 12; numBlocksRegistered := 3;
     heap := [ {| ot_hash := repeat x01 32; ot_feeRate := 0x4000000000000000;
                  ot_observed := 10; ot_mined := 11 |};
               {| ot_hash := repeat x02 32; ot_feeRate := 0x3ff0000000000000;
                  ot_observed := 10; ot_mined := 12 |} ];
     observed := [(repeat x01 32, 0%nat); (repeat x02 32, 1%nat)];
     bin := [[0%nat]; [1%nat]] ++ repeat [] 23;
     cached := None;
     dropped := [] |}.

(** A new estimator after three empty blocks at heights 1, 2 and 3. *)
Definition after_three_empty_blocks : FeeEstimator :=
  let e0 := NewFeeEstimator 2 3 in
  let e1 := snd (RegisterBlock e0 (empty_block 1) []) in
  let e2 := snd (RegisterBlock e1 (empty_block 2) []) in
  snd (RegisterBlock e2 (empty_block 3) []).


(** The sentences of the specification about the value EstimateFee
    returns, as they read. *)

(** "When estimate_fee(depth) succeeds, it returns the per-byte fee rate at
    the median sorted position of the cumulative bin range, multiplied by
    1000 and by 1e-8." *)
Definition returns_scaled_median (ef : FeeEstimator) (depth : Z) : Prop :=
  forall v, fst (EstimateFee ef depth) = Ok v ->
  exists r,
    nth_error (binned_rates ef)
      (Z.to_nat (median_pos (binned_upto ef (Z.to_nat (depth - 1)))
                            (binned_upto ef (Z.to_nat depth)))) = Some r /\
    v = SFmul f64_prec f64_emax
          (SFmul f64_prec f64_emax (f64 r) bytePerKb) duoPerSatoshi.


End Fee.

(* ===================================================================== *)
(** ** cmd/spv/headerfs: the block header store *)
(* ===================================================================== *)

Module HeaderFS.

Definition Hash := bytes.

(** Modelled from the spec: the on-disk width of a block header record
    (section 3, "Fixed-width (80 bytes) on disk"); the store itself
    (NewBlockHeaderStore, WriteHeaders, FetchHeaderAncestors, ChainTip,
    truncateIndex) is not among the files at hand, only store_test.go is. *)
Definition stride : nat := 80.

(** Modelled from the spec: a header store is the flat header file, a
    concatenation of 80-byte records with the record of height h at offset
    (h-1) * 80 and the genesis record implicit (section 6), together with
    the index mapping a header hash to its height and naming the hash of
    the tip (section 3, "Height-hash index"). *)
Record store : Type := {
  file : bytes;
  index : list (Hash * Z);
  tip : Hash
}.

Section Store.

(** The hash of a header record and the hash of the implicit genesis
    header (chaincfg.SimNetParams in the tests). *)
Variable header_hash : bytes -> Hash.
Variable genesis_hash : Hash.

Definition index_get (ix : list (Hash * Z)) (h : Hash) : option Z :=
  match find (fun e => bytes_eqb (fst e) h) ix with
  | Some e => Some (snd e)
  | None => None
  end.

Definition index_delete (ix : list (Hash * Z)) (h : Hash) : list (Hash * Z) :=
  filter (fun e => negb (bytes_eqb (fst e) h)) ix.

Definition index_put (ix : list (Hash * Z)) (h : Hash) (height : Z) : list (Hash * Z) :=
  (h, height) :: index_delete ix h.

(** Modelled from the spec: a store created on an empty directory holds no
    record; its index knows the genesis hash at height 0, which is the tip. *)
Definition new_store : store :=
  {| file := []; index := [(genesis_hash, 0)]; tip := genesis_hash |}.

(** wire.BlockHeader.PrevBlock in the canonical 80-byte encoding: the 32
    bytes after the 4-byte version. *)
Definition prev_block (hdr : bytes) : Hash := firstn 32 (skipn 4 hdr).

(** Modelled from the spec: the index's advertised tip height. *)
Definition tip_height (st : store) : option Z := index_get (index st) (tip st).

(** Modelled from the spec: [write_headers(records...)] appends the records
    to the file and enters each record's hash with its height into the
    index, the last one becoming the tip (section 4.A). *)
Fixpoint write_headers (st : store) (recs : list (bytes * Z)) : store :=
  match recs with
  | [] => st
  | (hdr, height) :: t =>
      write_headers
        {| file := file st ++ hdr;
           index := index_put (index st) (header_hash hdr) height;
           tip := header_hash hdr |} t
  end.

(** Modelled from the spec: [truncate_index(new_tip_hash)], the test hook
    that rolls the index back by one entry: the entry of the current tip is
    removed and the tip becomes [new_tip_hash]; the file is not touched. *)
Definition truncate_index (st : store) (new_tip : Hash) : store :=
  {| file := file st;
     index := index_delete (index st) (tip st);
     tip := new_tip |}.

(** Modelled from the spec: the recovery protocol at open time (section
    4.A): compare file_len / stride against the index's advertised tip
    height; if the file is longer, truncate it to match the index; if the
    index is longer, fail. *)
Definition open (st : store) : result store :=
  match tip_height st with
  | None => Err "tip not found in index"
  | Some h =>
      let file_records := Z.of_nat (length (file st) / stride) in
      if file_records >? h then
        Ok {| file := firstn (Z.to_nat h * stride) (file st);
              index := index st; tip := tip st |}
      else if file_records <? h then Err "index is ahead of the header file"
      else Ok st
  end.

(** Modelled from the spec: the record of height h, read at offset
    (h-1) * stride; [fetch_by_height] answers OutOfRange outside the file. *)
Definition fetch_by_height (st : store) (h : Z) : result bytes :=
  if (1 <=? h) && (h * Z.of_nat stride <=? Z.of_nat (length (file st))) then
    Ok (firstn stride (skipn (Z.to_nat (h - 1) * stride) (file st)))
  else Err "OutOfRange".

(** Modelled from the spec: [chain_tip()] yields the tip record and its
    height. *)
Definition chain_tip (st : store) : result (bytes * Z) :=
  match tip_height st with
  | None => Err "tip not found in index"
  | Some h =>
      match fetch_by_height st h with
      | Ok r => Ok (r, h)
      | Err e => Err e
      | Panic => Panic
      end
  end.

(** [n] consecutive records cut out of a byte range. *)
Fixpoint records (n : nat) (bs : bytes) : list bytes :=
  match n with
  | O => []
  | S n' => firstn stride bs :: records n' (skipn stride bs)
  end.

(** Modelled from the spec: [fetch_ancestor_range(stop_height, stop_hash,
    count)] returns the records ending at [stop_height] and the height of
    the first of them, start_height = stop_height - count + 1 clamped to a
    minimum of 1 so that genesis is never returned; it is a bulk read of
    the records from start_height to stop_height followed by decode
    (section 4.A). *)
Definition fetch_ancestor_range (st : store) (stop_height : Z) (stop_hash : Hash)
    (count : Z) : result (list bytes * Z) :=
  let start_height := Z.max 1 (stop_height - count + 1) in
  let n := stop_height - start_height + 1 in
  if stop_height * Z.of_nat stride <=? Z.of_nat (length (file st)) then
    Ok (records (Z.to_nat n)
          (skipn (Z.to_nat (start_height - 1) * stride) (file st)),
        start_height)
  else Err "OutOfRange".

(** A chain of header records as createTestBlockHeaderChain builds it:
    every record has 80 bytes and names the hash of its predecessor, the
    first one the genesis hash; heights count from 1. *)
Fixpoint connected (prev : Hash) (hdrs : list bytes) : Prop :=
  match hdrs with
  | [] => True
  | h :: t => length h = stride /\ prev_block h = prev /\ connected (header_hash h) t
  end.

Fixpoint with_heights (from : Z) (hdrs : list bytes) : list (bytes * Z) :=
  match hdrs with
  | [] => []
  | h :: t => (h, from) :: with_heights (from + 1) t
  end.

(** The store after the chain [hdrs] has been written to a new store. *)
Definition stored_chain (hdrs : list bytes) : store :=
  write_headers new_store (with_heights 1 hdrs).

(** The test's loop: [k] times, truncate the index to the PrevBlock of the
    header [i] places before the end. *)
Fixpoint truncate_back (st : store) (rev_hdrs : list bytes) (k : nat) : store :=
  match k, rev_hdrs with
  | S k', h :: t => truncate_back (truncate_index st (prev_block h)) t k'
  | _, _ => st
  end.

(** The hash the index should name as tip when the headers [rev_hdrs]
    (last one first) are the ones it knows. *)
Definition tip_of (rev_hdrs : list bytes) : Hash :=
  match rev_hdrs with
  | [] => genesis_hash
  | h :: _ => header_hash h
  end.

Fixpoint rconnected (rev_hdrs : list bytes) : Prop :=
  match rev_hdrs with
  | [] => True
  | h :: t => length h = stride /\ prev_block h = tip_of t /\ rconnected t
  end.

End Store.

(** A concrete chain for evaluation: header [i] carries [i] in its last
    byte and in its Merkle-root field, which also serves as its hash. *)
Definition toy_hash (hdr : bytes) : Hash := firstn 32 (skipn 36 hdr).
Definition toy_id (i : Z) : Hash := repeat x00 31 ++ [byte_of_Z i].
Definition toy_header (i : Z) : bytes :=
  repeat x00 4 ++ toy_id (i - 1) ++ toy_id i ++ repeat x00 12.
Definition toy_chain (n : nat) : list bytes :=
  map (fun i => toy_header (Z.of_nat i)) (seq 1 n).

(** The sentence of the specification about fetch_ancestor_range, as it
    reads: exactly [count] records come back, and start_height is
    stop_height - count + 1 clamped to 1. *)
Definition returns_count_records (st : store) (stop_height : Z) (stop_hash : Hash)
    (count : Z) : Prop :=
  exists recs start_height,
    fetch_ancestor_range st stop_height stop_hash count = Ok (recs, start_height) /\
    Z.of_nat (length recs) = count /\
    start_height = Z.max 1 (stop_height - count + 1).

End HeaderFS.

(* ===================================================================== *)
(** ** pkg/votingpool: validation of encrypted series keys *)
(* ===================================================================== *)

Module VotingPool.

(** The error codes TestValidateAndDecryptKeysErrors expects. *)
Inductive ErrorCode : Type :=
| ErrKeysPrivatePublicMismatch
| ErrCrypto
| ErrKeyMismatch.

(** waddrmgr.CryptoKeyType *)
Inductive CryptoKeyType : Type :=
| CKTPrivate
| CKTPublic.

(** One invocation of the decryptor. *)
Definition call : Type := (CryptoKeyType * bytes)%type.

(** Computations that may invoke the decryptor: the result, and the
    invocations made, in order. *)
Definition traced (A : Type) : Type := (A * list call)%type.

Definition ret {A} (a : A) : traced A := (a, []).

Definition bind {A B} (m : traced A) (k : A -> traced B) : traced B :=
  let '(a, t1) := m in
  let '(b, t2) := k a in
  (b, t1 ++ t2).

Notation "x <- m ;; k" := (bind m (fun x => k))
  (at level 61, m at next level, right associativity).

Section Validate.

(** The pool manager's decryptor and the derivation of the public key of
    an extended private key (hdkeychain's Neuter). *)
Variable decryptor : CryptoKeyType -> bytes -> option bytes.
Variable neuter : bytes -> bytes.

Definition decrypt (t : CryptoKeyType) (enc : bytes) : traced (option bytes) :=
  (decryptor t enc, [(t, enc)]).

(** Modelled from the spec: the per-key part of [validate_and_decrypt]
    (section 4.E): decrypt each key, a decryption failure yields Crypto;
    for every non-null private key its public companion must equal the
    decrypted public key, a mismatch yields KeyMismatch.  An empty
    encrypted private key means that no private key is held for the slot. *)
Fixpoint decrypt_pairs (pairs : list (bytes * bytes))
  : traced (ErrorCode + list (bytes * option bytes)) :=
  match pairs with
  | [] => ret (inr [])
  | (enc_pub, enc_priv) :: t =>
      pub <- decrypt CKTPublic enc_pub ;;
      match pub with
      | None => ret (inl ErrCrypto)
      | Some pub =>
          priv <- match enc_priv with
                  | [] => ret (Some None)
                  | _ => p <- decrypt CKTPrivate enc_priv ;;
                         ret (match p with
                              | Some k => Some (Some k)
                              | None => None
                              end)
                  end ;;
          match priv with
          | None => ret (inl ErrCrypto)
          | Some priv =>
              if match priv with
                 | Some k => bytes_eqb (neuter k) pub
                 | None => true
                 end
              then
                rest <- decrypt_pairs t ;;
                ret (match rest with
                     | inl e => inl e
                     | inr ks => inr ((pub, priv) :: ks)
                     end)
              else ret (inl ErrKeyMismatch)
          end
      end
  end.

(** Modelled from the spec: [validate_and_decrypt(enc_pubs, enc_privs)]
    (section 4.E; the function validateAndDecryptKeys is not among the
    files at hand, only pool_wb_test.go is):
    len(enc_pubs) == len(enc_privs) else PrivatePublicMismatch, then the
    per-key checks. *)
Definition validate_and_decrypt (enc_pubs enc_privs : list bytes)
  : traced (ErrorCode + list (bytes * option bytes)) :=
  if negb (length enc_pubs =? length enc_privs)%nat then
    ret (inl ErrKeysPrivatePublicMismatch)
  else decrypt_pairs (combine enc_pubs enc_privs).

End Validate.

End VotingPool.

(* ===================================================================== *)
(** ** walletdb: the bucketed key/value store behind the bdb driver *)
(* ===================================================================== *)

Module Walletdb.

(** A bucket holds values and nested buckets under byte-string keys; bolt
    keeps the keys of a bucket in byte order and ForEach visits them in
    that order.  Limits on key and value sizes are left out. *)
#[local] Unset Elimination Schemes.
Inductive node : Type :=
| Val (v : bytes)
| Sub (b : list (bytes * node)).
#[local] Set Elimination Schemes.

Definition bucket : Type := list (bytes * node).

Definition lookup (b : bucket) (k : bytes) : option node :=
  match find (fun e => bytes_eqb (fst e) k) b with
  | Some e => Some (snd e)
  | None => None
  end.

Fixpoint replace (b : bucket) (k : bytes) (n : node) : bucket :=
  match b with
  | [] => []
  | (k', n') :: t =>
      if bytes_eqb k' k then (k, n) :: t else (k', n') :: replace t k n
  end.

Fixpoint insert_sorted (b : bucket) (k : bytes) (n : node) : bucket :=
  match b with
  | [] => [(k, n)]
  | (k', n') :: t =>
      match bytes_compare k k' with
      | Lt => (k, n) :: (k', n') :: t
      | _ => (k', n') :: insert_sorted t k n
      end
  end.

Definition put (b : bucket) (k : bytes) (n : node) : bucket :=
  match lookup b k with
  | Some _ => replace b k n
  | None => insert_sorted b k n
  end.

Definition remove (b : bucket) (k : bytes) : bucket :=
  filter (fun e => negb (bytes_eqb (fst e) k)) b.

Definition keys (b : bucket) : list bytes := map fst b.

(** The bucket obtained by putting the given entries one after the other. *)
Definition bucket_of (es : list (bytes * node)) : bucket :=
  fold_left (fun b e => put b (fst e) (snd e)) es [].

(** A bucket handle of a transaction designates a bucket by its path from
    the namespace bucket; the nil handle is [None]. *)
Definition path : Type := list bytes.
Definition handle : Type := option path.

Fixpoint get_bucket (root : bucket) (p : path) : option bucket :=
  match p with
  | [] => Some root
  | k :: p' =>
      match lookup root k with
      | Some (Sub b) => get_bucket b p'
      | _ => None
      end
  end.

Fixpoint update_at (root : bucket) (p : path) (f : bucket -> bucket) : bucket :=
  match p with
  | [] => f root
  | k :: p' =>
      match lookup root k with
      | Some (Sub b) => replace root k (Sub (update_at b p' f))
      | _ => root
      end
  end.

(** Two paths that part at some key: neither bucket contains the other. *)
Fixpoint diverge (p q : path) : bool :=
  match p, q with
  | a :: p', b :: q' => if bytes_eqb a b then diverge p' q' else true
  | _, _ => false
  end.

(** Operations of a read-write transaction: the result, and the namespace
    after the operation.  An error or a panic stops the computation and
    leaves the namespace as it is at that point. *)
Definition tx (A : Type) : Type := bucket -> result A * bucket.

Definition ret {A} (a : A) : tx A := fun root => (Ok a, root).
Definition fail {A} (msg : string) : tx A := fun root => (Err msg, root).
Definition panic {A} : tx A := fun root => (Panic, root).

Definition bind {A B} (m : tx A) (k : A -> tx B) : tx B :=
  fun root =>
    match m root with
    | (Ok a, root') => k a root'
    | (Err e, root') => (Err e, root')
    | (Panic, root') => (Panic, root')
    end.

Notation "x <- m ;; k" := (bind m (fun x => k))
  (at level 61, m at next level, right associativity).
Notation "m ;;; k" := (bind m (fun _ => k))
  (at level 61, right associativity).

(** [if e = m; E.Chk(e) { return managerError(code, str, e) }] *)
Definition wrap_err {A} (str : string) (m : tx A) : tx A :=
  fun root =>
    match m root with
    | (Err _, root') => (Err str, root')
    | r => r
    end.

(** A method call on a bucket handle: a nil handle is a nil dereference. *)
Definition on_bucket {A} (h : handle) (f : path -> bucket -> tx A) : tx A :=
  fun root =>
    match h with
    | None => (Panic, root)
    | Some p =>
        match get_bucket root p with
        | Some b => f p b root
        | None => (Panic, root)
        end
    end.

(** A Go []byte that may be nil, as stored by Put: nil is stored as the
    empty value. *)
Definition slice_bytes (v : option bytes) : bytes :=
  match v with
  | Some b => b
  | None => []
  end.

Definition is_nil {A} (l : list A) : bool :=
  match l with [] => true | _ => false end.

(** bucket.NestedReadWriteBucket and bucket.NestedReadBucket *)
Definition NestedReadWriteBucket (h : handle) (key : bytes) : tx handle :=
  on_bucket h (fun p b =>
    match lookup b key with
    | Some (Sub _) => ret (Some (p ++ [key]))
    | _ => ret None
    end).

Definition NestedReadBucket := NestedReadWriteBucket.

(** bucket.Get *)
Definition Get (h : handle) (key : bytes) : tx (option bytes) :=
  on_bucket h (fun p b =>
    match lookup b key with
    | Some (Val v) => ret (Some v)
    | _ => ret None
    end).

(** bucket.Put *)
Definition Put (h : handle) (key value : bytes) : tx unit :=
  on_bucket h (fun p b =>
    if is_nil key then fail "key required"
    else match lookup b key with
         | Some (Sub _) => fail "incompatible value"
         | _ => fun root => (Ok tt, update_at root p (fun b => put b key (Val value)))
         end).

(** bucket.Delete *)
Definition Delete (h : handle) (key : bytes) : tx unit :=
  on_bucket h (fun p b =>
    match lookup b key with
    | Some (Sub _) => fail "incompatible value"
    | _ => fun root => (Ok tt, update_at root p (fun b => remove b key))
    end).

(** bucket.CreateBucket *)
Definition CreateBucket (h : handle) (key : bytes) : tx handle :=
  on_bucket h (fun p b =>
    if is_nil key then fail "bucket name required"
    else match lookup b key with
         | Some (Sub _) => fail "bucket already exists"
         | Some (Val _) => fail "incompatible value"
         | None =>
             fun root => (Ok (Some (p ++ [key])),
                          update_at root p (fun b => put b key (Sub [])))
         end).

(** bucket.CreateBucketIfNotExists *)
Definition CreateBucketIfNotExists (h : handle) (key : bytes) : tx handle :=
  on_bucket h (fun p b =>
    if is_nil key then fail "bucket name required"
    else match lookup b key with
         | Some (Sub _) => ret (Some (p ++ [key]))
         | Some (Val _) => fail "incompatible value"
         | None =>
             fun root => (Ok (Some (p ++ [key])),
                          update_at root p (fun b => put b key (Sub [])))
         end).

(** bucket.DeleteNestedBucket *)
Definition DeleteNestedBucket (h : handle) (key : bytes) : tx unit :=
  on_bucket h (fun p b =>
    match lookup b key with
    | Some (Sub _) => fun root => (Ok tt, update_at root p (fun b => remove b key))
    | Some (Val _) => fail "incompatible value"
    | None => fail "bucket not found"
    end).

(** The value ForEach passes for an entry: nil for a nested bucket. *)
Definition entry_value (n : node) : option bytes :=
  match n with
  | Val v => Some v
  | Sub _ => None
  end.

Fixpoint for_entries (es : bucket) (fn : bytes -> option bytes -> tx unit) : tx unit :=
  match es with
  | [] => ret tt
  | (k, n) :: t => fn k (entry_value n) ;;; for_entries t fn
  end.

(** bucket.ForEach: the callback is applied to the entries the bucket has
    when the iteration starts, in key order, and stops at the first error. *)
Definition ForEach (h : handle) (fn : bytes -> option bytes -> tx unit) : tx unit :=
  on_bucket h (fun p b => for_entries b fn).

(** Go's [s[lo:hi]] on a byte slice whose capacity is its length: [None]
    is the run-time panic of an out-of-range slice expression. *)
Definition slice (s : bytes) (lo hi : Z) : option bytes :=
  if (0 <=? lo) && (lo <=? hi) && (hi <=? Z.of_nat (length s)) then
    Some (firstn (Z.to_nat (hi - lo)) (skipn (Z.to_nat lo) s))
  else None.

End Walletdb.

(* ===================================================================== *)
(** ** pkg/waddrmgr/db.go *)
(* ===================================================================== *)

Module Waddrmgr.
Import Walletdb.

(** *** Address and account types *)
Definition adtChain : Z := 0.
Definition adtImport : Z := 1.
Definition adtScript : Z := 2.
Definition accountDefault : Z := 0.

Record dbAccountRow : Type := {
  acctType : Z;              (* accountType, uint8 *)
  acct_rawData : bytes
}.

Record dbDefaultAccountRow : Type := {
  dar_row : dbAccountRow;
  pubKeyEncrypted : bytes;
  privKeyEncrypted : bytes;
  nextExternalIndex : Z;     (* uint32 *)
  nextInternalIndex : Z;     (* uint32 *)
  name : bytes               (* string *)
}.

Record dbAddressRow : Type := {
  addTime : Z;               (* uint64 *)
  rawData : bytes;
  account : Z;               (* uint32 *)
  syncStatus : Z;            (* uint8 *)
  addrType : Z               (* addressType, uint8 *)
}.

Record dbImportedAddressRow : Type := {
  iar_row : dbAddressRow;
  encryptedPubKey : bytes;
  encryptedPrivKey : bytes
}.

Record dbScriptAddressRow : Type := {
  sar_row : dbAddressRow;
  encryptedHash : bytes;
  encryptedScript : bytes
}.

(** *** Bucket and key names *)
Definition scopeSchemaBucketName : bytes := bytes_of_string "scope-schema".
Definition scopeBucketName : bytes := bytes_of_string "scope".
Definition coinTypePrivKeyName : bytes := bytes_of_string "ctpriv".
Definition coinTypePubKeyName : bytes := bytes_of_string "ctpub".
Definition acctBucketName : bytes := bytes_of_string "acct".
Definition addrBucketName : bytes := bytes_of_string "addr".
Definition addrAcctIdxBucketName : bytes := bytes_of_string "addracctidx".
Definition acctNameIdxBucketName : bytes := bytes_of_string "acctnameidx".
Definition acctIDIdxBucketName : bytes := bytes_of_string "acctididx".
Definition usedAddrBucketName : bytes := bytes_of_string "usedaddrs".
Definition metaBucketName : bytes := bytes_of_string "meta".
Definition lastAccountName : bytes := bytes_of_string "lastaccount".
Definition mainBucketName : bytes := bytes_of_string "main".
Definition masterHDPrivName : bytes := bytes_of_string "mhdpriv".
Definition masterHDPubName : bytes := bytes_of_string "mhdpub".
Definition syncBucketName : bytes := bytes_of_string "sync".
Definition mgrVersionName : bytes := bytes_of_string "mgrver".
Definition mgrCreateDateName : bytes := bytes_of_string "mgrcreated".
Definition masterPrivKeyName : bytes := bytes_of_string "mpriv".
Definition masterPubKeyName : bytes := bytes_of_string "mpub".
Definition cryptoPrivKeyName : bytes := bytes_of_string "cpriv".
Definition cryptoPubKeyName : bytes := bytes_of_string "cpub".
Definition cryptoScriptKeyName : bytes := bytes_of_string "cscript".
Definition watchingOnlyName : bytes := bytes_of_string "watchonly".

(** uint32ToBytes *)
Definition uint32ToBytes (number : Z) : bytes := le_bytes 4 number.

(** binary.LittleEndian.Uint32 and Uint64 of a slice expression [s[lo:hi]];
    [None] when the slice expression panics. *)
Definition Uint32_at (s : bytes) (lo : Z) : option Z :=
  match slice s lo (u32 (lo + 4)) with
  | Some b => Some (le_value b)
  | None => None
  end.

Record KeyScope : Type := { Purpose : Z; Coin : Z }.
Record ScopeAddrSchema : Type := { InternalAddrType : Z; ExternalAddrType : Z }.

(** scopeToBytes *)
Definition scopeToBytes (scope : KeyScope) : bytes :=
  le_bytes 4 (Purpose scope) ++ le_bytes 4 (Coin scope).

(** scopeSchemaToBytes *)
Definition scopeSchemaToBytes (schema : ScopeAddrSchema) : bytes :=
  [byte_of_Z (InternalAddrType schema); byte_of_Z (ExternalAddrType schema)].

(** putManagerVersion *)
Definition putManagerVersion (ns : handle) (version : Z) : tx unit :=
  bucket <- NestedReadWriteBucket ns mainBucketName ;;
  wrap_err "failed to store version"
    (Put bucket mgrVersionName (uint32ToBytes version)).

(** *** Account rows *)

(** deserializeAccountRow *)
Definition deserializeAccountRow (serializedAccount : bytes) : result dbAccountRow :=
  if Z.of_nat (length serializedAccount) <? 5 then
    Err "malformed serialized account"
  else
    let rdlen := le_value (firstn 4 (skipn 1 serializedAccount)) in
    match slice serializedAccount 5 (u32 (5 + rdlen)) with
    | None => Panic
    | Some d =>
        Ok {| acctType := Z_of_byte (nth 0 serializedAccount x00);
              acct_rawData := d |}
    end.

(** serializeAccountRow *)
Definition serializeAccountRow (row : dbAccountRow) : bytes :=
  byte_of_Z (acctType row)
    :: le_bytes 4 (Z.of_nat (length (acct_rawData row))) ++ acct_rawData row.

(** deserializeDefaultAccountRow *)
Definition deserializeDefaultAccountRow (row : dbAccountRow) : result dbDefaultAccountRow :=
  let raw := acct_rawData row in
  if Z.of_nat (length raw) <? 20 then
    Err "malformed serialized bip0044 account"
  else
    let pubLen := le_value (firstn 4 raw) in
    match slice raw 4 (u32 (4 + pubLen)) with
    | None => Panic
    | Some pub =>
        let offset := u32 (4 + pubLen) in
        match Uint32_at raw offset with
        | None => Panic
        | Some privLen =>
            let offset := u32 (offset + 4) in
            match slice raw offset (u32 (offset + privLen)) with
            | None => Panic
            | Some priv =>
                let offset := u32 (offset + privLen) in
                match Uint32_at raw offset with
                | None => Panic
                | Some nextExt =>
                    let offset := u32 (offset + 4) in
                    match Uint32_at raw offset with
                    | None => Panic
                    | Some nextInt =>
                        let offset := u32 (offset + 4) in
                        match Uint32_at raw offset with
                        | None => Panic
                        | Some nameLen =>
                            let offset := u32 (offset + 4) in
                            match slice raw offset (u32 (offset + nameLen)) with
                            | None => Panic
                            | Some nm =>
                                Ok {| dar_row := row;
                                      pubKeyEncrypted := pub;
                                      privKeyEncrypted := priv;
                                      nextExternalIndex := nextExt;
                                      nextInternalIndex := nextInt;
                                      name := nm |}
                            end
                        end
                    end
                end
            end
        end
    end.

(** serializeDefaultAccountRow, for slices whose lengths add up to less
    than 2^32 (no store value is that long). *)
Definition serializeDefaultAccountRow (encryptedPubKey encryptedPrivKey : bytes)
    (nextExternalIndex nextInternalIndex : Z) (name : bytes) : bytes :=
  le_bytes 4 (Z.of_nat (length encryptedPubKey)) ++ encryptedPubKey
    ++ le_bytes 4 (Z.of_nat (length encryptedPrivKey)) ++ encryptedPrivKey
    ++ le_bytes 4 nextExternalIndex
    ++ le_bytes 4 nextInternalIndex
    ++ le_bytes 4 (Z.of_nat (length name)) ++ name.

(** *** Address rows *)

(** deserializeAddressRow; a nil value has length 0. *)
Definition deserializeAddressRow (serializedAddress : bytes) : result dbAddressRow :=
  if Z.of_nat (length serializedAddress) <? 18 then
    Err "malformed serialized address"
  else
    let rdlen := le_value (firstn 4 (skipn 14 serializedAddress)) in
    match slice serializedAddress 18 (u32 (18 + rdlen)) with
    | None => Panic
    | Some d =>
        Ok {| addTime := le_value (firstn 8 (skipn 5 serializedAddress));
              rawData := d;
              account := le_value (firstn 4 (skipn 1 serializedAddress));
              syncStatus := Z_of_byte (nth 13 serializedAddress x00);
              addrType := Z_of_byte (nth 0 serializedAddress x00) |}
    end.

(** serializeAddressRow *)
Definition serializeAddressRow (row : dbAddressRow) : bytes :=
  byte_of_Z (addrType row)
    :: le_bytes 4 (account row)
    ++ le_bytes 8 (addTime row)
    ++ byte_of_Z (syncStatus row)
    :: le_bytes 4 (Z.of_nat (length (rawData row))) ++ rawData row.

(** The two length-prefixed fields shared by imported and script rows. *)
Definition deserializeTwoFields (raw : bytes) (msg : string) : result (bytes * bytes) :=
  if Z.of_nat (length raw) <? 8 then Err msg
  else
    let len1 := le_value (firstn 4 raw) in
    match slice raw 4 (u32 (4 + len1)) with
    | None => Panic
    | Some f1 =>
        let offset := u32 (4 + len1) in
        match Uint32_at raw offset with
        | None => Panic
        | Some len2 =>
            let offset := u32 (offset + 4) in
            match slice raw offset (u32 (offset + len2)) with
            | None => Panic
            | Some f2 => Ok (f1, f2)
            end
        end
    end.

(** deserializeImportedAddress *)
Definition deserializeImportedAddress (row : dbAddressRow) : result dbImportedAddressRow :=
  match deserializeTwoFields (rawData row) "malformed serialized imported address" with
  | Ok (pub, priv) =>
      Ok {| iar_row := row; encryptedPubKey := pub; encryptedPrivKey := priv |}
  | Err e => Err e
  | Panic => Panic
  end.

(** serializeImportedAddress *)
Definition serializeImportedAddress (encryptedPubKey encryptedPrivKey : bytes) : bytes :=
  le_bytes 4 (Z.of_nat (length encryptedPubKey)) ++ encryptedPubKey
    ++ le_bytes 4 (Z.of_nat (length encryptedPrivKey)) ++ encryptedPrivKey.

(** deserializeScriptAddress *)
Definition deserializeScriptAddress (row : dbAddressRow) : result dbScriptAddressRow :=
  match deserializeTwoFields (rawData row) "malformed serialized script address" with
  | Ok (h, s) =>
      Ok {| sar_row := row; encryptedHash := h; encryptedScript := s |}
  | Err e => Err e
  | Panic => Panic
  end.

(** serializeScriptAddress *)
Definition serializeScriptAddress (encryptedHash encryptedScript : bytes) : bytes :=
  le_bytes 4 (Z.of_nat (length encryptedHash)) ++ encryptedHash
    ++ le_bytes 4 (Z.of_nat (length encryptedScript)) ++ encryptedScript.

Definition with_acct_rawData (row : dbAccountRow) (raw : bytes) : dbAccountRow :=
  {| acctType := acctType row; acct_rawData := raw |}.

Definition with_rawData (row : dbAddressRow) (raw : bytes) : dbAddressRow :=
  {| addTime := addTime row; rawData := raw; account := account row;
     syncStatus := syncStatus row; addrType := addrType row |}.

(** A callback result [return e] for a deserialisation outcome. *)
Definition lift {A} (r : result A) : tx A :=
  match r with
  | Ok a => ret a
  | Err e => fail e
  | Panic => panic
  end.

(** *** deletePrivateKeys *)

(** The callback over the account bucket of one scope. *)
Definition strip_account (bucket : handle) (k : bytes) (v : option bytes) : tx unit :=
  match v with
  | None => ret tt
  | Some v =>
      row <- lift (deserializeAccountRow v) ;;
      if acctType row =? accountDefault then
        arow <- lift (deserializeDefaultAccountRow row) ;;
        let row' :=
          with_acct_rawData row
            (serializeDefaultAccountRow (pubKeyEncrypted arow) []
               (nextExternalIndex arow) (nextInternalIndex arow) (name arow)) in
        wrap_err "failed to delete account private key"
          (Put bucket k (serializeAccountRow row'))
      else ret tt
  end.

(** The callback over the address bucket of one scope. *)
Definition strip_address (bucket : handle) (k : bytes) (v : option bytes) : tx unit :=
  match v with
  | None => ret tt
  | Some v =>
      row <- lift (deserializeAddressRow v) ;;
      if addrType row =? adtImport then
        irow <- lift (deserializeImportedAddress row) ;;
        let row' := with_rawData row (serializeImportedAddress (encryptedPubKey irow) []) in
        wrap_err "failed to delete imported private key"
          (Put bucket k (serializeAddressRow row'))
      else if addrType row =? adtScript then
        srow <- lift (deserializeScriptAddress row) ;;
        let row' := with_rawData row (serializeScriptAddress (encryptedHash srow) []) in
        wrap_err "failed to delete imported script"
          (Put bucket k (serializeAddressRow row'))
      else ret tt
  end.

(** The callback over the scope bucket. *)
Definition strip_scope (scopeBucket : handle) (scopeKey : bytes) (v : option bytes)
  : tx unit :=
  if negb (length scopeKey =? 8)%nat then ret tt
  else
    managerScopeBucket <- NestedReadWriteBucket scopeBucket scopeKey ;;
    wrap_err "failed to delete cointype private key"
      (Delete managerScopeBucket coinTypePrivKeyName) ;;;
    bucket <- NestedReadWriteBucket managerScopeBucket acctBucketName ;;
    ForEach bucket (strip_account bucket) ;;;
    bucket <- NestedReadWriteBucket managerScopeBucket addrBucketName ;;
    ForEach bucket (strip_address bucket).

(** deletePrivateKeys *)
Definition deletePrivateKeys (ns : handle) : tx unit :=
  bucket <- NestedReadWriteBucket ns mainBucketName ;;
  wrap_err "failed to delete master private key parameters"
    (Delete bucket masterPrivKeyName) ;;;
  wrap_err "failed to delete crypto private key"
    (Delete bucket cryptoPrivKeyName) ;;;
  wrap_err "failed to delete crypto script key"
    (Delete bucket cryptoScriptKeyName) ;;;
  wrap_err "failed to delete master HD priv key"
    (Delete bucket masterHDPrivName) ;;;
  scopeBucket <- NestedReadWriteBucket ns scopeBucketName ;;
  ForEach scopeBucket (strip_scope scopeBucket).

(** *** The upgrade from version 4 to version 5 *)

(** createScopedManagerNS *)
Definition createScopedManagerNS (ns : handle) (scope : KeyScope) : tx unit :=
  scopeBucket <- wrap_err "failed to create sync bucket"
                   (CreateBucket ns (scopeToBytes scope)) ;;
  wrap_err "failed to create account bucket"
    (CreateBucket scopeBucket acctBucketName) ;;;
  wrap_err "failed to create address bucket"
    (CreateBucket scopeBucket addrBucketName) ;;;
  wrap_err "failed to create used addresses bucket"
    (CreateBucket scopeBucket usedAddrBucketName) ;;;
  wrap_err "failed to create address index bucket"
    (CreateBucket scopeBucket addrAcctIdxBucketName) ;;;
  wrap_err "failed to create an account name index bucket"
    (CreateBucket scopeBucket acctNameIdxBucketName) ;;;
  wrap_err "failed to create an account id index bucket"
    (CreateBucket scopeBucket acctIDIdxBucketName) ;;;
  wrap_err "failed to create a meta bucket"
    (CreateBucket scopeBucket metaBucketName) ;;;
  ret tt.

(** migrateRecursively; [fuel] bounds the depth of the recursion into
    nested buckets. *)
Fixpoint migrateRecursively (fuel : nat) (src dst : handle) (bucketKey : bytes)
  : tx unit :=
  match fuel with
  | O => fail "recursion bound reached"
  | S fuel' =>
      bucketToMigrate <- NestedReadWriteBucket src bucketKey ;;
      newBucket <- CreateBucketIfNotExists dst bucketKey ;;
      ForEach bucketToMigrate
        (fun k v =>
           nestedBucket <- NestedReadBucket bucketToMigrate k ;;
           match nestedBucket with
           | Some _ => migrateRecursively fuel' bucketToMigrate newBucket k
           | None =>
               Put newBucket k (slice_bytes v) ;;;
               Delete bucketToMigrate k
           end) ;;;
      DeleteNestedBucket src bucketKey
  end.

Fixpoint migrate_each (fuel : nat) (src dst : handle) (keysToMigrate : list bytes)
  : tx unit :=
  match keysToMigrate with
  | [] => ret tt
  | bucketKey :: t =>
      migrateRecursively fuel src dst bucketKey ;;; migrate_each fuel src dst t
  end.

(** KeyScopeBIP0044 is declared in scoped_manager.go, outside the files at
    hand; the specification names the scope (44, 0). *)
Definition KeyScopeBIP0044 : KeyScope := {| Purpose := 44; Coin := 0 |}.

Definition keysToMigrate : list bytes :=
  [acctBucketName; addrBucketName; usedAddrBucketName;
   addrAcctIdxBucketName; acctNameIdxBucketName; acctIDIdxBucketName].

Definition segwit_error : string :=
  "segwit address exists in wallet, can't upgrade from v4 to v5: well, we tried  ¯\_(ツ)_/¯".

Section Upgrade.

(** ScopeAddrMap[KeyScopeBIP0044], declared in scoped_manager.go. *)
Variable scopeSchema : ScopeAddrSchema.

(** upgradeToVersion5 *)
Definition upgradeToVersion5 (fuel : nat) (ns : handle) (pubPassPhrase : bytes)
  : tx unit :=
  addrBucket <- NestedReadBucket ns addrBucketName ;;
  ForEach addrBucket
    (fun k v =>
       row <- lift (deserializeAddressRow (slice_bytes v)) ;;
       if addrType row >? adtScript then fail segwit_error else ret tt) ;;;
  putManagerVersion ns 5 ;;;
  scopeBucket <- wrap_err "failed to create scope bucket"
                   (CreateBucket ns scopeBucketName) ;;
  scopeSchemas <- wrap_err "failed to create scope schema bucket"
                    (CreateBucket ns scopeSchemaBucketName) ;;
  let scopeKey := scopeToBytes KeyScopeBIP0044 in
  let schemaBytes := scopeSchemaToBytes scopeSchema in
  Put scopeSchemas scopeKey schemaBytes ;;;
  createScopedManagerNS scopeBucket KeyScopeBIP0044 ;;;
  bip44Bucket <- NestedReadWriteBucket scopeBucket scopeKey ;;
  mainBucket <- NestedReadWriteBucket ns mainBucketName ;;
  encCoinPrivKeys <- Get mainBucket coinTypePrivKeyName ;;
  encCoinPubKeys <- Get mainBucket coinTypePubKeyName ;;
  Put bip44Bucket coinTypePrivKeyName (slice_bytes encCoinPrivKeys) ;;;
  Put bip44Bucket coinTypePubKeyName (slice_bytes encCoinPubKeys) ;;;
  Delete mainBucket coinTypePrivKeyName ;;;
  Delete mainBucket coinTypePubKeyName ;;;
  metaBucket <- NestedReadWriteBucket ns metaBucketName ;;
  lastAccount <- Get metaBucket lastAccountName ;;
  Delete metaBucket lastAccountName ;;;
  scopedMetaBucket <- NestedReadWriteBucket bip44Bucket metaBucketName ;;
  Put scopedMetaBucket lastAccountName (slice_bytes lastAccount) ;;;
  migrate_each fuel ns bip44Bucket keysToMigrate.

End Upgrade.

(** fetchManagerVersion *)
Definition fetchManagerVersion (ns : handle) : tx Z :=
  mainBucket <- NestedReadBucket ns mainBucketName ;;
  verBytes <- Get mainBucket mgrVersionName ;;
  match verBytes with
  | None => fail "required version number not stored in database"
  | Some v =>
      match slice v 0 4 with
      | Some b => ret (le_value b)
      | None => panic
      end
  end.

(** The namespace bucket of a transaction. *)
Definition ns_root : handle := Some [].

(** *** Example namespaces *)

Definition B (s : string) : bytes := bytes_of_string s.

Definition example_account_row (priv : bytes) : bytes :=
  serializeAccountRow
    {| acctType := accountDefault;
       acct_rawData := serializeDefaultAccountRow (B "xpub-0") priv 3 1 (B "default") |}.

Definition example_chained_row : bytes :=
  serializeAddressRow
    {| addTime := 1500000000; rawData := le_bytes 4 0 ++ le_bytes 4 7;
       account := 0; syncStatus := 0; addrType := adtChain |}.

Definition example_imported_row (priv : bytes) : bytes :=
  serializeAddressRow
    {| addTime := 1500000001; rawData := serializeImportedAddress (B "pubkey") priv;
       account := 2147483647; syncStatus := 0; addrType := adtImport |}.

Definition example_script_row (script : bytes) : bytes :=
  serializeAddressRow
    {| addTime := 1500000002; rawData := serializeScriptAddress (B "hash") script;
       account := 2147483647; syncStatus := 0; addrType := adtScript |}.

(** A version-5 namespace with one scope, one account and three addresses. *)
Definition example_v5 : bucket :=
  bucket_of
    [ (mainBucketName,
       Sub (bucket_of
              [ (mgrVersionName, Val (uint32ToBytes 5));
                (masterPrivKeyName, Val (B "master-priv"));
                (masterPubKeyName, Val (B "master-pub"));
                (cryptoPrivKeyName, Val (B "crypto-priv"));
                (cryptoPubKeyName, Val (B "crypto-pub"));
                (cryptoScriptKeyName, Val (B "crypto-script"));
                (masterHDPrivName, Val (B "hd-priv"));
                (masterHDPubName, Val (B "hd-pub"));
                (watchingOnlyName, Val [x00]) ]));
      (syncBucketName, Sub []);
      (scopeSchemaBucketName,
       Sub (bucket_of [ (scopeToBytes KeyScopeBIP0044, Val [x00; x00]) ]));
      (scopeBucketName,
       Sub (bucket_of
              [ (scopeToBytes KeyScopeBIP0044,
                 Sub (bucket_of
                        [ (coinTypePrivKeyName, Val (B "ct-priv"));
                          (coinTypePubKeyName, Val (B "ct-pub"));
                          (acctBucketName,
                           Sub (bucket_of
                                  [ (uint32ToBytes 0,
                                     Val (example_account_row (B "xpriv-0"))) ]));
                          (addrBucketName,
                           Sub (bucket_of
                                  [ (B "addr-hash-1", Val example_chained_row);
                                    (B "addr-hash-2",
                                     Val (example_imported_row (B "privkey")));
                                    (B "addr-hash-3",
                                     Val (example_script_row (B "script"))) ]));
                          (usedAddrBucketName, Sub []);
                          (addrAcctIdxBucketName,
                           Sub (bucket_of
                                  [ (B "addr-hash-1", Val (uint32ToBytes 0));
                                    (uint32ToBytes 0,
                                     Sub (bucket_of [ (B "addr-hash-1", Val [x00]) ])) ]));
                          (acctNameIdxBucketName, Sub []);
                          (acctIDIdxBucketName, Sub []);
                          (metaBucketName,
                           Sub (bucket_of
                                  [ (lastAccountName, Val (uint32ToBytes 0)) ])) ])) ])) ].

(** A version-4 namespace: the same data before scopes existed. *)
Definition example_v4_with (addr_rows : list (bytes * node)) : bucket :=
  bucket_of
    [ (mainBucketName,
       Sub (bucket_of
              [ (mgrVersionName, Val (uint32ToBytes 4));
                (masterPrivKeyName, Val (B "master-priv"));
                (masterPubKeyName, Val (B "master-pub"));
                (coinTypePrivKeyName, Val (B "ct-priv"));
                (coinTypePubKeyName, Val (B "ct-pub"));
                (watchingOnlyName, Val [x00]) ]));
      (syncBucketName, Sub []);
      (metaBucketName,
       Sub (bucket_of [ (lastAccountName, Val (uint32ToBytes 0)) ]));
      (acctBucketName,
       Sub (bucket_of [ (uint32ToBytes 0, Val (example_account_row (B "xpriv-0"))) ]));
      (addrBucketName, Sub (bucket_of addr_rows));
      (usedAddrBucketName, Sub []);
      (addrAcctIdxBucketName,
       Sub (bucket_of
              [ (B "addr-hash-1", Val (uint32ToBytes 0));
                (uint32ToBytes 0, Sub (bucket_of [ (B "addr-hash-1", Val [x00]) ])) ]));
      (acctNameIdxBucketName,
       Sub (bucket_of [ (B "default", Val (uint32ToBytes 0)) ]));
      (acctIDIdxBucketName,
       Sub (bucket_of [ (uint32ToBytes 0, Val (B "default")) ])) ].

Definition example_v4 : bucket :=
  example_v4_with [ (B "addr-hash-1", Val example_chained_row) ].

(** The same with an address row of type 4, beyond the script type. *)
Definition example_v4_segwit : bucket :=
  example_v4_with
    [ (B "addr-hash-1", Val example_chained_row);
      (B "addr-hash-9",
       Val (serializeAddressRow
              {| addTime := 1500000003; rawData := le_bytes 4 0 ++ le_bytes 4 8;
                 account := 0; syncStatus := 0; addrType := 4 |})) ].

End Waddrmgr.

(* ===================================================================== *)
(** ** waddrmgr: namespaces the operations are meant for, and what the
       specification says of their results *)
(* ===================================================================== *)

Module WaddrmgrSpec.
Import Walletdb Waddrmgr.

(** The entry stored under [k] in the bucket at path [p]. *)
Definition at_path (root : bucket) (p : path) (k : bytes) : option node :=
  match get_bucket root p with
  | Some b => lookup b k
  | None => None
  end.

(** A bucket of the store has no key twice. *)
Fixpoint distinct (l : list bytes) : bool :=
  match l with
  | [] => true
  | k :: t => negb (existsb (bytes_eqb k) t) && distinct t
  end.

Definition not_bucket (b : bucket) (k : bytes) : bool :=
  match lookup b k with
  | Some (Sub _) => false
  | _ => true
  end.

(** bolt's MaxValueSize is (1 << 31) - 2. *)
Definition value_size_ok (v : bytes) : bool := Z.of_nat (length v) <? 2 ^ 31.

Definition map_entries (F : bytes -> node -> node) (b : bucket) : bucket :=
  map (fun e => (fst e, F (fst e) (snd e))) b.

Definition on_value (f : bytes -> bytes) (k : bytes) (n : node) : node :=
  match n with
  | Val v => Val (f v)
  | Sub c => Sub c
  end.

(** *** deletePrivateKeys *)

Definition private_main_keys : list bytes :=
  [masterPrivKeyName; cryptoPrivKeyName; cryptoScriptKeyName; masterHDPrivName].

(** The row deletePrivateKeys leaves for an account row. *)
Definition cleared_account (v : bytes) : bytes :=
  match deserializeAccountRow v with
  | Ok row =>
      if acctType row =? accountDefault then
        match deserializeDefaultAccountRow row with
        | Ok arow =>
            serializeAccountRow
              (with_acct_rawData row
                 (serializeDefaultAccountRow (pubKeyEncrypted arow) []
                    (nextExternalIndex arow) (nextInternalIndex arow) (name arow)))
        | _ => v
        end
      else v
  | _ => v
  end.

(** The row deletePrivateKeys leaves for an address row. *)
Definition cleared_address (v : bytes) : bytes :=
  match deserializeAddressRow v with
  | Ok row =>
      if addrType row =? adtImport then
        match deserializeImportedAddress row with
        | Ok irow =>
            serializeAddressRow
              (with_rawData row (serializeImportedAddress (encryptedPubKey irow) []))
        | _ => v
        end
      else if addrType row =? adtScript then
        match deserializeScriptAddress row with
        | Ok srow =>
            serializeAddressRow
              (with_rawData row (serializeScriptAddress (encryptedHash srow) []))
        | _ => v
        end
      else v
  | _ => v
  end.

Definition cleared_scope (mb : bucket) : bucket :=
  update_at
    (update_at (remove mb coinTypePrivKeyName)
       [acctBucketName] (map_entries (on_value cleared_account)))
    [addrBucketName] (map_entries (on_value cleared_address)).

Definition cleared_scope_entry (k : bytes) (n : node) : node :=
  if (length k =? 8)%nat then
    match n with
    | Sub mb => Sub (cleared_scope mb)
    | Val v => Val v
    end
  else n.

Definition cleared_main (m : bucket) : bucket :=
  remove (remove (remove (remove m masterPrivKeyName) cryptoPrivKeyName)
            cryptoScriptKeyName) masterHDPrivName.

(** The namespace of the watching-only wallet. *)
Definition watching_only (ns : bucket) : bucket :=
  update_at (update_at ns [mainBucketName] cleared_main)
    [scopeBucketName] (map_entries cleared_scope_entry).

(** Rows deletePrivateKeys can rewrite: they deserialise, and rows of the
    types that carry private material deserialise in full. *)
Definition account_entry_ok (e : bytes * node) : bool :=
  match snd e with
  | Sub _ => true
  | Val v =>
      negb (is_nil (fst e)) && value_size_ok v &&
      match deserializeAccountRow v with
      | Ok row =>
          if acctType row =? accountDefault
          then is_Ok (deserializeDefaultAccountRow row) else true
      | _ => false
      end
  end.

Definition address_entry_ok (e : bytes * node) : bool :=
  match snd e with
  | Sub _ => true
  | Val v =>
      negb (is_nil (fst e)) && value_size_ok v &&
      match deserializeAddressRow v with
      | Ok row =>
          if addrType row =? adtImport then is_Ok (deserializeImportedAddress row)
          else if addrType row =? adtScript then is_Ok (deserializeScriptAddress row)
          else true
      | _ => false
      end
  end.

Definition scope_ok (mb : bucket) : bool :=
  not_bucket mb coinTypePrivKeyName &&
  match lookup mb acctBucketName, lookup mb addrBucketName with
  | Some (Sub ab), Some (Sub db) =>
      distinct (keys ab) && forallb account_entry_ok ab &&
      distinct (keys db) && forallb address_entry_ok db
  | _, _ => false
  end.

Definition scope_entry_ok (e : bytes * node) : bool :=
  if (length (fst e) =? 8)%nat then
    match snd e with
    | Sub mb => scope_ok mb
    | Val _ => false
    end
  else true.

(** A version-5 namespace as the address manager creates it: the main and
    scope buckets exist and every scope has its account and address
    buckets. *)
Definition v5_namespace (ns : bucket) : bool :=
  match lookup ns mainBucketName, lookup ns scopeBucketName with
  | Some (Sub m), Some (Sub sb) =>
      forallb (not_bucket m) private_main_keys &&
      distinct (keys sb) && forallb scope_entry_ok sb
  | _, _ => false
  end.

(** What the specification says of a row and the row that replaces it. *)
Definition account_row_cleared (old new : bytes) : Prop :=
  exists row,
    deserializeAccountRow old = Ok row /\
    if acctType row =? accountDefault then
      exists arow row' arow',
        deserializeDefaultAccountRow row = Ok arow /\
        deserializeAccountRow new = Ok row' /\
        deserializeDefaultAccountRow row' = Ok arow' /\
        acctType row' = acctType row /\
        pubKeyEncrypted arow' = pubKeyEncrypted arow /\
        privKeyEncrypted arow' = [] /\
        nextExternalIndex arow' = nextExternalIndex arow /\
        nextInternalIndex arow' = nextInternalIndex arow /\
        name arow' = name arow
    else new = old.

Definition same_address_header (row row' : dbAddressRow) : Prop :=
  addrType row' = addrType row /\ account row' = account row /\
  addTime row' = addTime row /\ syncStatus row' = syncStatus row.

Definition address_row_cleared (old new : bytes) : Prop :=
  exists row,
    deserializeAddressRow old = Ok row /\
    if addrType row =? adtImport then
      exists irow row' irow',
        deserializeImportedAddress row = Ok irow /\
        deserializeAddressRow new = Ok row' /\
        deserializeImportedAddress row' = Ok irow' /\
        same_address_header row row' /\
        encryptedPubKey irow' = encryptedPubKey irow /\
        encryptedPrivKey irow' = []
    else if addrType row =? adtScript then
      exists srow row' srow',
        deserializeScriptAddress row = Ok srow /\
        deserializeAddressRow new = Ok row' /\
        deserializeScriptAddress row' = Ok srow' /\
        same_address_header row row' /\
        encryptedHash srow' = encryptedHash srow /\
        encryptedScript srow' = []
    else new = old.

(** Entries related row by row; nested buckets are left alone. *)
Definition entry_rel (R : bytes -> bytes -> Prop) (o o' : option node) : Prop :=
  match o, o' with
  | None, None => True
  | Some (Val v), Some (Val v') => R v v'
  | Some (Sub c), Some (Sub c') => c = c'
  | _, _ => False
  end.

(** *** upgradeToVersion5 *)

(** A tree of buckets migrateRecursively can move with the given bound on
    its recursion: no key is empty or repeated and nested buckets are
    fewer than [fuel] levels deep. *)
Fixpoint migratable (fuel : nat) (b : bucket) : bool :=
  match fuel with
  | O => false
  | S fuel' =>
      distinct (keys b) &&
      forallb (fun e =>
                 negb (is_nil (fst e)) &&
                 match snd e with
                 | Val _ => true
                 | Sub c => migratable fuel' c
                 end) b
  end.

(** The tree a bucket becomes when its entries are put, one after the
    other and nested buckets first, into a new bucket. *)
Fixpoint rebuilt (fuel : nat) (b : bucket) : bucket :=
  match fuel with
  | O => []
  | S fuel' =>
      fold_left
        (fun acc e =>
           put acc (fst e)
             match snd e with
             | Val v => Val v
             | Sub c => Sub (rebuilt fuel' c)
             end) b []
  end.

(** Keys in bolt's order: each key is below the keys after it. *)
Fixpoint ordered (l : list bytes) : bool :=
  match l with
  | [] => true
  | k :: t =>
      forallb (fun k' => match bytes_compare k k' with Lt => true | _ => false end) t
      && ordered t
  end.

Fixpoint in_key_order (fuel : nat) (b : bucket) : bool :=
  match fuel with
  | O => false
  | S fuel' =>
      ordered (keys b) &&
      forallb (fun e =>
                 match snd e with
                 | Val _ => true
                 | Sub c => in_key_order fuel' c
                 end) b
  end.

(** The bucket of the default scope. *)
Definition bip44 : path := [scopeBucketName; scopeToBytes KeyScopeBIP0044].

(** What a Get at this place hands to a later Put: the value, or the nil
    slice when there is none. *)
Definition value_at (root : bucket) (p : path) (k : bytes) : bytes :=
  match at_path root p k with
  | Some (Val v) => v
  | _ => []
  end.

(** The address type upgradeToVersion5 reads from an entry of the address
    bucket. *)
Definition row_type (e : bytes * node) : result Z :=
  match deserializeAddressRow (slice_bytes (entry_value (snd e))) with
  | Ok row => Ok (addrType row)
  | Err msg => Err msg
  | Panic => Panic
  end.

Definition is_address_row (e : bytes * node) : bool := is_Ok (row_type e).

Definition beyond_script (e : bytes * node) : bool :=
  match row_type e with
  | Ok t => t >? adtScript
  | _ => false
  end.

(** The namespace once the version, the scope buckets, the coin-type keys
    and the last account are in place, before the trees are moved. *)
Definition prepared (schema : ScopeAddrSchema) (ns : bucket) : bucket :=
  let priv := value_at ns [mainBucketName] coinTypePrivKeyName in
  let pub := value_at ns [mainBucketName] coinTypePubKeyName in
  let last := value_at ns [metaBucketName] lastAccountName in
  let r1 := update_at ns [mainBucketName]
              (fun b => put b mgrVersionName (Val (uint32ToBytes 5))) in
  let r2 := update_at r1 []
              (fun b => put (put b scopeBucketName (Sub []))
                          scopeSchemaBucketName (Sub [])) in
  let r3 := update_at r2 [scopeSchemaBucketName]
              (fun b => put b (scopeToBytes KeyScopeBIP0044)
                          (Val (scopeSchemaToBytes schema))) in
  let r4 := update_at r3 [scopeBucketName]
              (fun b => put b (scopeToBytes KeyScopeBIP0044) (Sub [])) in
  let r5 := update_at r4 bip44
              (fun b =>
                 put (put (put (put (put (put (put (put (put b
                   acctBucketName (Sub []))
                   addrBucketName (Sub []))
                   usedAddrBucketName (Sub []))
                   addrAcctIdxBucketName (Sub []))
                   acctNameIdxBucketName (Sub []))
                   acctIDIdxBucketName (Sub []))
                   metaBucketName (Sub []))
                   coinTypePrivKeyName (Val priv))
                   coinTypePubKeyName (Val pub)) in
  let r6 := update_at r5 [mainBucketName]
              (fun b => remove (remove b coinTypePrivKeyName) coinTypePubKeyName) in
  let r7 := update_at r6 [metaBucketName] (fun b => remove b lastAccountName) in
  update_at r7 (bip44 ++ [metaBucketName])
    (fun b => put b lastAccountName (Val last)).

(** The namespace once the tree under [key] has been moved into the
    default scope, where it has become [N]. *)
Definition moved (root : bucket) (key : bytes) (N : bucket) : bucket :=
  update_at (update_at root bip44 (fun b => put b key (Sub N)))
    [] (fun b => remove b key).

(** The tree under a top-level key; the empty tree when there is none. *)
Definition tree_of (root : bucket) (key : bytes) : bucket :=
  match lookup root key with
  | Some (Sub b) => b
  | _ => []
  end.

Fixpoint moved_all (fuel : nat) (root : bucket) (keys : list bytes) : bucket :=
  match keys with
  | [] => root
  | key :: t => moved_all fuel (moved root key (rebuilt fuel (tree_of root key))) t
  end.

Definition tree_ok (fuel : nat) (ns : bucket) (key : bytes) : bool :=
  match lookup ns key with
  | Some (Sub b) => migratable fuel b
  | _ => false
  end.

(** The address bucket exists and each of its entries is an address row. *)
Definition address_rows (ns : bucket) : bool :=
  match lookup ns addrBucketName with
  | Some (Sub ab) => forallb is_address_row ab
  | _ => false
  end.

(** A version-4 namespace as the address manager leaves it: the buckets of
    version 4 exist and the buckets of version 5 do not. *)
Definition v4_namespace (fuel : nat) (ns : bucket) : bool :=
  match lookup ns mainBucketName, lookup ns metaBucketName with
  | Some (Sub m), Some (Sub mt) =>
      not_bucket m mgrVersionName &&
      not_bucket m coinTypePrivKeyName && not_bucket m coinTypePubKeyName &&
      not_bucket mt lastAccountName &&
      match lookup ns scopeBucketName, lookup ns scopeSchemaBucketName with
      | None, None => true
      | _, _ => false
      end &&
      forallb (tree_ok fuel ns) keysToMigrate
  | _, _ => false
  end.

Definition has_segwit (ns : bucket) : bool :=
  match lookup ns addrBucketName with
  | Some (Sub ab) => existsb beyond_script ab
  | _ => false
  end.

(** What Get returns for a key of a bucket: nil for a missing key and for a
    nested bucket. *)
Definition stored (b : bucket) (k : bytes) : option bytes :=
  match lookup b k with
  | Some (Val v) => Some v
  | _ => None
  end.

(** The buckets of a scope that has just been created, in key order. *)
Definition empty_scope : bucket :=
  [ (acctBucketName, Sub []); (acctIDIdxBucketName, Sub []);
    (acctNameIdxBucketName, Sub []); (addrBucketName, Sub []);
    (addrAcctIdxBucketName, Sub []); (metaBucketName, Sub []);
    (usedAddrBucketName, Sub []) ].

(** A namespace with a tree under "src" and an empty bucket "dst". *)
Definition example_tree : bucket :=
  bucket_of
    [ (B "a", Val (B "1"));
      (B "b", Sub (bucket_of [ (B "c", Val (B "2")); (B "d", Sub []) ]));
      (B "e", Val []) ].

Definition example_src_dst : bucket :=
  bucket_of
    [ (B "dst", Sub (bucket_of [ (B "kept", Val (B "0")) ]));
      (B "src", Sub (bucket_of [ (B "tree", Sub example_tree); (B "x", Val (B "9")) ])) ].

End WaddrmgrSpec.

(* ===================================================================== *)
(** ** pkg/waddrmgr/db.go: the fetch and put functions *)
(* ===================================================================== *)

Module WaddrmgrStore.
Import Walletdb Waddrmgr.

(** Sync related key names (sync bucket). *)
Definition syncedToName : bytes := bytes_of_string "syncedto".
Definition startBlockName : bytes := bytes_of_string "startblock".
Definition birthdayName : bytes := bytes_of_string "birthday".

(** nullVal is the null byte used as a flag value in a bucket entry. *)
Definition nullVal : bytes := [x00].

(** stringToBytes; a Go string is its bytes. *)
Definition stringToBytes (s : bytes) : bytes :=
  uint32ToBytes (Z.of_nat (length s)) ++ s.

(** An index expression or a slice expression that may panic. *)
Definition lift_opt {A} (o : option A) : tx A :=
  match o with
  | Some a => ret a
  | None => panic
  end.

(** A parameter that may be nil: [if v != nil { Put(key, v) }]. *)
Definition put_if_given (bucket : handle) (key : bytes) (v : option bytes)
    (str : string) : tx unit :=
  match v with
  | Some value => wrap_err str (Put bucket key value)
  | None => ret tt
  end.

(** scopeSchemaFromBytes *)
Definition scopeSchemaFromBytes (schemaBytes : bytes) : option ScopeAddrSchema :=
  match schemaBytes with
  | a :: b :: _ =>
      Some {| InternalAddrType := Z_of_byte a; ExternalAddrType := Z_of_byte b |}
  | _ => None
  end.

(** fetchScopeAddrSchema; the messages leave out the rendering of the scope. *)
Definition fetchScopeAddrSchema (ns : handle) (scope : KeyScope) : tx ScopeAddrSchema :=
  schemaBucket <- NestedReadBucket ns scopeSchemaBucketName ;;
  match schemaBucket with
  | None => fail "unable to find scope schema bucket"
  | Some _ =>
      schemaBytes <- Get schemaBucket (scopeToBytes scope) ;;
      match schemaBytes with
      | None => fail "unable to find scope"
      | Some b => lift_opt (scopeSchemaFromBytes b)
      end
  end.

(** putScopeAddrTypes *)
Definition putScopeAddrTypes (ns : handle) (scope : KeyScope) (schema : ScopeAddrSchema)
  : tx unit :=
  scopeSchemaBucket <- NestedReadWriteBucket ns scopeSchemaBucketName ;;
  match scopeSchemaBucket with
  | None => fail "unable to find scope schema bucket"
  | Some _ => Put scopeSchemaBucket (scopeToBytes scope) (scopeSchemaToBytes schema)
  end.

(** fetchReadScopeBucket and fetchWriteScopeBucket *)
Definition fetchWriteScopeBucket (ns : handle) (scope : KeyScope) : tx handle :=
  rootScopeBucket <- NestedReadWriteBucket ns scopeBucketName ;;
  scopedBucket <- NestedReadWriteBucket rootScopeBucket (scopeToBytes scope) ;;
  match scopedBucket with
  | None => fail "unable to find scope"
  | Some _ => ret scopedBucket
  end.

Definition fetchReadScopeBucket := fetchWriteScopeBucket.

(** fetchMasterKeyParams: the public parameters and the private ones, nil
    when they are not stored. *)
Definition fetchMasterKeyParams (ns : handle) : tx (bytes * option bytes) :=
  bucket <- NestedReadBucket ns mainBucketName ;;
  val <- Get bucket masterPubKeyName ;;
  match val with
  | None => fail "required master public key parameters not stored in database"
  | Some pubParams =>
      val <- Get bucket masterPrivKeyName ;;
      ret (pubParams, val)
  end.

(** putMasterKeyParams *)
Definition putMasterKeyParams (ns : handle) (pubParams privParams : option bytes)
  : tx unit :=
  bucket <- NestedReadWriteBucket ns mainBucketName ;;
  put_if_given bucket masterPrivKeyName privParams
    "failed to store master private key parameters" ;;;
  put_if_given bucket masterPubKeyName pubParams
    "failed to store master public key parameters".

(** fetchCoinTypeKeys: the public key, then the private key. *)
Definition fetchCoinTypeKeys (ns : handle) (scope : KeyScope) : tx (bytes * bytes) :=
  scopedBucket <- fetchReadScopeBucket ns scope ;;
  coinTypePubKeyEnc <- Get scopedBucket coinTypePubKeyName ;;
  match coinTypePubKeyEnc with
  | None => fail "required encrypted cointype public key not stored in database"
  | Some pub =>
      coinTypePrivKeyEnc <- Get scopedBucket coinTypePrivKeyName ;;
      match coinTypePrivKeyEnc with
      | None => fail "required encrypted cointype private key not stored in database"
      | Some priv => ret (pub, priv)
      end
  end.

(** putCoinTypeKeys *)
Definition putCoinTypeKeys (ns : handle) (scope : KeyScope)
    (coinTypePubKeyEnc coinTypePrivKeyEnc : option bytes) : tx unit :=
  scopedBucket <- fetchWriteScopeBucket ns scope ;;
  put_if_given scopedBucket coinTypePubKeyName coinTypePubKeyEnc
    "failed to store encrypted cointype public key" ;;;
  put_if_given scopedBucket coinTypePrivKeyName coinTypePrivKeyEnc
    "failed to store encrypted cointype private key".

(** putMasterHDKeys *)
Definition putMasterHDKeys (ns : handle) (masterHDPrivEnc masterHDPubEnc : option bytes)
  : tx unit :=
  bucket <- NestedReadWriteBucket ns mainBucketName ;;
  put_if_given bucket masterHDPrivName masterHDPrivEnc
    "failed to store encrypted master HD private key" ;;;
  put_if_given bucket masterHDPubName masterHDPubEnc
    "failed to store encrypted master HD public key".

(** fetchMasterHDKeys: the private key, then the public key. *)
Definition fetchMasterHDKeys (ns : handle) : tx (option bytes * option bytes) :=
  bucket <- NestedReadBucket ns mainBucketName ;;
  priv <- Get bucket masterHDPrivName ;;
  pub <- Get bucket masterHDPubName ;;
  ret (priv, pub).

(** fetchCryptoKeys: the public, the private and the script key. *)
Definition fetchCryptoKeys (ns : handle) : tx (bytes * option bytes * option bytes) :=
  bucket <- NestedReadBucket ns mainBucketName ;;
  val <- Get bucket cryptoPubKeyName ;;
  match val with
  | None => fail "required encrypted crypto public not stored in database"
  | Some pubKey =>
      privKey <- Get bucket cryptoPrivKeyName ;;
      scriptKey <- Get bucket cryptoScriptKeyName ;;
      ret (pubKey, privKey, scriptKey)
  end.

(** putCryptoKeys *)
Definition putCryptoKeys (ns : handle)
    (pubKeyEncrypted privKeyEncrypted scriptKeyEncrypted : option bytes) : tx unit :=
  bucket <- NestedReadWriteBucket ns mainBucketName ;;
  put_if_given bucket cryptoPubKeyName pubKeyEncrypted
    "failed to store encrypted crypto public key" ;;;
  put_if_given bucket cryptoPrivKeyName privKeyEncrypted
    "failed to store encrypted crypto private key" ;;;
  put_if_given bucket cryptoScriptKeyName scriptKeyEncrypted
    "failed to store encrypted crypto script key".

(** fetchWatchingOnly *)
Definition fetchWatchingOnly (ns : handle) : tx bool :=
  bucket <- NestedReadBucket ns mainBucketName ;;
  buf <- Get bucket watchingOnlyName ;;
  match slice_bytes buf with
  | [b] => ret (negb (Z_of_byte b =? 0))
  | _ => fail "malformed watching-only flag stored in database"
  end.

(** putWatchingOnly *)
Definition putWatchingOnly (ns : handle) (watchingOnly : bool) : tx unit :=
  bucket <- NestedReadWriteBucket ns mainBucketName ;;
  wrap_err "failed to store watching only flag"
    (Put bucket watchingOnlyName [if watchingOnly then x01 else x00]).

(** *** Accounts *)

(** binary.LittleEndian.Uint32(b): the first four bytes; a panic when
    there are fewer. *)
Definition Uint32_of (b : bytes) : option Z :=
  if (4 <=? length b)%nat then Some (le_value (firstn 4 b)) else None.

(** fetchLastAccount *)
Definition fetchLastAccount (ns : handle) (scope : KeyScope) : tx Z :=
  scopedBucket <- fetchReadScopeBucket ns scope ;;
  metaBucket <- NestedReadBucket scopedBucket metaBucketName ;;
  val <- Get metaBucket lastAccountName ;;
  if (length (slice_bytes val) =? 4)%nat then ret (le_value (slice_bytes val))
  else fail "malformed metadata stored in database".

(** putLastAccount *)
Definition putLastAccount (ns : handle) (scope : KeyScope) (account : Z) : tx unit :=
  scopedBucket <- fetchWriteScopeBucket ns scope ;;
  bucket <- NestedReadWriteBucket scopedBucket metaBucketName ;;
  wrap_err "failed to update metadata"
    (Put bucket lastAccountName (uint32ToBytes account)).

(** fetchAccountName *)
Definition fetchAccountName (ns : handle) (scope : KeyScope) (account : Z) : tx bytes :=
  scopedBucket <- fetchReadScopeBucket ns scope ;;
  acctIDxBucket <- NestedReadBucket scopedBucket acctIDIdxBucketName ;;
  val <- Get acctIDxBucket (uint32ToBytes account) ;;
  match val with
  | None => fail "account not found"
  | Some val =>
      nameLen <- lift_opt (Uint32_at val 0) ;;
      lift_opt (slice val 4 (u32 (4 + nameLen)))
  end.

(** fetchAccountByName *)
Definition fetchAccountByName (ns : handle) (scope : KeyScope) (name : bytes) : tx Z :=
  scopedBucket <- fetchReadScopeBucket ns scope ;;
  idxBucket <- NestedReadBucket scopedBucket acctNameIdxBucketName ;;
  val <- Get idxBucket (stringToBytes name) ;;
  match val with
  | None => fail "account name not found"
  | Some val => lift_opt (Uint32_of val)
  end.

(** fetchAccountInfo; the default account row is the only kind of row. *)
Definition fetchAccountInfo (ns : handle) (scope : KeyScope) (account : Z)
  : tx dbDefaultAccountRow :=
  scopedBucket <- fetchReadScopeBucket ns scope ;;
  acctBucket <- NestedReadBucket scopedBucket acctBucketName ;;
  serializedRow <- Get acctBucket (uint32ToBytes account) ;;
  match serializedRow with
  | None => fail "account not found"
  | Some serializedRow =>
      row <- lift (deserializeAccountRow serializedRow) ;;
      if acctType row =? accountDefault then lift (deserializeDefaultAccountRow row)
      else fail "unsupported account type"
  end.

(** deleteAccountNameIndex *)
Definition deleteAccountNameIndex (ns : handle) (scope : KeyScope) (name : bytes)
  : tx unit :=
  scopedBucket <- fetchWriteScopeBucket ns scope ;;
  bucket <- NestedReadWriteBucket scopedBucket acctNameIdxBucketName ;;
  wrap_err "failed to delete account name index key"
    (Delete bucket (stringToBytes name)).

(** deleteAccountIDIndex *)
Definition deleteAccountIDIndex (ns : handle) (scope : KeyScope) (account : Z)
  : tx unit :=
  scopedBucket <- fetchWriteScopeBucket ns scope ;;
  bucket <- NestedReadWriteBucket scopedBucket acctIDIdxBucketName ;;
  wrap_err "failed to delete account id index key"
    (Delete bucket (uint32ToBytes account)).

(** putAccountNameIndex *)
Definition putAccountNameIndex (ns : handle) (scope : KeyScope) (account : Z)
    (name : bytes) : tx unit :=
  scopedBucket <- fetchWriteScopeBucket ns scope ;;
  bucket <- NestedReadWriteBucket scopedBucket acctNameIdxBucketName ;;
  wrap_err "failed to store account name index key"
    (Put bucket (stringToBytes name) (uint32ToBytes account)).

(** putAccountIDIndex *)
Definition putAccountIDIndex (ns : handle) (scope : KeyScope) (account : Z)
    (name : bytes) : tx unit :=
  scopedBucket <- fetchWriteScopeBucket ns scope ;;
  bucket <- NestedReadWriteBucket scopedBucket acctIDIdxBucketName ;;
  wrap_err "failed to store account id index key"
    (Put bucket (uint32ToBytes account) (stringToBytes name)).

(** [if e = m; E.Chk(e) { return nil }]: an error of [m] ends the function
    with no error. *)
Inductive early (A : Type) : Type :=
| Go_on (a : A)
| Return_nil.
Arguments Go_on {A} a.
Arguments Return_nil {A}.

Definition or_return_nil {A} (m : tx A) : tx (early A) :=
  fun root =>
    match m root with
    | (Ok a, root') => (Ok (Go_on a), root')
    | (Err _, root') => (Ok Return_nil, root')
    | (Panic, root') => (Panic, root')
    end.

(** putAddrAccountIndex *)
Definition putAddrAccountIndex (ns : handle) (scope : KeyScope) (account : Z)
    (addrHash : bytes) : tx unit :=
  scopedBucket <- fetchWriteScopeBucket ns scope ;;
  bucket <- NestedReadWriteBucket scopedBucket addrAcctIdxBucketName ;;
  r <- or_return_nil (Put bucket addrHash (uint32ToBytes account)) ;;
  match r with
  | Return_nil => ret tt
  | Go_on _ =>
      bucket <- CreateBucketIfNotExists bucket (uint32ToBytes account) ;;
      wrap_err "failed to store address account index key"
        (Put bucket addrHash nullVal)
  end.

(** putAccountRow *)
Definition putAccountRow (ns : handle) (scope : KeyScope) (account : Z)
    (row : dbAccountRow) : tx unit :=
  scopedBucket <- fetchWriteScopeBucket ns scope ;;
  bucket <- NestedReadWriteBucket scopedBucket acctBucketName ;;
  wrap_err "failed to store account"
    (Put bucket (uint32ToBytes account) (serializeAccountRow row)).

(** putAccountInfo *)
Definition putAccountInfo (ns : handle) (scope : KeyScope) (account : Z)
    (encryptedPubKey encryptedPrivKey : bytes)
    (nextExternalIndex nextInternalIndex : Z) (name : bytes) : tx unit :=
  let rawData :=
    serializeDefaultAccountRow encryptedPubKey encryptedPrivKey nextExternalIndex
      nextInternalIndex name in
  let acctRow := {| acctType := accountDefault; acct_rawData := rawData |} in
  putAccountRow ns scope account acctRow ;;;
  putAccountIDIndex ns scope account name ;;;
  putAccountNameIndex ns scope account name.

(** *** Addresses *)

Record dbChainAddressRow : Type := {
  car_row : dbAddressRow;
  branch : Z;                (* uint32 *)
  index : Z                  (* uint32 *)
}.

(** deserializeChainedAddress *)
Definition deserializeChainedAddress (row : dbAddressRow) : result dbChainAddressRow :=
  if negb (length (rawData row) =? 8)%nat then
    Err "malformed serialized chained address"
  else
    Ok {| car_row := row;
          branch := le_value (firstn 4 (rawData row));
          index := le_value (firstn 4 (skipn 4 (rawData row))) |}.

(** serializeChainedAddress *)
Definition serializeChainedAddress (branch index : Z) : bytes :=
  le_bytes 4 branch ++ le_bytes 4 index.

(** The address rows fetchAddressByHash returns as an interface{}. *)
Inductive address_info : Type :=
| Chained (r : dbChainAddressRow)
| Imported (r : dbImportedAddressRow)
| Script (r : dbScriptAddressRow).

Definition map_result {A B} (f : A -> B) (r : result A) : result B :=
  match r with
  | Ok a => Ok (f a)
  | Err e => Err e
  | Panic => Panic
  end.

(** fetchAddressByHash *)
Definition fetchAddressByHash (ns : handle) (scope : KeyScope) (addrHash : bytes)
  : tx address_info :=
  scopedBucket <- fetchReadScopeBucket ns scope ;;
  bucket <- NestedReadBucket scopedBucket addrBucketName ;;
  serializedRow <- Get bucket addrHash ;;
  match serializedRow with
  | None => fail "address not found"
  | Some serializedRow =>
      row <- lift (deserializeAddressRow serializedRow) ;;
      if addrType row =? adtChain then
        lift (map_result Chained (deserializeChainedAddress row))
      else if addrType row =? adtImport then
        lift (map_result Imported (deserializeImportedAddress row))
      else if addrType row =? adtScript then
        lift (map_result Script (deserializeScriptAddress row))
      else fail "unsupported address type"
  end.

Section Hashed.

(** sha256.Sum256 *)
Variable Sum256 : bytes -> bytes.

(** InternalBranch is declared in scoped_manager.go, and time.Now().Unix()
    is the clock. *)
Variable InternalBranch : Z.

(** fetchAddressUsed; the scope bucket not found counts as not used. *)
Definition fetchAddressUsed (ns : handle) (scope : KeyScope) (addressID : bytes)
  : tx bool :=
  fun root =>
    match fetchReadScopeBucket ns scope root with
    | (Ok scopedBucket, root') =>
        (bucket <- NestedReadBucket scopedBucket usedAddrBucketName ;;
         val <- Get bucket (Sum256 addressID) ;;
         ret (match val with Some _ => true | None => false end)) root'
    | (Err _, root') => (Ok false, root')
    | (Panic, root') => (Panic, root')
    end.

(** markAddressUsed *)
Definition markAddressUsed (ns : handle) (scope : KeyScope) (addressID : bytes)
  : tx unit :=
  scopedBucket <- fetchWriteScopeBucket ns scope ;;
  bucket <- NestedReadWriteBucket scopedBucket usedAddrBucketName ;;
  val <- Get bucket (Sum256 addressID) ;;
  match val with
  | Some _ => ret tt
  | None =>
      wrap_err "failed to mark address used" (Put bucket (Sum256 addressID) [x00])
  end.

(** fetchAddress *)
Definition fetchAddress (ns : handle) (scope : KeyScope) (addressID : bytes)
  : tx address_info :=
  fetchAddressByHash ns scope (Sum256 addressID).

(** putAddress *)
Definition putAddress (ns : handle) (scope : KeyScope) (addressID : bytes)
    (row : dbAddressRow) : tx unit :=
  scopedBucket <- fetchWriteScopeBucket ns scope ;;
  bucket <- NestedReadWriteBucket scopedBucket addrBucketName ;;
  wrap_err "failed to store address"
    (Put bucket (Sum256 addressID) (serializeAddressRow row)) ;;;
  putAddrAccountIndex ns scope (account row) (Sum256 addressID).

(** putChainedAddress; [now] is uint64(time.Now().Unix()). *)
Definition putChainedAddress (now : Z) (ns : handle) (scope : KeyScope)
    (addressID : bytes) (account : Z) (status : Z) (branch index : Z) (addrType : Z)
  : tx unit :=
  scopedBucket <- fetchWriteScopeBucket ns scope ;;
  let addrRow := {| addTime := now;
                    rawData := serializeChainedAddress branch index;
                    account := account;
                    syncStatus := status;
                    addrType := addrType |} in
  putAddress ns scope addressID addrRow ;;;
  let accountID := uint32ToBytes account in
  bucket <- NestedReadWriteBucket scopedBucket acctBucketName ;;
  serializedAccount <- Get bucket accountID ;;
  row <- lift (deserializeAccountRow (slice_bytes serializedAccount)) ;;
  arow <- lift (deserializeDefaultAccountRow row) ;;
  let nextExternalIndex :=
    if branch =? InternalBranch then nextExternalIndex arow else u32 (index + 1) in
  let nextInternalIndex :=
    if branch =? InternalBranch then u32 (index + 1) else nextInternalIndex arow in
  let row' :=
    with_acct_rawData row
      (serializeDefaultAccountRow (pubKeyEncrypted arow) (privKeyEncrypted arow)
         nextExternalIndex nextInternalIndex (name arow)) in
  wrap_err "failed to update next index for address"
    (Put bucket accountID (serializeAccountRow row')).

(** putImportedAddress *)
Definition putImportedAddress (now : Z) (ns : handle) (scope : KeyScope)
    (addressID : bytes) (account : Z) (status : Z)
    (encryptedPubKey encryptedPrivKey : bytes) : tx unit :=
  putAddress ns scope addressID
    {| addTime := now;
       rawData := serializeImportedAddress encryptedPubKey encryptedPrivKey;
       account := account; syncStatus := status; addrType := adtImport |}.

(** putScriptAddress *)
Definition putScriptAddress (now : Z) (ns : handle) (scope : KeyScope)
    (addressID : bytes) (account : Z) (status : Z)
    (encryptedHash encryptedScript : bytes) : tx unit :=
  putAddress ns scope addressID
    {| addTime := now;
       rawData := serializeScriptAddress encryptedHash encryptedScript;
       account := account; syncStatus := status; addrType := adtScript |}.

(** existsAddress *)
Definition existsAddress (ns : handle) (scope : KeyScope) (addressID : bytes)
  : tx bool :=
  fun root =>
    match fetchReadScopeBucket ns scope root with
    | (Ok scopedBucket, root') =>
        (bucket <- NestedReadBucket scopedBucket addrBucketName ;;
         val <- Get bucket (Sum256 addressID) ;;
         ret (match val with Some _ => true | None => false end)) root'
    | (Err _, root') => (Ok false, root')
    | (Panic, root') => (Panic, root')
    end.

(** fetchAddrAccount *)
Definition fetchAddrAccount (ns : handle) (scope : KeyScope) (addressID : bytes)
  : tx Z :=
  scopedBucket <- fetchReadScopeBucket ns scope ;;
  bucket <- NestedReadBucket scopedBucket addrAcctIdxBucketName ;;
  val <- Get bucket (Sum256 addressID) ;;
  match val with
  | None => fail "address not found"
  | Some val => lift_opt (Uint32_of val)
  end.

End Hashed.

(** *** The sync bucket *)

(** BlockStamp; the hash is a [32]byte array, and a time.Time stands as
    the seconds its Unix() returns. *)
Record BlockStamp : Type := {
  Height : Z;                (* int32 *)
  Hash : bytes;
  Timestamp : Z
}.

(** The Unix() of the zero time.Time. *)
Definition zero_time : Z := -62135596800.

(** fetchBlockHash *)
Definition fetchBlockHash (ns : handle) (height : Z) : tx bytes :=
  bucket <- NestedReadBucket ns syncBucketName ;;
  hashBytes <- Get bucket (be_bytes 4 (u32 height)) ;;
  if negb (length (slice_bytes hashBytes) =? 32)%nat then
    fail "failed to fetch block hash for height"
  else ret (slice_bytes hashBytes).

(** fetchSyncedTo *)
Definition fetchSyncedTo (ns : handle) : tx BlockStamp :=
  bucket <- NestedReadBucket ns syncBucketName ;;
  buf <- Get bucket syncedToName ;;
  let buf := slice_bytes buf in
  if (length buf <? 36)%nat then
    fail "malformed sync information stored in database"
  else
    ret {| Height := i32 (le_value (firstn 4 buf));
           Hash := firstn 32 (skipn 4 buf);
           Timestamp := if (length buf =? 40)%nat
                        then le_value (firstn 4 (skipn 36 buf))
                        else zero_time |}.

(** putSyncedTo *)
Definition putSyncedTo (ns : handle) (bs : BlockStamp) : tx unit :=
  bucket <- NestedReadWriteBucket ns syncBucketName ;;
  let errStr := "failed to store sync information"%string in
  (if Height bs >? 0 then
     wrap_err errStr (fetchBlockHash ns (i32 (Height bs - 1))) ;;; ret tt
   else ret tt) ;;;
  wrap_err errStr (Put bucket (be_bytes 4 (u32 (Height bs))) (Hash bs)) ;;;
  let buf := le_bytes 4 (u32 (Height bs)) ++ Hash bs
               ++ le_bytes 4 (u32 (Timestamp bs)) in
  wrap_err errStr (Put bucket syncedToName buf).

(** fetchStartBlock *)
Definition fetchStartBlock (ns : handle) : tx BlockStamp :=
  bucket <- NestedReadBucket ns syncBucketName ;;
  buf <- Get bucket startBlockName ;;
  let buf := slice_bytes buf in
  if negb (length buf =? 36)%nat then
    fail "malformed start block stored in database"
  else
    ret {| Height := i32 (le_value (firstn 4 buf));
           Hash := firstn 32 (skipn 4 buf);
           Timestamp := zero_time |}.

(** putStartBlock *)
Definition putStartBlock (ns : handle) (bs : BlockStamp) : tx unit :=
  bucket <- NestedReadWriteBucket ns syncBucketName ;;
  wrap_err "failed to store start block"
    (Put bucket startBlockName (le_bytes 4 (u32 (Height bs)) ++ Hash bs)).

(** fetchBirthday: the seconds of the time.Unix it returns, an int64. *)
Definition i64 (z : Z) : Z := (z + 2 ^ 63) mod 2 ^ 64 - 2 ^ 63.

Definition fetchBirthday (ns : handle) : tx Z :=
  bucket <- NestedReadBucket ns syncBucketName ;;
  buf <- Get bucket birthdayName ;;
  let buf := slice_bytes buf in
  if negb (length buf =? 8)%nat then fail "malformed birthday stored in database"
  else ret (i64 (be_value buf)).

(** putBirthday; [t] is t.Unix(). *)
Definition putBirthday (ns : handle) (t : Z) : tx unit :=
  bucket <- NestedReadWriteBucket ns syncBucketName ;;
  wrap_err "failed to store birthday" (Put bucket birthdayName (be_bytes 8 (u64 t))).

(** managerExists; [ns] is nil when the namespace bucket is missing. *)
Definition managerExists (ns : handle) : tx bool :=
  match ns with
  | None => ret false
  | Some _ =>
      mainBucket <- NestedReadBucket ns mainBucketName ;;
      ret (match mainBucket with Some _ => true | None => false end)
  end.

(** *** createManagerNS *)

Section Create.

(** DefaultAccountNum is declared in manager.go; [now] is
    uint64(time.Now().Unix()). *)
Variable DefaultAccountNum : Z.
Variable now : Z.

Fixpoint create_scopes (ns scopeBucket scopeSchemas : handle)
    (defaultScopes : list (KeyScope * ScopeAddrSchema)) : tx unit :=
  match defaultScopes with
  | [] => ret tt
  | (scope, scopeSchema) :: t =>
      Put scopeSchemas (scopeToBytes scope) (scopeSchemaToBytes scopeSchema) ;;;
      createScopedManagerNS scopeBucket scope ;;;
      putLastAccount ns scope DefaultAccountNum ;;;
      create_scopes ns scopeBucket scopeSchemas t
  end.

(** createManagerNS; the default scopes in the order the range over the
    map visits them. *)
Definition createManagerNS (ns : handle)
    (defaultScopes : list (KeyScope * ScopeAddrSchema)) : tx unit :=
  mainBucket <- wrap_err "failed to create main bucket"
                  (CreateBucket ns mainBucketName) ;;
  wrap_err "failed to create sync bucket" (CreateBucket ns syncBucketName) ;;;
  scopeBucket <- wrap_err "failed to create scope bucket"
                   (CreateBucket ns scopeBucketName) ;;
  scopeSchemas <- wrap_err "failed to create scope schema bucket"
                    (CreateBucket ns scopeSchemaBucketName) ;;
  create_scopes ns scopeBucket scopeSchemas defaultScopes ;;;
  putManagerVersion ns 5 ;;;
  wrap_err "failed to store database creation time"
    (Put mainBucket mgrCreateDateName (le_bytes 8 now)).

End Create.

End WaddrmgrStore.


(* ===================================================================== *)
(** * Part II: lemmas and theorems *)
(* ===================================================================== *)

(** ** Slices and byte conversions *)

Lemma upd_length {A} (i : nat) (x : A) l : length (upd i x l) = length l.
Proof.
  revert i; induction l as [|h t IH]; intros [|i]; simpl; auto.
Qed.

Lemma nth_error_upd_same {A} (i : nat) (x : A) l :
  (i < length l)%nat -> nth_error (upd i x l) i = Some x.
Proof.
  revert i; induction l as [|h t IH]; intros [|i] H; simpl in *; try lia; auto.
  apply IH; lia.
Qed.

Lemma nth_error_upd_other {A} (i j : nat) (x : A) l :
  i <> j -> nth_error (upd i x l) j = nth_error l j.
Proof.
  revert i j; induction l as [|h t IH]; intros [|i] [|j] H; simpl; auto.
  congruence.
Qed.

Lemma Z_of_byte_range b : 0 <= Z_of_byte b < 256.
Proof.
  unfold Z_of_byte. pose proof (Byte.to_N_bounded b). lia.
Qed.

Lemma byte_of_Z_of_byte b : byte_of_Z (Z_of_byte b) = b.
Proof.
  unfold byte_of_Z. rewrite Z.mod_small by apply Z_of_byte_range.
  unfold Z_of_byte. rewrite N2Z.id, Byte.of_to_N. reflexivity.
Qed.

Lemma Z_of_byte_of_Z z : Z_of_byte (byte_of_Z z) = z mod 256.
Proof.
  unfold byte_of_Z, Z_of_byte.
  assert (Hr : 0 <= z mod 256 < 256) by (apply Z.mod_pos_bound; lia).
  destruct (Byte.of_N (Z.to_N (z mod 256))) as [b|] eqn:E.
  - apply Byte.to_of_N in E. rewrite E. rewrite Z2N.id; lia.
  - apply Byte.of_N_None_iff in E. lia.
Qed.

Lemma Z_of_byte_inj a b : Z_of_byte a = Z_of_byte b -> a = b.
Proof.
  intros H. rewrite <- (byte_of_Z_of_byte a), <- (byte_of_Z_of_byte b), H.
  reflexivity.
Qed.

Lemma le_bytes_length n z : length (le_bytes n z) = n.
Proof. revert z; induction n; intros; simpl; auto. Qed.


Lemma le_value_bytes n z : le_value (le_bytes n z) = z mod 256 ^ Z.of_nat n.
Proof.
  revert z; induction n as [|n IH]; intros z.
  - simpl. rewrite Z.mod_1_r. reflexivity.
  - cbn [le_bytes le_value]. rewrite Z_of_byte_of_Z, IH.
    rewrite Nat2Z.inj_succ, Z.pow_succ_r by lia.
    rewrite Z.rem_mul_r by lia. lia.
Qed.


Lemma le_value_range bs : 0 <= le_value bs < 256 ^ Z.of_nat (length bs).
Proof.
  induction bs as [|b t IH].
  - simpl. lia.
  - cbn [le_value length]. rewrite Nat2Z.inj_succ, Z.pow_succ_r by lia.
    pose proof (Z_of_byte_range b). lia.
Qed.

Lemma le_bytes_value bs : le_bytes (length bs) (le_value bs) = bs.
Proof.
  induction bs as [|b t IH]; [reflexivity|].
  pose proof (Z_of_byte_range b) as Hb.
  cbn [length le_bytes le_value]. f_equal.
  - apply Z_of_byte_inj. rewrite Z_of_byte_of_Z.
    replace (Z_of_byte b + 256 * le_value t) with (Z_of_byte b + le_value t * 256) by lia.
    rewrite Z.mod_add by lia. apply Z.mod_small; lia.
  - replace ((Z_of_byte b + 256 * le_value t) / 256) with (le_value t); [exact IH|].
    replace (Z_of_byte b + 256 * le_value t) with (le_value t * 256 + Z_of_byte b) by lia.
    rewrite Z.div_add_l by lia. rewrite Z.div_small by lia. lia.
Qed.

Lemma be_bytes_value bs : be_bytes (length bs) (be_value bs) = bs.
Proof.
  unfold be_bytes, be_value. rewrite <- (length_rev bs).
  rewrite le_bytes_value. apply rev_involutive.
Qed.

Lemma bytes_eqb_eq a b : bytes_eqb a b = true <-> a = b.
Proof.
  revert b; induction a as [|x a IH]; intros [|y b]; simpl; split; intros H;
    try congruence; try discriminate.
  - apply andb_true_iff in H. destruct H as [H1 H2].
    apply Byte.byte_dec_bl in H1. apply IH in H2. congruence.
  - inversion H; subst. apply andb_true_iff. split.
    + apply Byte.byte_dec_lb. reflexivity.
    + apply IH. reflexivity.
Qed.

Lemma bytes_eqb_refl a : bytes_eqb a a = true.
Proof. apply bytes_eqb_eq. reflexivity. Qed.

Lemma bytes_eqb_neq a b : bytes_eqb a b = false <-> a <> b.
Proof.
  split; intros H.
  - intros E. apply bytes_eqb_eq in E. congruence.
  - destruct (bytes_eqb a b) eqn:E; [|reflexivity].
    apply bytes_eqb_eq in E. contradiction.
Qed.

(* ===================================================================== *)
(** ** The fee estimator *)
(* ===================================================================== *)

Module FeeFacts.
Import Fee.

(** *** EstimateFee: when it fails *)

Lemma indices25_length : length indices25 = 25%nat.
Proof. reflexivity. Qed.

Lemma indices25_nth k : (k < 25)%nat -> nth_error indices25 k = Some k.
Proof.
  intros H. unfold indices25.
  rewrite nth_error_nth' with (d := 0%nat) by (rewrite length_seq; lia).
  rewrite seq_nth by lia. reflexivity.
Qed.

#[local] Opaque indices25.

Lemma bins25_length b : length (bins25 b) = 25%nat.
Proof. unfold bins25. rewrite length_map. apply indices25_length. Qed.

Lemma estimates_length ef c : estimates ef = Some c -> length c = 25%nat.
Proof.
  unfold estimates. destruct (newEstimateFeeSet ef); [|discriminate].
  intros [= <-]. rewrite length_map. apply indices25_length.
Qed.

Lemma rates_of_valid h ps :
  forallb (fun p => (p <? length h)%nat) ps = true ->
  exists rs, rates_of h ps = Some rs /\ length rs = length ps.
Proof.
  induction ps as [|p t IH]; simpl; intros H.
  - exists []. auto.
  - apply andb_true_iff in H. destruct H as [Hp Ht].
    destruct (IH Ht) as [rs [E L]]. rewrite E.
    apply Nat.ltb_lt in Hp. unfold deref.
    destruct (nth_error h p) as [o|] eqn:En.
    + exists (ot_feeRate o :: rs). simpl. auto.
    + apply nth_error_None in En. lia.
Qed.

Lemma estimates_defined ef :
  bins_valid ef = true -> exists c, estimates ef = Some c.
Proof.
  intros H. unfold estimates, newEstimateFeeSet.
  destruct (rates_of_valid _ _ H) as [rs [E _]]. rewrite E. eauto.
Qed.

(** Claim C8.  For an estimator whose bins hold valid pointers and whose
    cache is consistent, and for a uint32 [numBlocks], EstimateFee returns
    an error exactly when [numBlocks] is 0, or exceeds 25, or fewer than
    minRegisteredBlocks blocks have been registered; in every other case it
    returns an estimate and no error. *)
Theorem EstimateFee_error_iff (ef : FeeEstimator) (numBlocks : Z) :
  0 <= numBlocks < 2 ^ 32 ->
  bins_valid ef = true ->
  cache_consistent ef ->
  (is_Err (fst (EstimateFee ef numBlocks)) = true <->
     (numBlocks = 0 \/ numBlocks > 25 \/
      numBlocksRegistered ef < minRegisteredBlocks ef))
  /\ (~ (numBlocks = 0 \/ numBlocks > 25 \/
         numBlocksRegistered ef < minRegisteredBlocks ef) ->
      exists v, fst (EstimateFee ef numBlocks) = Ok v).
Proof.
  intros Hn Hb Hc.
  assert (Hgood : ~ (numBlocks = 0 \/ numBlocks > 25 \/
                     numBlocksRegistered ef < minRegisteredBlocks ef) ->
                  exists v, fst (EstimateFee ef numBlocks) = Ok v).
  { intros Hno. unfold EstimateFee, estimateFeeDepth.
    destruct (numBlocksRegistered ef <? minRegisteredBlocks ef) eqn:E1;
      [apply Z.ltb_lt in E1; exfalso; apply Hno; auto|].
    destruct (numBlocks =? 0) eqn:E2;
      [apply Z.eqb_eq in E2; exfalso; apply Hno; auto|].
    destruct (numBlocks >? 25) eqn:E3;
      [apply Z.gtb_lt in E3; exfalso; apply Hno; right; left; lia|].
    apply Z.eqb_neq in E2.
    assert (numBlocks <= 25) by (rewrite Z.gtb_ltb in E3; apply Z.ltb_ge in E3; lia).
    assert (Hc' : exists c, match cached ef with Some c => Some c | None => estimates ef end
                            = Some c /\ length c = 25%nat).
    { unfold cache_consistent in Hc. destruct (cached ef) as [c|].
      - exists c. split; auto. eapply estimates_length; eauto.
      - destruct (estimates_defined _ Hb) as [c Ec]. exists c. split; auto.
        eapply estimates_length; eauto. }
    destruct Hc' as [c [Ec Lc]]. rewrite Ec.
    destruct (nth_error c (Z.to_nat (numBlocks - 1))) as [r|] eqn:En.
    - eexists. reflexivity.
    - apply nth_error_None in En. lia. }
  split; [|exact Hgood].
  split.
  - intros He.
    destruct (Z.eq_dec numBlocks 0) as [|N0]; auto.
    destruct (Z_gt_dec numBlocks 25) as [|N25]; auto.
    destruct (Z_lt_dec (numBlocksRegistered ef) (minRegisteredBlocks ef)) as [|Nr]; auto.
    destruct Hgood as [v Hv]; [intuition lia|].
    rewrite Hv in He. discriminate.
  - intros Hbad. unfold EstimateFee, estimateFeeDepth.
    destruct (numBlocksRegistered ef <? minRegisteredBlocks ef) eqn:E1; [reflexivity|].
    apply Z.ltb_ge in E1.
    destruct (numBlocks =? 0) eqn:E2; [reflexivity|].
    apply Z.eqb_neq in E2.
    destruct (numBlocks >? 25) eqn:E3; [reflexivity|].
    rewrite Z.gtb_ltb in E3. apply Z.ltb_ge in E3. lia.
Qed.

Lemma EstimateFee_error_iff_witness :
  (is_Err (fst (EstimateFee three_tx_state 26)) = true <->
     (26 = 0 \/ 26 > 25 \/
      numBlocksRegistered three_tx_state < minRegisteredBlocks three_tx_state))
  /\ (~ (26 = 0 \/ 26 > 25 \/
         numBlocksRegistered three_tx_state < minRegisteredBlocks three_tx_state) ->
      exists v, fst (EstimateFee three_tx_state 26) = Ok v).
Proof.
  apply (EstimateFee_error_iff three_tx_state 26).
  - lia.
  - reflexivity.
  - exact I.
Defined.

(** The estimator's own operations keep the cache consistent. *)
Lemma NewFeeEstimator_wf mr mb :
  bins_valid (NewFeeEstimator mr mb) = true /\ cache_consistent (NewFeeEstimator mr mb).
Proof. split; [reflexivity | exact I]. Qed.

Lemma EstimateFee_keeps_wf ef n :
  bins_valid ef = true -> cache_consistent ef ->
  bins_valid (snd (EstimateFee ef n)) = true /\ cache_consistent (snd (EstimateFee ef n)).
Proof.
  intros Hb Hc. unfold EstimateFee.
  destruct (_ <? _); [auto|]. destruct (_ =? _); [auto|]. destruct (_ >? _); [auto|].
  assert (Hc' : exists c, match cached ef with Some c => Some c | None => estimates ef end
                          = Some c /\ estimates ef = Some c).
  { unfold cache_consistent in Hc. destruct (cached ef) as [c|]; eauto.
    destruct (estimates_defined _ Hb) as [c Ec]. eauto. }
  destruct Hc' as [c [Ec Es]]. rewrite Ec.
  destruct (nth_error c _); simpl; (split; [exact Hb | exact Es]).
Qed.

(** *** The order of float64 values *)





Lemma key_le_total a b : ~ key_le a b -> key_le b a.
Proof.
  destruct a as [[a1 a2] a3], b as [[b1 b2] b3]. unfold key_le. lia.
Qed.






(** *** sort.Sort *)

Lemma sort_insert_perm {A} (less : A -> A -> bool) x l :
  Permutation (x :: l) (sort_insert less x l).
Proof.
  induction l as [|y t IH]; simpl; auto.
  destruct (less x y); auto.
  eapply perm_trans; [apply perm_swap|]. apply perm_skip. exact IH.
Qed.

Lemma sort_Sort_perm {A} (less : A -> A -> bool) l :
  Permutation l (sort_Sort less l).
Proof.
  induction l as [|x t IH]; simpl; auto.
  eapply perm_trans; [apply perm_skip; exact IH|]. apply sort_insert_perm.
Qed.

Lemma sort_Sort_length {A} (less : A -> A -> bool) l :
  length (sort_Sort less l) = length l.
Proof. symmetry. apply Permutation_length, sort_Sort_perm. Qed.




(** *** estimateFee: the index it reads *)

Lemma fold_left_add_acc l a : fold_left Z.add l a = a + fold_left Z.add l 0.
Proof.
  revert a; induction l as [|x t IH]; intros a; simpl; [lia|].
  rewrite (IH (a + x)), (IH x). lia.
Qed.

Lemma firstn_S_nth {A} (l : list A) k d :
  (k < length l)%nat -> firstn (S k) l = firstn k l ++ [nth k l d].
Proof.
  revert k; induction l as [|x t IH]; intros [|k] H; simpl in *; try lia; auto.
  f_equal. apply IH. lia.
Qed.

Lemma sum_bins_S b k :
  (k < length b)%nat -> sum_bins b (S k) = sum_bins b k + nth k b 0.
Proof.
  intros H. unfold sum_bins. rewrite (firstn_S_nth b k 0 H).
  rewrite fold_left_app. simpl. reflexivity.
Qed.

Lemma sum_bins_nonneg b k : Forall (fun x => 0 <= x) b -> 0 <= sum_bins b k.
Proof.
  unfold sum_bins. revert k. induction b as [|x t IH]; intros k H.
  - rewrite firstn_nil. simpl. lia.
  - destruct k; simpl; [lia|]. inversion H; subst.
    rewrite fold_left_add_acc. specialize (IH k H3). lia.
Qed.

Lemma nth_nonneg (b : list Z) k : Forall (fun x => 0 <= x) b -> 0 <= nth k b 0.
Proof.
  intros H. destruct (Nat.lt_ge_cases k (length b)) as [L|L].
  - rewrite Forall_forall in H. apply H. apply nth_In. exact L.
  - rewrite nth_overflow by exact L. lia.
Qed.

Lemma estimateFee_index set c :
  1 <= c <= 25 ->
  set_feeRate set <> [] ->
  Forall (fun x => 0 <= x) (set_bin set) ->
  estimateFee set c =
    nth (Z.to_nat (fee_index (set_bin set) (Z.of_nat (length (set_feeRate set))) c))
        (set_feeRate set) bits_zero.
Proof.
  intros Hc Hne Hb. unfold estimateFee, fee_index, estimateFeeDepth.
  destruct (c <=? 0) eqn:E1; [apply Z.leb_le in E1; lia|].
  destruct (c >? 25) eqn:E2; [apply Z.gtb_lt in E2; lia|].
  destruct (length (set_feeRate set) =? 0)%nat eqn:E3.
  { apply Nat.eqb_eq in E3. destruct (set_feeRate set); [congruence|discriminate]. }
  set (lo := sum_bins (set_bin set) (Z.to_nat (c - 1))).
  set (x := nth (Z.to_nat (c - 1)) (set_bin set) 0).
  assert (Hlo : 0 <= lo) by (apply sum_bins_nonneg; assumption).
  assert (Hx : 0 <= x) by (apply nth_nonneg; assumption).
  assert (Hmax : (if lo + x - 1 <? lo then lo else lo + x - 1) = Z.max lo (lo + x - 1)).
  { destruct (lo + x - 1 <? lo) eqn:E; [apply Z.ltb_lt in E|apply Z.ltb_ge in E]; lia. }
  rewrite Hmax.
  rewrite Z.quot_div_nonneg by lia.
  set (q := (lo + Z.max lo (lo + x - 1)) / 2).
  destruct (q >=? Z.of_nat (length (set_feeRate set))) eqn:E4.
  - rewrite Z.geb_le in E4. rewrite Z.min_r by lia. reflexivity.
  - rewrite Z.geb_leb in E4. apply Z.leb_gt in E4. rewrite Z.min_l by lia. reflexivity.
Qed.



Lemma set_bin_nonneg ef set :
  newEstimateFeeSet ef = Some set -> Forall (fun x => 0 <= x) (set_bin set).
Proof.
  unfold newEstimateFeeSet. destruct (rates_of _ _); [|discriminate].
  intros [= <-]. simpl. apply Forall_forall. intros x Hx.
  apply in_map_iff in Hx. destruct Hx as [b [<- _]].
  unfold u32. apply Z.mod_pos_bound. lia.
Qed.


Lemma set_feeRate_binned ef set :
  newEstimateFeeSet ef = Some set -> set_feeRate set = binned_rates ef.
Proof.
  unfold newEstimateFeeSet, binned_rates. destruct (rates_of _ _); [|discriminate].
  intros [= <-]. reflexivity.
Qed.

(** What a successful EstimateFee returns. *)
Lemma EstimateFee_ok ef d :
  bins_valid ef = true -> cache_consistent ef ->
  1 <= d <= 25 -> minRegisteredBlocks ef <= numBlocksRegistered ef ->
  exists set, newEstimateFeeSet ef = Some set /\
              fst (EstimateFee ef d) = Ok (ToBtcPerKb (estimateFee set d)).
Proof.
  intros Hb Hc Hd Hn.
  destruct (estimates_defined _ Hb) as [c Ec].
  assert (Ec' : match cached ef with Some c => Some c | None => estimates ef end = Some c).
  { unfold cache_consistent in Hc. destruct (cached ef); congruence. }
  unfold estimates in Ec. destruct (newEstimateFeeSet ef) as [set|] eqn:Es; [|discriminate].
  exists set. split; [reflexivity|].
  unfold EstimateFee, estimateFeeDepth.
  destruct (numBlocksRegistered ef <? minRegisteredBlocks ef) eqn:E1;
    [apply Z.ltb_lt in E1; lia|].
  destruct (d =? 0) eqn:E2; [apply Z.eqb_eq in E2; lia|].
  destruct (d >? 25) eqn:E3; [apply Z.gtb_lt in E3; lia|].
  rewrite Ec'. injection Ec as <-.
  rewrite nth_error_map, indices25_nth by lia.
  simpl. do 3 f_equal. lia.
Qed.

(** *** EstimateFee: the value it returns *)

Lemma sum_map_lengths (l : list (list ptr)) k :
  Forall (fun b : list ptr => Z.of_nat (length b) < 2 ^ 32) l ->
  sum_bins (map (fun b => u32 (Z.of_nat (length b))) l) k =
  Z.of_nat (length (concat (firstn k l))).
Proof.
  unfold sum_bins. revert k. induction l as [|b t IH]; intros k H.
  - rewrite !firstn_nil. reflexivity.
  - destruct k; [reflexivity|]. inversion H; subst. simpl.
    rewrite fold_left_add_acc, IH by assumption.
    rewrite length_app. unfold u32. rewrite Z.mod_small by lia. lia.
Qed.

Lemma nth_map_lengths (l : list (list ptr)) k :
  Forall (fun b : list ptr => Z.of_nat (length b) < 2 ^ 32) l ->
  (k < length l)%nat ->
  nth k (map (fun b => u32 (Z.of_nat (length b))) l) 0 =
  Z.of_nat (length (concat (firstn (S k) l))) - Z.of_nat (length (concat (firstn k l))).
Proof.
  intros H Hk.
  rewrite <- !sum_map_lengths by assumption.
  rewrite sum_bins_S by (rewrite length_map; assumption). lia.
Qed.

Lemma binned_rates_length ef :
  bins_valid ef = true ->
  Z.of_nat (length (binned_rates ef)) = binned_upto ef 25.
Proof.
  intros H. unfold binned_rates, binned_upto.
  destruct (rates_of_valid _ _ H) as [rs [E L]]. rewrite E.
  rewrite sort_Sort_length, L.
  rewrite firstn_all2 by (rewrite bins25_length; lia). reflexivity.
Qed.

Lemma binned_upto_mono ef j k : (j <= k)%nat -> binned_upto ef j <= binned_upto ef k.
Proof.
  intros H. unfold binned_upto. apply inj_le. revert j k H.
  induction (bins25 (bin ef)) as [|b t IH]; intros [|j] [|k] H; simpl;
    rewrite ?length_app; try lia.
  specialize (IH j k). lia.
Qed.

Lemma ToBtcPerKb_scale r :
  SFeqb (f64 r) (f64 bits_minus_one) = false ->
  ToBtcPerKb r =
    SFmul f64_prec f64_emax (SFmul f64_prec f64_emax (f64 r) bytePerKb) duoPerSatoshi.
Proof. intros H. unfold ToBtcPerKb. rewrite H. reflexivity. Qed.

(** Claim C7, as the code has it.  For a well-formed estimator with enough
    registered blocks and a depth in 1..25, EstimateFee succeeds and returns
    ToBtcPerKb of a per-byte rate chosen among the binned rates sorted in
    descending order.  With lo and hi the cumulative bin counts before and
    after the bin of that depth:
    - when that bin is not empty the rate is the one at the median position
      (lo + hi - 1) / 2 of the range [lo, hi);
    - when it is empty the position is lo, clamped to the last index;
    - when no transaction is binned at all the rate is 0.
    ToBtcPerKb multiplies by 1000 and then by 1e-8, except that the rate -1
    is returned as -1. *)
Theorem EstimateFee_median (ef : FeeEstimator) (depth : Z) :
  bins_valid ef = true -> cache_consistent ef -> bins_small ef ->
  1 <= depth <= 25 -> minRegisteredBlocks ef <= numBlocksRegistered ef ->
  let rates := binned_rates ef in
  let lo := binned_upto ef (Z.to_nat (depth - 1)) in
  let hi := binned_upto ef (Z.to_nat depth) in
  (lo < hi ->
   exists r, nth_error rates (Z.to_nat (median_pos lo hi)) = Some r /\
             fst (EstimateFee ef depth) = Ok (ToBtcPerKb r))
  /\ (rates <> [] ->
      fst (EstimateFee ef depth) =
        Ok (ToBtcPerKb
              (nth (Z.to_nat (Z.min (median_pos lo (Z.max (lo + 1) hi))
                                    (Z.of_nat (length rates) - 1)))
                   rates bits_zero)))
  /\ (rates = [] -> fst (EstimateFee ef depth) = Ok (ToBtcPerKb bits_zero))
  /\ (forall r, SFeqb (f64 r) (f64 bits_minus_one) = false ->
        ToBtcPerKb r =
          SFmul f64_prec f64_emax
            (SFmul f64_prec f64_emax (f64 r) bytePerKb) duoPerSatoshi)
  /\ ToBtcPerKb bits_minus_one = f64 bits_minus_one.
Proof.
  intros Hb Hc Hs Hd Hn rates lo hi.
  destruct (EstimateFee_ok ef depth Hb Hc Hd Hn) as [set [Es Ev]].
  pose proof (set_bin_nonneg _ _ Es) as Hnn.
  pose proof (set_feeRate_binned _ _ Es) as Hr. fold rates in Hr.
  assert (Hbin : set_bin set = map (fun b => u32 (Z.of_nat (length b))) (bins25 (bin ef))).
  { unfold newEstimateFeeSet in Es. destruct (rates_of _ _); [|discriminate].
    injection Es as <-. reflexivity. }
  assert (Hlo : sum_bins (set_bin set) (Z.to_nat (depth - 1)) = lo).
  { rewrite Hbin. apply sum_map_lengths. exact Hs. }
  assert (Hx : nth (Z.to_nat (depth - 1)) (set_bin set) 0 = hi - lo).
  { rewrite Hbin, nth_map_lengths by (try exact Hs; rewrite bins25_length; lia).
    unfold hi, lo, binned_upto. replace (S (Z.to_nat (depth - 1))) with (Z.to_nat depth) by lia.
    reflexivity. }
  assert (Hidx : rates <> [] ->
                 estimateFee set depth =
                 nth (Z.to_nat (Z.min (median_pos lo (Z.max (lo + 1) hi))
                                      (Z.of_nat (length rates) - 1))) rates bits_zero).
  { intros Hne. rewrite estimateFee_index by (try assumption; rewrite Hr; assumption).
    unfold fee_index. rewrite Hlo, Hx, Hr. unfold median_pos.
    do 3 f_equal. f_equal. lia. }
  assert (Hlen : Z.of_nat (length rates) = binned_upto ef 25)
    by (apply binned_rates_length; assumption).
  assert (Hhi : hi <= binned_upto ef 25) by (apply binned_upto_mono; lia).
  assert (Hlo0 : 0 <= lo) by (unfold lo, binned_upto; lia).
  split; [|split; [|split; [|split]]].
  - intros Hlt.
    assert (Hne : rates <> []).
    { intros E. rewrite E in Hlen. simpl in Hlen. lia. }
    rewrite Ev, (Hidx Hne).
    assert (Hm : Z.min (median_pos lo (Z.max (lo + 1) hi)) (Z.of_nat (length rates) - 1)
                 = median_pos lo hi).
    { rewrite Z.max_r by lia. apply Z.min_l. unfold median_pos.
      assert ((lo + (hi - 1)) / 2 <= hi - 1) by (apply Z.div_le_upper_bound; lia). lia. }
    rewrite Hm.
    assert (Hrange : (Z.to_nat (median_pos lo hi) < length rates)%nat).
    { unfold median_pos.
      assert ((lo + (hi - 1)) / 2 <= hi - 1) by (apply Z.div_le_upper_bound; lia).
      assert (0 <= (lo + (hi - 1)) / 2) by (apply Z.div_pos; lia). lia. }
    exists (nth (Z.to_nat (median_pos lo hi)) rates bits_zero). split; [|reflexivity].
    apply nth_error_nth'. exact Hrange.
  - intros Hne. rewrite Ev, (Hidx Hne). reflexivity.
  - intros He. rewrite Ev. do 2 f_equal.
    unfold estimateFee, estimateFeeDepth.
    destruct (depth <=? 0) eqn:E1; [apply Z.leb_le in E1; lia|].
    destruct (depth >? 25) eqn:E2; [apply Z.gtb_lt in E2; lia|].
    rewrite Hr, He. reflexivity.
  - exact ToBtcPerKb_scale.
  - reflexivity.
Qed.

Lemma EstimateFee_median_witness :
  exists r,
    nth_error (binned_rates three_tx_state)
      (Z.to_nat (median_pos (binned_upto three_tx_state (Z.to_nat (2 - 1)))
                            (binned_upto three_tx_state (Z.to_nat 2)))) = Some r /\
    fst (EstimateFee three_tx_state 2) = Ok (ToBtcPerKb r).
Proof.
  assert (Hb : bins_valid three_tx_state = true) by reflexivity.
  assert (Hc : cache_consistent three_tx_state) by exact I.
  assert (Hs : bins_small three_tx_state).
  { unfold bins_small. apply Forall_forall. intros b Hin.
    vm_compute in Hin.
    repeat (destruct Hin as [<-|Hin]; [vm_compute; reflexivity|]). destruct Hin. }
  assert (Hd : 1 <= 2 <= 25) by lia.
  assert (Hn : minRegisteredBlocks three_tx_state <= numBlocksRegistered three_tx_state)
    by (vm_compute; discriminate).
  destruct (EstimateFee_median three_tx_state 2 Hb Hc Hs Hd Hn) as [H _].
  apply H. vm_compute. reflexivity.
Defined.

(** With no transaction binned, EstimateFee succeeds and returns 0 although
    there is no rate at any position: three empty blocks registered with a
    new estimator. *)
Lemma EstimateFee_without_transactions :
  fst (EstimateFee after_three_empty_blocks 1) = Ok (S754_zero false) /\
  binned_rates after_three_empty_blocks = [] /\
  ~ returns_scaled_median after_three_empty_blocks 1.
Proof.
  split; [vm_compute; reflexivity|]. split; [vm_compute; reflexivity|].
  intros H. destruct (H (S754_zero false)) as [r [Hr _]]; [vm_compute; reflexivity|].
  vm_compute in Hr. discriminate.
Qed.

(** *** EstimateFee over increasing depths *)




(** *** RegisterBlock: the two counters *)

Lemma register_outcome ef b rnd ef' :
  RegisterBlock ef b rnd = (Done, ef') ->
  numBlocksRegistered ef' = u32 (numBlocksRegistered ef + 1) /\
  lastKnownHeight ef' = blk_height b /\
  (negb (blk_height b =? i32 (lastKnownHeight ef + 1))
     && negb (lastKnownHeight ef =? UnminedHeight) = false).
Proof.
  unfold RegisterBlock.
  destruct (negb (blk_height b =? i32 (lastKnownHeight ef + 1))
            && negb (lastKnownHeight ef =? UnminedHeight)) eqn:G.
  - discriminate.
  - destruct (register_txs _ _ _ _) as [s|o s].
    + destruct (maxRollback ef =? 0);
        [|destruct (u32 (Z.of_nat (length (dropped ef))) =? maxRollback ef)];
        intros H; inversion H; subst; simpl; auto.
    + intros H; inversion H; subst; simpl; auto.
Qed.

(** Claim C4, as the code has it.  Every RegisterBlock that returns without
    error increments num_blocks_registered by one (in uint32 arithmetic) and
    sets last_known_height to the block's height; that height is
    last_known_height + 1 (in int32 arithmetic) unless last_known_height
    still held the UnminedHeight sentinel, which is the case at the very
    first registration and is the only case in which another height is
    accepted. *)
Theorem RegisterBlock_counters (ef : FeeEstimator) (b : block) (rnd : list Z)
    (ef' : FeeEstimator) :
  RegisterBlock ef b rnd = (Done, ef') ->
  numBlocksRegistered ef' = u32 (numBlocksRegistered ef + 1) /\
  lastKnownHeight ef' = blk_height b /\
  (lastKnownHeight ef <> UnminedHeight ->
   blk_height b = i32 (lastKnownHeight ef + 1) /\
   lastKnownHeight ef' = i32 (lastKnownHeight ef + 1)) /\
  (0 <= numBlocksRegistered ef < 2 ^ 32 - 1 ->
   numBlocksRegistered ef' = numBlocksRegistered ef + 1) /\
  (lastKnownHeight ef <> UnminedHeight ->
   - 2 ^ 31 <= lastKnownHeight ef < 2 ^ 31 - 1 ->
   lastKnownHeight ef' = lastKnownHeight ef + 1).
Proof.
  intros H. apply register_outcome in H. destruct H as [Hn [Hh G]].
  assert (Hreq : lastKnownHeight ef <> UnminedHeight ->
                 blk_height b = i32 (lastKnownHeight ef + 1)).
  { intros Hne. apply andb_false_iff in G. destruct G as [G|G].
    - apply negb_false_iff in G. apply Z.eqb_eq in G. exact G.
    - apply negb_false_iff in G. apply Z.eqb_eq in G. contradiction. }
  repeat split; auto.
  - rewrite Hh. auto.
  - intros Hr. rewrite Hn. unfold u32. apply Z.mod_small. lia.
  - intros Hne Hr. rewrite Hh, (Hreq Hne). unfold i32.
    rewrite Z.mod_small by lia. lia.
Qed.

Lemma RegisterBlock_counters_witness :
  RegisterBlock three_tx_state (empty_block 13) [] =
    (Done, snd (RegisterBlock three_tx_state (empty_block 13) []))
  /\ numBlocksRegistered (snd (RegisterBlock three_tx_state (empty_block 13) [])) = 4
  /\ lastKnownHeight (snd (RegisterBlock three_tx_state (empty_block 13) [])) = 13.
Proof.
  assert (E : RegisterBlock three_tx_state (empty_block 13) [] =
              (Done, snd (RegisterBlock three_tx_state (empty_block 13) [])))
    by reflexivity.
  split; [exact E|].
  destruct (RegisterBlock_counters _ _ _ _ E) as [_ [Hh [_ [Hn _]]]].
  split.
  - apply Hn. simpl. lia.
  - exact Hh.
Defined.

(** The first registration takes any height: a new estimator accepts a
    block at height 5, and last_known_height goes from the sentinel to 5. *)
Lemma RegisterBlock_first_registration_jump :
  let ef := NewFeeEstimator 2 3 in
  let r := RegisterBlock ef (empty_block 5) [] in
  fst r = Done /\
  lastKnownHeight (snd r) = 5 /\
  lastKnownHeight ef = 2147483647 /\
  lastKnownHeight (snd r) <> lastKnownHeight ef + 1 /\
  lastKnownHeight (snd r) <> i32 (lastKnownHeight ef + 1).
Proof.
  cbv zeta. repeat split; vm_compute; congruence.
Qed.

End FeeFacts.

(* ===================================================================== *)
(** ** Save and RestoreFeeEstimator *)
(* ===================================================================== *)

Module FeeSaveFacts.
Import Fee FeeFacts.

(** *** Encodings reduce their argument to the width written *)








(** *** Reading back what was written *)









(** *** References to transactions *)





(** *** The index map of Save *)









(** *** The order on hashes *)








(** *** sort.Sort on observedTxSet *)







(** *** The observed transactions of a savable estimator *)













(** *** Save on a savable estimator *)








(** *** Save on the restored estimator *)













End FeeSaveFacts.

(* ===================================================================== *)
(** ** Voting pool: validation of encrypted series keys *)
(* ===================================================================== *)

Module VotingPoolFacts.
Import VotingPool.

(** Claim C9.  Whenever the two encrypted key lists differ in length,
    validate_and_decrypt fails with PrivatePublicMismatch, and the trace of
    decryptor invocations is empty: the decryptor has not been invoked on
    any key. *)
Theorem validate_and_decrypt_length_mismatch
    (decryptor : CryptoKeyType -> bytes -> option bytes) (neuter : bytes -> bytes)
    (enc_pubs enc_privs : list bytes) :
  length enc_pubs <> length enc_privs ->
  validate_and_decrypt decryptor neuter enc_pubs enc_privs
  = (inl ErrKeysPrivatePublicMismatch, []).
Proof.
  intros H. unfold validate_and_decrypt.
  destruct (length enc_pubs =? length enc_privs)%nat eqn:E.
  - apply Nat.eqb_eq in E. contradiction.
  - reflexivity.
Qed.

Lemma validate_and_decrypt_length_mismatch_witness :
  validate_and_decrypt (fun _ enc => Some enc) (fun k => k)
    [bytes_of_string "xpub"] []
  = (inl ErrKeysPrivatePublicMismatch, []).
Proof.
  apply validate_and_decrypt_length_mismatch. simpl. discriminate.
Defined.

(** With lists of equal length the decryptor is invoked, first on the first
    public key. *)
Lemma validate_and_decrypt_invokes decryptor neuter p ps q qs :
  length ps = length qs ->
  exists r t,
    validate_and_decrypt decryptor neuter (p :: ps) (q :: qs)
    = (r, (CKTPublic, p) :: t).
Proof.
  intros H. unfold validate_and_decrypt. simpl length. rewrite H, Nat.eqb_refl.
  cbn [negb combine decrypt_pairs]. unfold bind at 1, decrypt at 1.
  destruct (match decryptor CKTPublic p with
            | Some pub => _
            | None => ret (inl ErrCrypto)
            end) as [r t].
  exists r, t. reflexivity.
Qed.

End VotingPoolFacts.

(* ===================================================================== *)
(** ** The block header store *)
(* ===================================================================== *)

Module HeaderFSFacts.
Import HeaderFS.

(** *** Records in the flat file *)

Lemma concat_length_stride (hs : list bytes) :
  Forall (fun h => length h = stride) hs ->
  length (concat hs) = (length hs * stride)%nat.
Proof.
  induction 1 as [|h t Hh Ht IH]; [reflexivity|].
  simpl. rewrite length_app, IH, Hh. reflexivity.
Qed.

Lemma skipn_concat_stride (hs : list bytes) k :
  Forall (fun h => length h = stride) hs ->
  skipn (k * stride) (concat hs) = concat (skipn k hs).
Proof.
  intros H. revert k. induction H as [|h t Hh Ht IH]; intros k.
  - rewrite !skipn_nil. reflexivity.
  - destruct k as [|k]; [reflexivity|].
    replace (S k * stride)%nat with (k * stride + length h)%nat by (rewrite Hh; lia).
    change (concat (h :: t)) with (h ++ concat t).
    rewrite <- skipn_skipn.
    rewrite skipn_app, skipn_all, Nat.sub_diag. cbn [skipn app].
    apply IH.
Qed.

Lemma firstn_concat_stride (hs : list bytes) k :
  Forall (fun h => length h = stride) hs ->
  firstn (k * stride) (concat hs) = concat (firstn k hs).
Proof.
  intros H. revert k. induction H as [|h t Hh Ht IH]; intros k.
  - rewrite !firstn_nil. reflexivity.
  - destruct k as [|k]; [reflexivity|].
    replace (S k * stride)%nat with (length h + k * stride)%nat by (rewrite Hh; lia).
    change (concat (h :: t)) with (h ++ concat t).
    rewrite firstn_app_2, IH. reflexivity.
Qed.

Lemma records_concat (hs : list bytes) rest :
  Forall (fun h => length h = stride) hs ->
  records (length hs) (concat hs ++ rest) = hs.
Proof.
  induction 1 as [|h t Hh Ht IH]; [reflexivity|].
  cbn [length records concat]. rewrite <- app_assoc.
  rewrite <- Hh at 1. rewrite firstn_app, Nat.sub_diag, firstn_all, firstn_O, app_nil_r.
  rewrite <- Hh. rewrite skipn_app, skipn_all, Nat.sub_diag. cbn [skipn app].
  rewrite IH. reflexivity.
Qed.

Lemma write_headers_file header_hash st k hdrs :
  file (write_headers header_hash st (with_heights k hdrs)) = file st ++ concat hdrs.
Proof.
  revert st k. induction hdrs as [|h t IH]; intros st k; simpl.
  - rewrite app_nil_r. reflexivity.
  - rewrite IH. simpl. rewrite <- app_assoc. reflexivity.
Qed.

Lemma stored_chain_file header_hash genesis hdrs :
  file (stored_chain header_hash genesis hdrs) = concat hdrs.
Proof. unfold stored_chain. rewrite write_headers_file. reflexivity. Qed.

(** *** fetch_ancestor_range *)

(** Claim C5, as the model has it.  For a stored chain of records with tip
    at stop_height and every count >= 0, fetch_ancestor_range returns the
    records of the heights start_height..stop_height, where start_height is
    stop_height - count + 1 clamped to a minimum of 1; these are
    min(count, stop_height) records, hence exactly count records when
    count <= stop_height. *)
Theorem fetch_ancestor_range_chain
    (header_hash : bytes -> Hash) (genesis_hash : Hash)
    (hdrs : list bytes) (stop_hash : Hash) (count : Z) :
  Forall (fun h => length h = stride) hdrs ->
  0 <= count ->
  let st := stored_chain header_hash genesis_hash hdrs in
  let stop_height := Z.of_nat (length hdrs) in
  let start_height := Z.max 1 (stop_height - count + 1) in
  let recs := skipn (Z.to_nat (start_height - 1)) hdrs in
  fetch_ancestor_range st stop_height stop_hash count = Ok (recs, start_height) /\
  Z.of_nat (length recs) = Z.min count stop_height /\
  (count <= stop_height ->
   Z.of_nat (length recs) = count /\ start_height = stop_height - count + 1).
Proof.
  intros Hs Hc st stop_height start_height recs.
  assert (Hlen : Z.of_nat (length recs) = Z.min count stop_height).
  { unfold recs. rewrite length_skipn. unfold start_height, stop_height. lia. }
  split; [|split; [exact Hlen|]].
  - unfold fetch_ancestor_range. fold stop_height. fold start_height.
    unfold st. rewrite stored_chain_file.
    rewrite concat_length_stride by exact Hs.
    replace (stop_height * Z.of_nat stride <=? Z.of_nat (length hdrs * stride)) with true
      by (symmetry; apply Z.leb_le; unfold stop_height; lia).
    rewrite skipn_concat_stride by exact Hs. fold recs.
    replace (Z.to_nat (stop_height - start_height + 1)) with (length recs) by lia.
    rewrite <- (app_nil_r (concat recs)).
    rewrite records_concat; [reflexivity|].
    unfold recs. apply Forall_forall. intros h Hh.
    rewrite Forall_forall in Hs. apply Hs.
    rewrite <- (firstn_skipn (Z.to_nat (start_height - 1)) hdrs).
    apply in_or_app. right. exact Hh.
  - intros Hle. split; [lia|]. unfold start_height. lia.
Qed.

Lemma toy_chain_stride n : Forall (fun h => length h = stride) (toy_chain n).
Proof.
  unfold toy_chain. rewrite Forall_map. apply Forall_forall. intros i _.
  reflexivity.
Qed.

Lemma fetch_ancestor_range_chain_witness :
  fetch_ancestor_range (stored_chain toy_hash (toy_id 0) (toy_chain 4)) 4 (toy_id 4) 2
    = Ok (skipn 2 (toy_chain 4), 3) /\
  Z.of_nat (length (skipn 2 (toy_chain 4))) = 2.
Proof.
  destruct (fetch_ancestor_range_chain toy_hash (toy_id 0) (toy_chain 4) (toy_id 4) 2)
    as [H1 [H2 _]].
  - apply toy_chain_stride.
  - lia.
  - split; [exact H1 | exact H2].
Defined.

(** With three records stored and count = 5 the start height is clamped to
    1 and three records come back, not five. *)
Lemma fetch_ancestor_range_clamped :
  let st := stored_chain toy_hash (toy_id 0) (toy_chain 3) in
  fetch_ancestor_range st 3 (toy_id 3) 5 = Ok (toy_chain 3, 1) /\
  length (toy_chain 3) = 3%nat /\
  ~ returns_count_records st 3 (toy_id 3) 5.
Proof.
  cbv zeta.
  assert (E : fetch_ancestor_range (stored_chain toy_hash (toy_id 0) (toy_chain 3))
                3 (toy_id 3) 5 = Ok (toy_chain 3, 1)) by (vm_compute; reflexivity).
  split; [exact E|]. split; [reflexivity|].
  intros [recs [start [H [Hl _]]]]. rewrite E in H. injection H as <- <-.
  vm_compute in Hl. discriminate.
Qed.

(** *** The index *)

Lemma index_get_delete_other ix h h' :
  h <> h' -> index_get (index_delete ix h') h = index_get ix h.
Proof.
  intros Hne. unfold index_get, index_delete.
  induction ix as [|[k v] t IH]; [reflexivity|].
  simpl. destruct (bytes_eqb k h') eqn:E1; simpl.
  - apply bytes_eqb_eq in E1. subst k.
    destruct (bytes_eqb h' h) eqn:E2; [|exact IH].
    apply bytes_eqb_eq in E2. congruence.
  - destruct (bytes_eqb k h); [reflexivity | exact IH].
Qed.

Lemma index_get_put_same ix h z : index_get (index_put ix h z) h = Some z.
Proof. unfold index_get, index_put. simpl. rewrite bytes_eqb_refl. reflexivity. Qed.

Lemma index_get_put_other ix h h' z :
  h <> h' -> index_get (index_put ix h' z) h = index_get ix h.
Proof.
  intros Hne. unfold index_put.
  change (index_get ((h', z) :: index_delete ix h') h)
    with (match (if bytes_eqb h' h then Some (h', z)
                 else find (fun e => bytes_eqb (fst e) h) (index_delete ix h')) with
          | Some e => Some (snd e) | None => None end).
  destruct (bytes_eqb h' h) eqn:E.
  - apply bytes_eqb_eq in E. congruence.
  - apply (index_get_delete_other ix h h' Hne).
Qed.

Section Chain.
Variable header_hash : bytes -> Hash.
Variable genesis_hash : Hash.

Lemma write_index_other st k hdrs h :
  ~ In h (map header_hash hdrs) ->
  index_get (index (write_headers header_hash st (with_heights k hdrs))) h
  = index_get (index st) h.
Proof.
  revert st k. induction hdrs as [|x t IH]; intros st k Hn; [reflexivity|].
  simpl in *. rewrite IH by tauto. simpl.
  apply index_get_put_other. intros E. apply Hn. left. congruence.
Qed.

Lemma write_index_at st k a x b :
  NoDup (map header_hash (a ++ x :: b)) ->
  index_get (index (write_headers header_hash st (with_heights k (a ++ x :: b))))
            (header_hash x)
  = Some (k + Z.of_nat (length a)).
Proof.
  revert st k. induction a as [|y a IH]; intros st k Hnd.
  - simpl in *. inversion Hnd as [|? ? Hx Hb]; subst.
    rewrite write_index_other by exact Hx. simpl.
    rewrite index_get_put_same. f_equal. lia.
  - simpl in *. inversion Hnd as [|? ? Hy Ha]; subst.
    rewrite IH by exact Ha. f_equal. lia.
Qed.

Lemma write_tip st k hdrs :
  tip (write_headers header_hash st (with_heights k hdrs))
  = match rev hdrs with
    | [] => tip st
    | h :: _ => header_hash h
    end.
Proof.
  revert st k. induction hdrs as [|x t IH]; intros st k; [reflexivity|].
  simpl. rewrite IH. simpl.
  destruct (rev t) as [|h r]; reflexivity.
Qed.

Lemma connected_snoc prev a x :
  connected header_hash prev (a ++ [x]) <->
  connected header_hash prev a /\ length x = stride /\
  prev_block x = tip_of header_hash prev (rev a).
Proof.
  revert prev. induction a as [|y a IH]; intros prev; simpl.
  - tauto.
  - rewrite IH.
    assert (E : tip_of header_hash (header_hash y) (rev a)
                = tip_of header_hash prev (rev a ++ [y])).
    { destruct (rev a) as [|h r]; reflexivity. }
    rewrite E. tauto.
Qed.

Lemma connected_rconnected hdrs :
  connected header_hash genesis_hash hdrs ->
  rconnected header_hash genesis_hash (rev hdrs).
Proof.
  induction hdrs as [|x a IH] using rev_ind; [intros _; exact I|].
  rewrite connected_snoc. intros [Ha [Hx Hp]].
  rewrite rev_app_distr. simpl. auto.
Qed.

Lemma truncate_back_spec k :
  forall rev_hdrs st,
    (k <= length rev_hdrs)%nat ->
    rconnected header_hash genesis_hash rev_hdrs ->
    tip st = tip_of header_hash genesis_hash rev_hdrs ->
    file (truncate_back st rev_hdrs k) = file st /\
    tip (truncate_back st rev_hdrs k)
      = tip_of header_hash genesis_hash (skipn k rev_hdrs) /\
    (forall h, ~ In h (map header_hash (firstn k rev_hdrs)) ->
       index_get (index (truncate_back st rev_hdrs k)) h = index_get (index st) h).
Proof.
  induction k as [|k IH]; intros rev_hdrs st Hk Hc Ht.
  - simpl. destruct rev_hdrs; auto.
  - destruct rev_hdrs as [|x t]; [simpl in Hk; lia|].
    simpl in Hk, Hc, Ht. destruct Hc as [_ [Hp Hc]].
    cbn [truncate_back skipn firstn map].
    destruct (IH t (truncate_index st (prev_block x))) as [Hf [Htip Hix]];
      [lia | exact Hc | exact Hp |].
    split; [rewrite Hf; reflexivity|]. split; [exact Htip|].
    intros h Hn. rewrite Hix by (intros K; apply Hn; right; exact K).
    cbn [truncate_index index]. rewrite Ht.
    apply index_get_delete_other. intros E. apply Hn. left. congruence.
Qed.

(** The tip height the index advertises after the last [length back]
    headers have been truncated from it. *)
Lemma truncated_tip_height front back :
  connected header_hash genesis_hash (front ++ back) ->
  NoDup (genesis_hash :: map header_hash (front ++ back)) ->
  let st := truncate_back (stored_chain header_hash genesis_hash (front ++ back))
              (rev (front ++ back)) (length back) in
  file st = concat (front ++ back) /\
  tip_height st = Some (Z.of_nat (length front)).
Proof.
  intros Hc Hnd st.
  inversion Hnd as [|? ? Hg Hnd']; subst.
  destruct (truncate_back_spec (length back) (rev (front ++ back))
              (stored_chain header_hash genesis_hash (front ++ back)))
    as [Hf [Htip Hix]].
  - rewrite length_rev, length_app. lia.
  - apply connected_rconnected. exact Hc.
  - unfold stored_chain. rewrite write_tip. simpl.
    destruct (rev (front ++ back)); reflexivity.
  - fold st in Hf, Htip, Hix.
    split; [rewrite Hf; apply stored_chain_file|].
    assert (Esk : skipn (length back) (rev (front ++ back)) = rev front).
    { rewrite rev_app_distr. rewrite <- (length_rev back).
      rewrite skipn_app, skipn_all, Nat.sub_diag. reflexivity. }
    assert (Efi : firstn (length back) (rev (front ++ back)) = rev back).
    { rewrite rev_app_distr. rewrite <- (length_rev back).
      rewrite firstn_app, firstn_all, Nat.sub_diag, firstn_O, app_nil_r. reflexivity. }
    rewrite Esk in Htip. rewrite Efi in Hix.
    unfold tip_height. rewrite Htip.
    rewrite map_app in Hnd'. 
    assert (Hdisj : forall h, In h (map header_hash front) ->
                              ~ In h (map header_hash back)).
    { intros h H1 H2. revert Hnd' H1 H2. clear.
      induction (map header_hash front) as [|y l IH]; simpl; [tauto|].
      intros Hnd [->|H1] H2; inversion Hnd as [|? ? Hni Hnd2]; subst.
      - apply Hni. apply in_or_app. right. exact H2.
      - apply IH; assumption. }
    destruct (rev front) as [|x r] eqn:Er.
    + assert (front = []).
      { apply (f_equal (@rev bytes)) in Er. rewrite rev_involutive in Er. exact Er. }
      subst front. simpl tip_of. rewrite Hix.
      * unfold stored_chain. rewrite write_index_other by exact Hg.
        unfold new_store, index_get. cbn [index find fst snd].
        rewrite bytes_eqb_refl. reflexivity.
      * rewrite map_rev, <- in_rev. intros K. apply Hg. simpl. exact K.
    + assert (Ef : front = rev r ++ [x]).
      { apply (f_equal (@rev bytes)) in Er. rewrite rev_involutive in Er.
        simpl in Er. exact Er. }
      simpl tip_of. rewrite Hix.
      * unfold stored_chain. rewrite Ef, <- app_assoc. cbn [app].
        rewrite write_index_at.
        -- f_equal. rewrite length_app. cbn [length]. lia.
        -- rewrite <- map_app in Hnd'. rewrite Ef, <- app_assoc in Hnd'.
           exact Hnd'.
      * rewrite map_rev, <- in_rev. apply Hdisj.
        rewrite Ef, map_app. apply in_or_app. right. left. reflexivity.
Qed.

End Chain.

(** *** Recovery at open time *)

Lemma open_truncates st h :
  tip_height st = Some h ->
  0 <= h < Z.of_nat (length (file st) / stride) ->
  open st = Ok {| file := firstn (Z.to_nat h * stride) (file st);
                  index := index st; tip := tip st |} /\
  length (firstn (Z.to_nat h * stride) (file st)) = (Z.to_nat h * stride)%nat.
Proof.
  intros Ht Hh. unfold open. rewrite Ht.
  replace (Z.of_nat (length (file st) / stride) >? h) with true
    by (symmetry; apply Z.gtb_lt; lia).
  split; [reflexivity|].
  apply firstn_length_le.
  assert (Hd : (Z.to_nat h < length (file st) / stride)%nat) by lia.
  pose proof (Nat.Div0.mul_div_le (length (file st)) stride) as Hm.
  nia.
Qed.

Lemma connected_stride header_hash prev hdrs :
  connected header_hash prev hdrs -> Forall (fun h => length h = stride) hdrs.
Proof.
  revert prev. induction hdrs as [|x t IH]; intros prev; simpl.
  - constructor.
  - intros [Hx [_ Ht]]. constructor; [exact Hx | eapply IH; exact Ht].
Qed.

(** Claim C6.  Write a connected chain of headers with pairwise distinct
    hashes to a new store and roll the index back by k of them (1 <= k and
    at least one header left), leaving the file alone.  The file then holds
    more records than the index's tip height, and opening the store
    truncates the file to match the index: the chain tip has height n - k
    and the file has (n - k) * 80 bytes.  With n = 10 and k = 5 the tip is at
    height 5 and the file has 5 * 80 bytes.  In general, whenever the file
    of a store holds more records than the tip height its index advertises,
    open truncates the file to tip height * 80 bytes and keeps the index. *)
Theorem open_after_index_truncation
    (header_hash : bytes -> Hash) (genesis_hash : Hash)
    (hdrs : list bytes) (k : nat) :
  connected header_hash genesis_hash hdrs ->
  NoDup (genesis_hash :: map header_hash hdrs) ->
  (1 <= k < length hdrs)%nat ->
  let st := truncate_back (stored_chain header_hash genesis_hash hdrs) (rev hdrs) k in
  let h := Z.of_nat (length hdrs - k) in
  tip_height st = Some h /\
  Z.of_nat (length (file st) / stride) = Z.of_nat (length hdrs) /\
  (exists st' r,
      open st = Ok st' /\
      file st' = firstn (Z.to_nat h * stride) (file st) /\
      length (file st') = ((length hdrs - k) * stride)%nat /\
      chain_tip st' = Ok (r, h)) /\
  (forall st0 h0,
      tip_height st0 = Some h0 ->
      0 <= h0 < Z.of_nat (length (file st0) / stride) ->
      exists st1,
        open st0 = Ok st1 /\
        file st1 = firstn (Z.to_nat h0 * stride) (file st0) /\
        length (file st1) = (Z.to_nat h0 * stride)%nat /\
        index st1 = index st0 /\ tip st1 = tip st0).
Proof.
  intros Hc Hnd Hk st h.
  set (front := firstn (length hdrs - k) hdrs).
  set (back := skipn (length hdrs - k) hdrs).
  assert (Eh : hdrs = front ++ back) by (symmetry; apply firstn_skipn).
  assert (Lb : length back = k) by (unfold back; rewrite length_skipn; lia).
  assert (Lf : length front = (length hdrs - k)%nat)
    by (unfold front; rewrite firstn_length_le; lia).
  assert (Hst : file st = concat hdrs /\ tip_height st = Some h).
  { unfold st, h. rewrite <- Lf, <- Lb. clearbody front back. subst hdrs.
    apply truncated_tip_height; assumption. }
  destruct Hst as [Hfile Htip].
  pose proof (connected_stride _ _ _ Hc) as Hstr.
  assert (Hrec : (length (file st) / stride = length hdrs)%nat).
  { rewrite Hfile, concat_length_stride by exact Hstr.
    apply Nat.div_mul. discriminate. }
  assert (Hgen : forall st0 h0,
             tip_height st0 = Some h0 ->
             0 <= h0 < Z.of_nat (length (file st0) / stride) ->
             exists st1,
               open st0 = Ok st1 /\
               file st1 = firstn (Z.to_nat h0 * stride) (file st0) /\
               length (file st1) = (Z.to_nat h0 * stride)%nat /\
               index st1 = index st0 /\ tip st1 = tip st0).
  { intros st0 h0 H0 R0. destruct (open_truncates st0 h0 H0 R0) as [Eo El].
    eexists. split; [exact Eo|]. simpl. auto. }
  split; [exact Htip|]. split; [rewrite Hrec; reflexivity|]. split; [|exact Hgen].
  destruct (Hgen st h Htip) as [st' [Eo [Ef [El [Ei Et]]]]].
  { rewrite Hrec. unfold h. lia. }
  assert (Eh' : Z.to_nat h = (length hdrs - k)%nat) by (unfold h; lia).
  exists st'. eexists. split; [exact Eo|]. split; [exact Ef|].
  split; [rewrite El, Eh'; reflexivity|].
  unfold chain_tip, tip_height. rewrite Ei, Et.
  unfold tip_height in Htip. rewrite Htip.
  unfold fetch_by_height. rewrite El.
  replace ((1 <=? h) && (h * Z.of_nat stride <=? Z.of_nat (Z.to_nat h * stride)))
    with true; [reflexivity|].
  symmetry. apply andb_true_iff. split.
  - apply Z.leb_le. unfold h. lia.
  - apply Z.leb_le. lia.
Qed.

Lemma toy_chain_connected :
  connected toy_hash (toy_id 0) (toy_chain 10).
Proof. vm_compute. repeat split. Defined.

Lemma toy_chain_distinct :
  NoDup (toy_id 0 :: map toy_hash (toy_chain 10)).
Proof.
  vm_compute. repeat (constructor; [simpl; intuition discriminate|]). constructor.
Defined.

Lemma open_after_index_truncation_witness :
  exists st' r,
    open (truncate_back (stored_chain toy_hash (toy_id 0) (toy_chain 10))
            (rev (toy_chain 10)) 5) = Ok st' /\
    chain_tip st' = Ok (r, 5) /\
    length (file st') = (5 * stride)%nat.
Proof.
  destruct (open_after_index_truncation toy_hash (toy_id 0) (toy_chain 10) 5
              toy_chain_connected toy_chain_distinct)
    as [_ [_ [[st' [r [Eo [_ [El Et]]]]] _]]].
  - vm_compute. split; repeat constructor.
  - exists st', r. split; [exact Eo|]. split; [exact Et | exact El].
Defined.

End HeaderFSFacts.

(* ===================================================================== *)
(** ** The bucketed store *)
(* ===================================================================== *)

Module WalletdbFacts.
Import Walletdb.

(** *** One bucket *)

Lemma lookup_cons k' n' t k :
  lookup ((k', n') :: t) k = if bytes_eqb k' k then Some n' else lookup t k.
Proof. unfold lookup. simpl. destruct (bytes_eqb k' k); reflexivity. Qed.

Lemma lookup_notin b k : ~ In k (keys b) -> lookup b k = None.
Proof.
  induction b as [|[k' n'] t IH]; intros H; [reflexivity|].
  rewrite lookup_cons. destruct (bytes_eqb k' k) eqn:E.
  - apply bytes_eqb_eq in E. exfalso. apply H. left. exact E.
  - apply IH. intros K. apply H. right. exact K.
Qed.

Lemma lookup_in b k n : lookup b k = Some n -> In (k, n) b.
Proof.
  induction b as [|[k' n'] t IH]; [discriminate|].
  rewrite lookup_cons. destruct (bytes_eqb k' k) eqn:E.
  - apply bytes_eqb_eq in E. intros [= <-]. left. congruence.
  - intros H. right. apply IH. exact H.
Qed.

Lemma lookup_app_notin b1 b2 k :
  ~ In k (keys b1) -> lookup (b1 ++ b2) k = lookup b2 k.
Proof.
  induction b1 as [|[k' n'] t IH]; intros H; [reflexivity|].
  cbn [app]. rewrite lookup_cons. destruct (bytes_eqb k' k) eqn:E.
  - apply bytes_eqb_eq in E. exfalso. apply H. left. exact E.
  - apply IH. intros K. apply H. right. exact K.
Qed.

Lemma lookup_replace_same b k n n' :
  lookup b k = Some n -> lookup (replace b k n') k = Some n'.
Proof.
  induction b as [|[k1 n1] t IH]; [discriminate|].
  rewrite lookup_cons. cbn [replace]. destruct (bytes_eqb k1 k) eqn:E.
  - intros _. rewrite lookup_cons, bytes_eqb_refl. reflexivity.
  - intros H. rewrite lookup_cons, E. apply IH. exact H.
Qed.

Lemma lookup_replace_other b k k' n :
  k <> k' -> lookup (replace b k n) k' = lookup b k'.
Proof.
  intros Hne. induction b as [|[k1 n1] t IH]; [reflexivity|].
  cbn [replace]. destruct (bytes_eqb k1 k) eqn:E.
  - apply bytes_eqb_eq in E. subst k1. rewrite !lookup_cons.
    destruct (bytes_eqb k k') eqn:E2; [|reflexivity].
    apply bytes_eqb_eq in E2. contradiction.
  - rewrite !lookup_cons. rewrite IH. reflexivity.
Qed.

Lemma replace_same b k n : lookup b k = Some n -> replace b k n = b.
Proof.
  induction b as [|[k1 n1] t IH]; [reflexivity|].
  rewrite lookup_cons. cbn [replace]. destruct (bytes_eqb k1 k) eqn:E.
  - apply bytes_eqb_eq in E. intros [= <-]. subst. reflexivity.
  - intros H. rewrite IH by exact H. reflexivity.
Qed.

Lemma replace_none b k n : lookup b k = None -> replace b k n = b.
Proof.
  induction b as [|[k1 n1] t IH]; [reflexivity|].
  rewrite lookup_cons. cbn [replace]. destruct (bytes_eqb k1 k) eqn:E.
  - discriminate.
  - intros H. rewrite IH by exact H. reflexivity.
Qed.

Lemma replace_replace b k n1 n2 : replace (replace b k n1) k n2 = replace b k n2.
Proof.
  induction b as [|[k1 m] t IH]; [reflexivity|].
  cbn [replace]. destruct (bytes_eqb k1 k) eqn:E.
  - cbn [replace]. rewrite bytes_eqb_refl. reflexivity.
  - cbn [replace]. rewrite E, IH. reflexivity.
Qed.

Lemma replace_comm b k1 n1 k2 n2 :
  k1 <> k2 ->
  replace (replace b k1 n1) k2 n2 = replace (replace b k2 n2) k1 n1.
Proof.
  intros Hne. induction b as [|[k m] t IH]; [reflexivity|].
  cbn [replace].
  destruct (bytes_eqb k k1) eqn:E1; destruct (bytes_eqb k k2) eqn:E2; cbn [replace].
  - apply bytes_eqb_eq in E1, E2. congruence.
  - apply bytes_eqb_eq in E1. subst k.
    replace (bytes_eqb k1 k2) with false by (symmetry; apply bytes_eqb_neq; exact Hne).
    rewrite bytes_eqb_refl. reflexivity.
  - apply bytes_eqb_eq in E2. subst k.
    replace (bytes_eqb k2 k1) with false
      by (symmetry; apply bytes_eqb_neq; congruence).
    rewrite bytes_eqb_refl. reflexivity.
  - rewrite E1, E2, IH. reflexivity.
Qed.

Lemma replace_app_notin b1 k n0 b2 n :
  ~ In k (keys b1) ->
  replace (b1 ++ (k, n0) :: b2) k n = b1 ++ (k, n) :: b2.
Proof.
  induction b1 as [|[k1 m] t IH]; intros H.
  - cbn [app replace]. rewrite bytes_eqb_refl. reflexivity.
  - cbn [app replace]. destruct (bytes_eqb k1 k) eqn:E.
    + apply bytes_eqb_eq in E. exfalso. apply H. left. exact E.
    + rewrite IH; [reflexivity|]. intros K. apply H. right. exact K.
Qed.

Lemma keys_replace b k n : lookup b k <> None -> keys (replace b k n) = keys b.
Proof.
  induction b as [|[k1 m] t IH]; [reflexivity|].
  rewrite lookup_cons. cbn [replace]. destruct (bytes_eqb k1 k) eqn:E.
  - apply bytes_eqb_eq in E. subst. reflexivity.
  - intros H. cbn [keys map fst]. f_equal. apply IH. exact H.
Qed.

Lemma lookup_insert_same b k n :
  lookup b k = None -> lookup (insert_sorted b k n) k = Some n.
Proof.
  induction b as [|[k1 m] t IH]; intros H.
  - cbn [insert_sorted]. rewrite lookup_cons, bytes_eqb_refl. reflexivity.
  - rewrite lookup_cons in H. cbn [insert_sorted].
    destruct (bytes_eqb k1 k) eqn:E; [discriminate|].
    destruct (bytes_compare k k1).
    + rewrite lookup_cons, E. apply IH. exact H.
    + rewrite lookup_cons, bytes_eqb_refl. reflexivity.
    + rewrite lookup_cons, E. apply IH. exact H.
Qed.

Lemma lookup_insert_other b k k' n :
  k <> k' -> lookup (insert_sorted b k n) k' = lookup b k'.
Proof.
  intros Hne. induction b as [|[k1 m] t IH].
  - cbn [insert_sorted]. rewrite lookup_cons.
    replace (bytes_eqb k k') with false by (symmetry; apply bytes_eqb_neq; exact Hne).
    reflexivity.
  - cbn [insert_sorted]. destruct (bytes_compare k k1).
    + rewrite !lookup_cons, IH. reflexivity.
    + rewrite (lookup_cons k n).
      replace (bytes_eqb k k') with false by (symmetry; apply bytes_eqb_neq; exact Hne).
      reflexivity.
    + rewrite !lookup_cons, IH. reflexivity.
Qed.

Lemma lookup_put_same b k n : lookup (put b k n) k = Some n.
Proof.
  unfold put. destruct (lookup b k) as [m|] eqn:E.
  - eapply lookup_replace_same; eauto.
  - apply lookup_insert_same. exact E.
Qed.

Lemma lookup_put_other b k k' n : k <> k' -> lookup (put b k n) k' = lookup b k'.
Proof.
  intros Hne. unfold put. destruct (lookup b k).
  - apply lookup_replace_other. exact Hne.
  - apply lookup_insert_other. exact Hne.
Qed.

Lemma put_existing b k n m : lookup b k = Some m -> put b k n = replace b k n.
Proof. intros H. unfold put. rewrite H. reflexivity. Qed.

Lemma lookup_remove_same b k : lookup (remove b k) k = None.
Proof.
  induction b as [|[k1 m] t IH]; [reflexivity|].
  cbn [remove filter fst]. destruct (bytes_eqb k1 k) eqn:E; cbn [negb].
  - exact IH.
  - rewrite lookup_cons, E. exact IH.
Qed.

Lemma lookup_remove_other b k k' : k <> k' -> lookup (remove b k) k' = lookup b k'.
Proof.
  intros Hne. induction b as [|[k1 m] t IH]; [reflexivity|].
  cbn [remove filter fst]. destruct (bytes_eqb k1 k) eqn:E; cbn [negb].
  - apply bytes_eqb_eq in E. subst k1. rewrite lookup_cons.
    replace (bytes_eqb k k') with false by (symmetry; apply bytes_eqb_neq; exact Hne).
    exact IH.
  - rewrite !lookup_cons. fold (remove t k). rewrite IH. reflexivity.
Qed.

(** *** Paths *)

Lemma get_update_same root p f b :
  get_bucket root p = Some b -> get_bucket (update_at root p f) p = Some (f b).
Proof.
  revert root. induction p as [|k p IH]; intros root; cbn [get_bucket update_at].
  - intros [= <-]. reflexivity.
  - destruct (lookup root k) as [[v|c]|] eqn:E; try discriminate.
    intros H. rewrite (lookup_replace_same _ _ _ _ E). apply IH. exact H.
Qed.

Lemma update_update root p f g :
  update_at (update_at root p f) p g = update_at root p (fun b => g (f b)).
Proof.
  revert root. induction p as [|k p IH]; intros root; cbn [update_at]; [reflexivity|].
  destruct (lookup root k) as [[v|c]|] eqn:E.
  - rewrite E. reflexivity.
  - rewrite (lookup_replace_same _ _ _ _ E). rewrite replace_replace, IH. reflexivity.
  - rewrite E. reflexivity.
Qed.

Lemma update_at_app root p q f :
  update_at root (p ++ q) f = update_at root p (fun b => update_at b q f).
Proof.
  revert root. induction p as [|k p IH]; intros root; cbn [app update_at]; [reflexivity|].
  destruct (lookup root k) as [[v|c]|]; try reflexivity.
  rewrite IH. reflexivity.
Qed.

Lemma get_bucket_app root p q :
  get_bucket root (p ++ q) =
  match get_bucket root p with
  | Some b => get_bucket b q
  | None => None
  end.
Proof.
  revert root. induction p as [|k p IH]; intros root; cbn [app get_bucket]; [reflexivity|].
  destruct (lookup root k) as [[v|c]|]; try reflexivity. apply IH.
Qed.

Lemma update_at_ext root p f g b :
  get_bucket root p = Some b -> f b = g b -> update_at root p f = update_at root p g.
Proof.
  revert root. induction p as [|k p IH]; intros root; cbn [get_bucket update_at].
  - intros [= <-] H. exact H.
  - destruct (lookup root k) as [[v|c]|]; try discriminate.
    intros H1 H2. rewrite (IH c H1 H2). reflexivity.
Qed.

Lemma update_at_id root p f b :
  get_bucket root p = Some b -> f b = b -> update_at root p f = root.
Proof.
  revert root. induction p as [|k p IH]; intros root; cbn [get_bucket update_at].
  - intros [= <-] H. exact H.
  - destruct (lookup root k) as [[v|c]|] eqn:E; try discriminate.
    intros H1 H2. rewrite (IH c H1 H2). apply replace_same. exact E.
Qed.

Lemma update_at_child b k c f :
  lookup b k = Some (Sub c) -> update_at b [k] f = replace b k (Sub (f c)).
Proof. intros H. cbn [update_at]. rewrite H. reflexivity. Qed.

(** *** The transaction monad *)

Lemma bind_ok {A B} (m : tx A) (k : A -> tx B) root a root' :
  m root = (Ok a, root') -> bind m k root = k a root'.
Proof. intros H. unfold bind. rewrite H. reflexivity. Qed.

Lemma wrap_err_ok {A} str (m : tx A) root a root' :
  m root = (Ok a, root') -> wrap_err str m root = (Ok a, root').
Proof. intros H. unfold wrap_err. rewrite H. reflexivity. Qed.

Lemma on_bucket_some {A} p (f : path -> bucket -> tx A) root b :
  get_bucket root p = Some b -> on_bucket (Some p) f root = f p b root.
Proof. intros H. unfold on_bucket. rewrite H. reflexivity. Qed.

Lemma Nested_sub p key root b c :
  get_bucket root p = Some b -> lookup b key = Some (Sub c) ->
  NestedReadWriteBucket (Some p) key root = (Ok (Some (p ++ [key])), root).
Proof.
  intros H1 H2. unfold NestedReadWriteBucket.
  rewrite (on_bucket_some _ _ _ _ H1), H2. reflexivity.
Qed.

Lemma Nested_not_sub p key root b :
  get_bucket root p = Some b ->
  (forall c, lookup b key <> Some (Sub c)) ->
  NestedReadWriteBucket (Some p) key root = (Ok None, root).
Proof.
  intros H1 H2. unfold NestedReadWriteBucket.
  rewrite (on_bucket_some _ _ _ _ H1).
  destruct (lookup b key) as [[v|c]|] eqn:E; try reflexivity.
  exfalso. apply (H2 c). reflexivity.
Qed.

Lemma Get_value p key root b :
  get_bucket root p = Some b ->
  Get (Some p) key root =
  (Ok (match lookup b key with Some (Val v) => Some v | _ => None end), root).
Proof.
  intros H1. unfold Get. rewrite (on_bucket_some _ _ _ _ H1).
  destruct (lookup b key) as [[v|c]|]; reflexivity.
Qed.

Lemma Put_ok p key value root b :
  get_bucket root p = Some b -> key <> [] ->
  (forall c, lookup b key <> Some (Sub c)) ->
  Put (Some p) key value root
  = (Ok tt, update_at root p (fun b => put b key (Val value))).
Proof.
  intros H1 Hk H2. unfold Put. rewrite (on_bucket_some _ _ _ _ H1).
  destruct key; [congruence|]. cbn [is_nil].
  destruct (lookup b (b0 :: key)) as [[v|c]|] eqn:E; try reflexivity.
  exfalso. apply (H2 c). reflexivity.
Qed.

Lemma Delete_ok p key root b :
  get_bucket root p = Some b ->
  (forall c, lookup b key <> Some (Sub c)) ->
  Delete (Some p) key root = (Ok tt, update_at root p (fun b => remove b key)).
Proof.
  intros H1 H2. unfold Delete. rewrite (on_bucket_some _ _ _ _ H1).
  destruct (lookup b key) as [[v|c]|] eqn:E; try reflexivity.
  exfalso. apply (H2 c). reflexivity.
Qed.

Lemma CreateBucket_ok p key root b :
  get_bucket root p = Some b -> key <> [] -> lookup b key = None ->
  CreateBucket (Some p) key root
  = (Ok (Some (p ++ [key])), update_at root p (fun b => put b key (Sub []))).
Proof.
  intros H1 Hk H2. unfold CreateBucket. rewrite (on_bucket_some _ _ _ _ H1).
  destruct key; [congruence|]. cbn [is_nil]. rewrite H2. reflexivity.
Qed.

Lemma DeleteNestedBucket_ok p key root b c :
  get_bucket root p = Some b -> lookup b key = Some (Sub c) ->
  DeleteNestedBucket (Some p) key root
  = (Ok tt, update_at root p (fun b => remove b key)).
Proof.
  intros H1 H2. unfold DeleteNestedBucket.
  rewrite (on_bucket_some _ _ _ _ H1), H2. reflexivity.
Qed.

End WalletdbFacts.

(* ===================================================================== *)
(** ** deletePrivateKeys *)
(* ===================================================================== *)

Module DeleteFacts.
Import Walletdb Waddrmgr WaddrmgrSpec WalletdbFacts.

Lemma bytes_eqb_false a b : bytes_eqb a b = false -> a <> b.
Proof. intros H E. subst. rewrite bytes_eqb_refl in H. discriminate. Qed.

Lemma distinct_NoDup l : distinct l = true -> NoDup l.
Proof.
  induction l as [|k t IH]; intros H; [constructor|].
  cbn [distinct] in H. apply andb_true_iff in H. destruct H as [H1 H2].
  constructor; [|apply IH; exact H2].
  intros Hin. apply negb_true_iff in H1.
  assert (existsb (bytes_eqb k) t = true); [|congruence].
  apply existsb_exists. exists k. split; [exact Hin|apply bytes_eqb_refl].
Qed.

Lemma lookup_map_entries F b k :
  lookup (map_entries F b) k = option_map (F k) (lookup b k).
Proof.
  induction b as [|[k1 n1] t IH]; [reflexivity|].
  cbn [map_entries map fst snd]. rewrite !lookup_cons.
  destruct (bytes_eqb k1 k) eqn:E.
  - apply bytes_eqb_eq in E. subst. reflexivity.
  - exact IH.
Qed.

(** ForEach with a callback that rewrites the entry it is given. *)
Lemma for_entries_map P F fn : forall rest done root,
  NoDup (keys (done ++ rest)) ->
  get_bucket root P = Some (done ++ rest) ->
  (forall k n root b, In (k, n) rest ->
     get_bucket root P = Some b -> lookup b k = Some n ->
     fn k (entry_value n) root
     = (Ok tt, update_at root P (fun b => replace b k (F k n)))) ->
  for_entries rest fn root
  = (Ok tt, update_at root P (fun _ => done ++ map_entries F rest)).
Proof.
  induction rest as [|[k n] t IH]; intros done root Hnd Hget Hfn.
  - cbn [for_entries map_entries map]. unfold ret. f_equal. symmetry.
    eapply update_at_id; [exact Hget|reflexivity].
  - cbn [for_entries].
    assert (Hk : ~ In k (keys done)).
    { unfold keys in *. rewrite map_app in Hnd. cbn [map fst] in Hnd.
      apply NoDup_remove_2 in Hnd. intros K. apply Hnd. apply in_or_app. left. exact K. }
    assert (Hl : lookup (done ++ (k, n) :: t) k = Some n).
    { rewrite lookup_app_notin by exact Hk. rewrite lookup_cons, bytes_eqb_refl.
      reflexivity. }
    rewrite (bind_ok _ _ _ _ _ (Hfn k n root _ (or_introl eq_refl) Hget Hl)).
    rewrite (IH (done ++ [(k, F k n)])).
    + rewrite update_update. f_equal. f_equal.
      cbn [map_entries map fst snd]. rewrite <- app_assoc. reflexivity.
    + unfold keys in *. rewrite <- app_assoc. cbn [app].
      rewrite map_app in *. cbn [map fst] in *. exact Hnd.
    + rewrite (get_update_same _ _ _ _ Hget).
      rewrite replace_app_notin by exact Hk.
      rewrite <- app_assoc. reflexivity.
    + intros k' n' root' b' Hin. apply Hfn. right. exact Hin.
Qed.

Lemma ForEach_map P F fn root b :
  get_bucket root P = Some b -> NoDup (keys b) ->
  (forall k n root b', In (k, n) b ->
     get_bucket root P = Some b' -> lookup b' k = Some n ->
     fn k (entry_value n) root
     = (Ok tt, update_at root P (fun b => replace b k (F k n)))) ->
  ForEach (Some P) fn root = (Ok tt, update_at root P (map_entries F)).
Proof.
  intros Hget Hnd Hfn. unfold ForEach. rewrite (on_bucket_some _ _ _ _ Hget).
  rewrite (for_entries_map P F fn b [] root Hnd Hget Hfn). f_equal.
  eapply update_at_ext; [exact Hget|reflexivity].
Qed.

Lemma unchanged root P k n b :
  get_bucket root P = Some b -> lookup b k = Some n ->
  root = update_at root P (fun b => replace b k n).
Proof.
  intros Hget Hl. symmetry. eapply update_at_id; [exact Hget|].
  apply replace_same. exact Hl.
Qed.

Lemma Put_existing_value P k v w root b :
  get_bucket root P = Some b -> lookup b k = Some (Val v) -> is_nil k = false ->
  Put (Some P) k w root = (Ok tt, update_at root P (fun b => replace b k (Val w))).
Proof.
  intros Hget Hl Hk. rewrite (Put_ok P k w root b Hget).
  - f_equal. eapply update_at_ext; [exact Hget|].
    eapply put_existing. exact Hl.
  - intros ->. discriminate.
  - intros c. rewrite Hl. discriminate.
Qed.

Lemma strip_account_step P k n root b :
  account_entry_ok (k, n) = true ->
  get_bucket root P = Some b -> lookup b k = Some n ->
  strip_account (Some P) k (entry_value n) root
  = (Ok tt, update_at root P (fun b => replace b k (on_value cleared_account k n))).
Proof.
  intros Hok Hget Hl. destruct n as [v|c]; cbn [entry_value on_value strip_account].
  - unfold account_entry_ok in Hok. cbn [fst snd] in Hok.
    apply andb_true_iff in Hok. destruct Hok as [Hok Hrow].
    apply andb_true_iff in Hok. destruct Hok as [Hk _].
    apply negb_true_iff in Hk.
    unfold cleared_account.
    destruct (deserializeAccountRow v) as [row| |] eqn:Ed; try discriminate.
    unfold bind at 1. cbn [lift]. unfold ret at 1.
    destruct (acctType row =? accountDefault).
    + destruct (deserializeDefaultAccountRow row) as [arow| |] eqn:Ea; try discriminate.
      unfold bind. cbn [lift]. unfold ret.
      apply wrap_err_ok. eapply Put_existing_value; eauto.
    + unfold ret. f_equal. eapply unchanged; eauto.
  - unfold ret. f_equal. eapply unchanged; eauto.
Qed.

Lemma strip_address_step P k n root b :
  address_entry_ok (k, n) = true ->
  get_bucket root P = Some b -> lookup b k = Some n ->
  strip_address (Some P) k (entry_value n) root
  = (Ok tt, update_at root P (fun b => replace b k (on_value cleared_address k n))).
Proof.
  intros Hok Hget Hl. destruct n as [v|c]; cbn [entry_value on_value strip_address].
  - unfold address_entry_ok in Hok. cbn [fst snd] in Hok.
    apply andb_true_iff in Hok. destruct Hok as [Hok Hrow].
    apply andb_true_iff in Hok. destruct Hok as [Hk _].
    apply negb_true_iff in Hk.
    unfold cleared_address.
    destruct (deserializeAddressRow v) as [row| |] eqn:Ed; try discriminate.
    unfold bind at 1. cbn [lift]. unfold ret at 1.
    destruct (addrType row =? adtImport).
    + destruct (deserializeImportedAddress row) as [irow| |] eqn:Ea; try discriminate.
      unfold bind. cbn [lift]. unfold ret.
      apply wrap_err_ok. eapply Put_existing_value; eauto.
    + destruct (addrType row =? adtScript).
      * destruct (deserializeScriptAddress row) as [srow| |] eqn:Ea; try discriminate.
        unfold bind. cbn [lift]. unfold ret.
        apply wrap_err_ok. eapply Put_existing_value; eauto.
      * unfold ret. f_equal. eapply unchanged; eauto.
  - unfold ret. f_equal. eapply unchanged; eauto.
Qed.

Lemma not_bucket_spec b k : not_bucket b k = true -> forall c, lookup b k <> Some (Sub c).
Proof. unfold not_bucket. intros H c E. rewrite E in H. discriminate. Qed.

Lemma not_bucket_remove b k k' :
  not_bucket b k' = true -> not_bucket (remove b k) k' = true.
Proof.
  unfold not_bucket. intros H. destruct (bytes_eqb k k') eqn:E.
  - apply bytes_eqb_eq in E. subst. rewrite lookup_remove_same. reflexivity.
  - rewrite lookup_remove_other by (apply bytes_eqb_false; exact E). exact H.
Qed.

Lemma get_bucket_child root P b k c :
  get_bucket root P = Some b -> lookup b k = Some (Sub c) ->
  get_bucket root (P ++ [k]) = Some c.
Proof.
  intros Hget Hl. rewrite get_bucket_app, Hget. cbn [get_bucket]. rewrite Hl.
  reflexivity.
Qed.

Lemma forallb_In {A} (f : A -> bool) l x : forallb f l = true -> In x l -> f x = true.
Proof. intros H. rewrite forallb_forall in H. apply H. Qed.

Lemma strip_scope_step P k n root b :
  scope_entry_ok (k, n) = true ->
  get_bucket root P = Some b -> lookup b k = Some n ->
  strip_scope (Some P) k (entry_value n) root
  = (Ok tt, update_at root P (fun b => replace b k (cleared_scope_entry k n))).
Proof.
  intros Hok Hget Hl. unfold strip_scope, cleared_scope_entry.
  unfold scope_entry_ok in Hok. cbn [fst snd] in Hok.
  destruct (length k =? 8)%nat; cbn [negb].
  2:{ unfold ret. f_equal. eapply unchanged; eauto. }
  destruct n as [v|mb]; [discriminate|].
  unfold scope_ok in Hok. apply andb_true_iff in Hok. destruct Hok as [Hct Hok].
  destruct (lookup mb acctBucketName) as [[?|ab]|] eqn:Eacct; try discriminate.
  destruct (lookup mb addrBucketName) as [[?|db]|] eqn:Eaddr; try discriminate.
  apply andb_true_iff in Hok. destruct Hok as [Hok Hdbok].
  apply andb_true_iff in Hok. destruct Hok as [Hok Hdb].
  apply andb_true_iff in Hok. destruct Hok as [Hab Habok].
  rewrite (bind_ok _ _ _ _ _ (Nested_sub P k root b mb Hget Hl)).
  pose proof (get_bucket_child root P b k mb Hget Hl) as Hq.
  remember (P ++ [k]) as Q eqn:EQ.
  (* the coin-type private key *)
  rewrite (bind_ok _ _ _ tt _
             (wrap_err_ok _ _ _ _ _
                (Delete_ok Q coinTypePrivKeyName root mb Hq (not_bucket_spec _ _ Hct)))).
  set (root1 := update_at root Q (fun b => remove b coinTypePrivKeyName)).
  assert (Hq1 : get_bucket root1 Q = Some (remove mb coinTypePrivKeyName))
    by (apply get_update_same; exact Hq).
  (* the account rows *)
  assert (Hacct1 : lookup (remove mb coinTypePrivKeyName) acctBucketName = Some (Sub ab)).
  { rewrite lookup_remove_other by (apply bytes_eqb_false; reflexivity). exact Eacct. }
  rewrite (bind_ok _ _ _ _ _ (Nested_sub Q acctBucketName root1 _ ab Hq1 Hacct1)).
  rewrite (bind_ok _ _ _ tt _
             (ForEach_map (Q ++ [acctBucketName]) (on_value cleared_account)
                _ root1 ab (get_bucket_child _ _ _ _ _ Hq1 Hacct1)
                (distinct_NoDup _ Hab)
                (fun k n root b' Hin Hg Hlk =>
                   strip_account_step _ k n root b'
                     (forallb_In _ _ _ Habok Hin) Hg Hlk))).
  set (root2 := update_at root1 (Q ++ [acctBucketName]) _).
  assert (Hq2 : get_bucket root2 Q
                = Some (update_at (remove mb coinTypePrivKeyName) [acctBucketName]
                          (map_entries (on_value cleared_account)))).
  { unfold root2. rewrite update_at_app.
    exact (get_update_same root1 Q
             (fun b => update_at b [acctBucketName]
                         (map_entries (on_value cleared_account))) _ Hq1). }
  (* the address rows *)
  assert (Haddr2 : lookup (update_at (remove mb coinTypePrivKeyName) [acctBucketName]
                             (map_entries (on_value cleared_account)))
                     addrBucketName = Some (Sub db)).
  { rewrite (update_at_child _ _ _ _ Hacct1).
    rewrite lookup_replace_other by (apply bytes_eqb_false; reflexivity).
    rewrite lookup_remove_other by (apply bytes_eqb_false; reflexivity). exact Eaddr. }
  rewrite (bind_ok _ _ _ _ _ (Nested_sub Q addrBucketName root2 _ db Hq2 Haddr2)).
  cbv beta.
  pose proof (ForEach_map (Q ++ [addrBucketName]) (on_value cleared_address)
             _ root2 db (get_bucket_child _ _ _ _ _ Hq2 Haddr2)
             (distinct_NoDup _ Hdb)
             (fun k n root b' Hin Hg Hlk =>
                strip_address_step _ k n root b'
                  (forallb_In _ _ _ Hdbok Hin) Hg Hlk)) as HF.
  refine (eq_trans HF _). clear HF.
  f_equal. unfold root2, root1. rewrite !update_at_app, !update_update.
  subst Q. rewrite update_at_app.
  eapply update_at_ext; [exact Hget|].
  rewrite (update_at_child _ _ _ _ Hl). reflexivity.
Qed.

(** deletePrivateKeys succeeds on a version-5 namespace and leaves the
    namespace [watching_only] describes. *)
Lemma deletePrivateKeys_refines ns :
  v5_namespace ns = true ->
  deletePrivateKeys ns_root ns = (Ok tt, watching_only ns).
Proof.
  intros Hok. unfold v5_namespace in Hok.
  destruct (lookup ns mainBucketName) as [[?|m]|] eqn:Emain; try discriminate.
  destruct (lookup ns scopeBucketName) as [[?|sb]|] eqn:Escope; try discriminate.
  apply andb_true_iff in Hok. destruct Hok as [Hok Hsbok].
  apply andb_true_iff in Hok. destruct Hok as [Hmain Hsb].
  cbn [forallb private_main_keys] in Hmain.
  apply andb_true_iff in Hmain. destruct Hmain as [H Hmain].
  apply andb_true_iff in Hmain. destruct Hmain as [H0 Hmain].
  apply andb_true_iff in Hmain. destruct Hmain as [H1 Hmain].
  apply andb_true_iff in Hmain. destruct Hmain as [H2 _].
  unfold deletePrivateKeys, ns_root.
  assert (Hroot : get_bucket ns [] = Some ns) by reflexivity.
  rewrite (bind_ok _ _ _ _ _ (Nested_sub [] mainBucketName ns ns m Hroot Emain)).
  cbn [app].
  assert (Hm : get_bucket ns [mainBucketName] = Some m)
    by (exact (get_bucket_child ns [] ns _ m Hroot Emain)).
  rewrite (bind_ok _ _ _ tt _
             (wrap_err_ok _ _ _ _ _
                (Delete_ok _ masterPrivKeyName ns m Hm (not_bucket_spec _ _ H)))).
  pose proof (get_update_same ns _ (fun b => remove b masterPrivKeyName) m Hm) as Hm1.
  rewrite (bind_ok _ _ _ tt _
             (wrap_err_ok _ _ _ _ _
                (Delete_ok _ cryptoPrivKeyName _ _ Hm1
                   (not_bucket_spec _ _ (not_bucket_remove _ _ _ H0))))).
  pose proof (get_update_same _ _ (fun b => remove b cryptoPrivKeyName) _ Hm1) as Hm2.
  rewrite (bind_ok _ _ _ tt _
             (wrap_err_ok _ _ _ _ _
                (Delete_ok _ cryptoScriptKeyName _ _ Hm2
                   (not_bucket_spec _ _
                      (not_bucket_remove _ _ _ (not_bucket_remove _ _ _ H1)))))).
  pose proof (get_update_same _ _ (fun b => remove b cryptoScriptKeyName) _ Hm2) as Hm3.
  rewrite (bind_ok _ _ _ tt _
             (wrap_err_ok _ _ _ _ _
                (Delete_ok _ masterHDPrivName _ _ Hm3
                   (not_bucket_spec _ _
                      (not_bucket_remove _ _ _
                         (not_bucket_remove _ _ _ (not_bucket_remove _ _ _ H2))))))).
  rewrite !update_update. fold (cleared_main).
  change (fun b => remove (remove (remove (remove b masterPrivKeyName) cryptoPrivKeyName)
                             cryptoScriptKeyName) masterHDPrivName) with cleared_main.
  set (ns1 := update_at ns [mainBucketName] cleared_main).
  assert (Hs1 : lookup ns1 scopeBucketName = Some (Sub sb)).
  { unfold ns1. rewrite (update_at_child _ _ _ _ Emain).
    rewrite lookup_replace_other by (apply bytes_eqb_false; reflexivity). exact Escope. }
  assert (Hroot1 : get_bucket ns1 [] = Some ns1) by reflexivity.
  rewrite (bind_ok _ _ _ _ _ (Nested_sub [] scopeBucketName ns1 ns1 sb Hroot1 Hs1)).
  cbn [app]. cbv beta.
  exact (ForEach_map [scopeBucketName] cleared_scope_entry _ ns1 sb
           (get_bucket_child ns1 [] ns1 _ sb Hroot1 Hs1)
           (distinct_NoDup _ Hsb)
           (fun k n root b' Hin Hg Hlk =>
              strip_scope_step _ k n root b' (forallb_In _ _ _ Hsbok Hin) Hg Hlk)).
Qed.

(** *** Rows *)

Lemma slice_some s lo hi d :
  slice s lo hi = Some d ->
  0 <= lo /\ lo <= hi /\ hi <= Z.of_nat (length s) /\
  Z.of_nat (length d) = hi - lo /\
  d = firstn (Z.to_nat (hi - lo)) (skipn (Z.to_nat lo) s).
Proof.
  unfold slice. destruct (0 <=? lo) eqn:E1; [|discriminate].
  destruct (lo <=? hi) eqn:E2; [|discriminate].
  destruct (hi <=? Z.of_nat (length s)) eqn:E3; [|discriminate].
  cbn [andb]. intros [= <-].
  apply Z.leb_le in E1, E2, E3.
  repeat split; try assumption.
  rewrite length_firstn, length_skipn. lia.
Qed.

Lemma slice_mid pre d post lo hi :
  lo = Z.of_nat (length pre) -> hi = lo + Z.of_nat (length d) ->
  slice (pre ++ d ++ post) lo hi = Some d.
Proof.
  intros -> ->. unfold slice.
  replace (0 <=? Z.of_nat (length pre)) with true by (symmetry; apply Z.leb_le; lia).
  replace (Z.of_nat (length pre) <=? Z.of_nat (length pre) + Z.of_nat (length d))
    with true by (symmetry; apply Z.leb_le; lia).
  replace (Z.of_nat (length pre) + Z.of_nat (length d)
           <=? Z.of_nat (length (pre ++ d ++ post)))
    with true by (symmetry; apply Z.leb_le; rewrite !length_app; lia).
  cbn [andb]. f_equal.
  rewrite Nat2Z.id.
  replace (Z.to_nat (Z.of_nat (length pre) + Z.of_nat (length d) - Z.of_nat (length pre)))
    with (length d) by lia.
  rewrite skipn_app, skipn_all, Nat.sub_diag. cbn [app skipn].
  rewrite firstn_app, firstn_all, Nat.sub_diag. cbn [firstn]. apply app_nil_r.
Qed.

Lemma slice_end pre d lo hi :
  lo = Z.of_nat (length pre) -> hi = lo + Z.of_nat (length d) ->
  slice (pre ++ d) lo hi = Some d.
Proof.
  intros H1 H2. rewrite <- (app_nil_r d) at 1. apply slice_mid; assumption.
Qed.

Lemma u32_small z : 0 <= z < 2 ^ 32 -> u32 z = z.
Proof. intros H. unfold u32. apply Z.mod_small. exact H. Qed.

Lemma le_value_4 x : 0 <= x < 2 ^ 32 -> le_value (le_bytes 4 x) = x.
Proof.
  intros H. rewrite le_value_bytes. apply Z.mod_small.
  change (256 ^ Z.of_nat 4) with (2 ^ 32). exact H.
Qed.

Lemma Uint32_at_some s lo x :
  Uint32_at s lo = Some x ->
  0 <= lo /\ lo <= u32 (lo + 4) /\ u32 (lo + 4) <= Z.of_nat (length s) /\
  (u32 (lo + 4) = lo + 4 -> 0 <= x < 2 ^ 32).
Proof.
  unfold Uint32_at. destruct (slice s lo (u32 (lo + 4))) as [d|] eqn:E; [|discriminate].
  intros [= <-]. apply slice_some in E. destruct E as (H1 & H2 & H3 & H4 & _).
  repeat split; try assumption.
  - pose proof (le_value_range d). lia.
  - pose proof (le_value_range d) as Hr.
    replace (length d) with 4%nat in Hr by lia.
    change (256 ^ Z.of_nat 4) with (2 ^ 32) in Hr. lia.
Qed.

Lemma Uint32_at_mid pre x post lo :
  lo = Z.of_nat (length pre) -> lo + 4 < 2 ^ 32 -> 0 <= x < 2 ^ 32 ->
  Uint32_at (pre ++ le_bytes 4 x ++ post) lo = Some x.
Proof.
  intros H1 H2 H3. unfold Uint32_at.
  rewrite (slice_mid pre (le_bytes 4 x) post lo (u32 (lo + 4)) H1).
  - rewrite le_value_4 by exact H3. reflexivity.
  - rewrite le_bytes_length. rewrite u32_small by lia. lia.
Qed.

Lemma firstn_prefix {A} n (a b : list A) : length a = n -> firstn n (a ++ b) = a.
Proof.
  intros <-. rewrite firstn_app, Nat.sub_diag, firstn_all. cbn [firstn].
  apply app_nil_r.
Qed.

Lemma Z_of_byte_small t : 0 <= t < 256 -> Z_of_byte (byte_of_Z t) = t.
Proof. intros H. rewrite Z_of_byte_of_Z. apply Z.mod_small. exact H. Qed.

Lemma deserializeAccountRow_some v row :
  deserializeAccountRow v = Ok row ->
  0 <= acctType row < 256 /\
  Z.of_nat (length (acct_rawData row)) + 5 <= Z.of_nat (length v).
Proof.
  unfold deserializeAccountRow.
  destruct (Z.of_nat (length v) <? 5); [discriminate|].
  destruct (slice v 5 _) as [d|] eqn:E; [|discriminate].
  intros [= <-]. cbn [acctType acct_rawData].
  apply slice_some in E. destruct E as (_ & H2 & H3 & H4 & _).
  split; [apply Z_of_byte_range|lia].
Qed.

Lemma serializeAccountRow_roundtrip t raw :
  0 <= t < 256 -> Z.of_nat (length raw) + 5 < 2 ^ 32 ->
  deserializeAccountRow (serializeAccountRow {| acctType := t; acct_rawData := raw |})
  = Ok {| acctType := t; acct_rawData := raw |}.
Proof.
  intros Ht Hlen. unfold deserializeAccountRow, serializeAccountRow.
  cbn [acctType acct_rawData].
  set (n := Z.of_nat (length raw)) in *.
  assert (Hn : 0 <= n) by (unfold n; lia).
  replace (Z.of_nat (length (byte_of_Z t :: le_bytes 4 n ++ raw)) <? 5) with false.
  2:{ symmetry. apply Z.ltb_ge. cbn [length]. rewrite length_app, le_bytes_length. lia. }
  cbn [skipn nth].
  rewrite firstn_prefix by apply le_bytes_length.
  rewrite le_value_4 by lia.
  change (byte_of_Z t :: le_bytes 4 n ++ raw)
    with ((byte_of_Z t :: le_bytes 4 n) ++ raw).
  rewrite (slice_end (byte_of_Z t :: le_bytes 4 n) raw 5 (u32 (5 + n))).
  - rewrite Z_of_byte_small by exact Ht. reflexivity.
  - cbn [length]. rewrite le_bytes_length. reflexivity.
  - rewrite u32_small by lia. reflexivity.
Qed.

Lemma deserializeDefaultAccountRow_some row arow :
  deserializeDefaultAccountRow row = Ok arow ->
  Z.of_nat (length (acct_rawData row)) < 2 ^ 31 ->
  dar_row arow = row /\
  Z.of_nat (length (pubKeyEncrypted arow)) + Z.of_nat (length (name arow)) + 20
    <= Z.of_nat (length (acct_rawData row)) /\
  0 <= nextExternalIndex arow < 2 ^ 32 /\
  0 <= nextInternalIndex arow < 2 ^ 32.
Proof.
  unfold deserializeDefaultAccountRow.
  set (raw := acct_rawData row). intros H Hlen.
  destruct (Z.of_nat (length raw) <? 20); [discriminate|].
  set (o1 := u32 (4 + le_value (firstn 4 raw))) in H.
  destruct (slice raw 4 o1) as [pub|] eqn:E1; [|discriminate].
  destruct (Uint32_at raw o1) as [privLen|] eqn:E2; [|discriminate].
  set (o2 := u32 (o1 + 4)) in *.
  set (o3 := u32 (o2 + privLen)) in *.
  destruct (slice raw o2 o3) as [priv|] eqn:E3; [|discriminate].
  destruct (Uint32_at raw o3) as [nextExt|] eqn:E4; [|discriminate].
  set (o4 := u32 (o3 + 4)) in *.
  destruct (Uint32_at raw o4) as [nextInt|] eqn:E5; [|discriminate].
  set (o5 := u32 (o4 + 4)) in *.
  destruct (Uint32_at raw o5) as [nameLen|] eqn:E6; [|discriminate].
  set (o6 := u32 (o5 + 4)) in *.
  set (o7 := u32 (o6 + nameLen)) in *.
  destruct (slice raw o6 o7) as [nm|] eqn:E7; [|discriminate].
  injection H as <-. cbn [dar_row pubKeyEncrypted name nextExternalIndex nextInternalIndex].
  apply slice_some in E1. destruct E1 as (_ & a2 & a3 & a4 & _).
  apply Uint32_at_some in E2. fold o2 in E2. destruct E2 as (_ & _ & b3 & _).
  assert (Ho2 : o2 = o1 + 4) by (apply u32_small; lia).
  apply slice_some in E3. destruct E3 as (_ & c2 & c3 & _).
  apply Uint32_at_some in E4. fold o4 in E4. destruct E4 as (_ & _ & d3 & d4).
  assert (Ho4 : o4 = o3 + 4) by (apply u32_small; lia).
  apply Uint32_at_some in E5. fold o5 in E5. destruct E5 as (_ & _ & e3 & e4).
  assert (Ho5 : o5 = o4 + 4) by (apply u32_small; lia).
  apply Uint32_at_some in E6. fold o6 in E6. destruct E6 as (_ & _ & f3 & _).
  assert (Ho6 : o6 = o5 + 4) by (apply u32_small; lia).
  apply slice_some in E7. destruct E7 as (_ & g2 & g3 & g4 & _).
  specialize (d4 Ho4). specialize (e4 Ho5).
  repeat split; try lia.
Qed.

Lemma Uint32_at_field pre d post lo :
  lo = Z.of_nat (length pre) -> length d = 4%nat -> lo + 4 < 2 ^ 32 ->
  Uint32_at (pre ++ d ++ post) lo = Some (le_value d).
Proof.
  intros H1 H2 H3. unfold Uint32_at.
  rewrite (slice_mid pre d post lo (u32 (lo + 4)) H1); [reflexivity|].
  rewrite u32_small by lia. lia.
Qed.

Lemma default_row_fields t A pub C priv E F G nm :
  length A = 4%nat -> length C = 4%nat -> length E = 4%nat ->
  length F = 4%nat -> length G = 4%nat ->
  le_value A = Z.of_nat (length pub) ->
  le_value C = Z.of_nat (length priv) ->
  le_value G = Z.of_nat (length nm) ->
  Z.of_nat (length pub) + Z.of_nat (length priv) + Z.of_nat (length nm) + 20 < 2 ^ 32 ->
  let row := {| acctType := t;
                acct_rawData := A ++ pub ++ C ++ priv ++ E ++ F ++ G ++ nm |} in
  deserializeDefaultAccountRow row
  = Ok {| dar_row := row; pubKeyEncrypted := pub; privKeyEncrypted := priv;
          nextExternalIndex := le_value E; nextInternalIndex := le_value F;
          name := nm |}.
Proof.
  intros HA HC HE HF HG VA VC VG Hlen row. unfold deserializeDefaultAccountRow.
  subst row. cbv zeta. cbn [acct_rawData].
  replace (Z.of_nat (length (A ++ pub ++ C ++ priv ++ E ++ F ++ G ++ nm)) <? 20)
    with false.
  2:{ symmetry. apply Z.ltb_ge. rewrite !length_app. lia. }
  rewrite firstn_prefix by exact HA. rewrite VA.
  rewrite (u32_small (4 + Z.of_nat (length pub))) by lia.
  rewrite (slice_mid A pub _ 4 (4 + Z.of_nat (length pub))) by lia.
  cbv beta iota.
  (* the private key *)
  rewrite (app_assoc A pub).
  rewrite (Uint32_at_field (A ++ pub) C _ (4 + Z.of_nat (length pub)))
    by (rewrite ?length_app; lia).
  cbv beta iota.
  rewrite VC.
  rewrite (u32_small (4 + Z.of_nat (length pub) + 4)) by lia.
  rewrite (u32_small (4 + Z.of_nat (length pub) + 4 + Z.of_nat (length priv))) by lia.
  rewrite (app_assoc (A ++ pub) C).
  rewrite (slice_mid ((A ++ pub) ++ C) priv _ (4 + Z.of_nat (length pub) + 4)
             (4 + Z.of_nat (length pub) + 4 + Z.of_nat (length priv)))
    by (rewrite ?length_app; lia).
  cbv beta iota.
  (* the two indices *)
  rewrite (app_assoc ((A ++ pub) ++ C) priv).
  rewrite (Uint32_at_field (((A ++ pub) ++ C) ++ priv) E _
             (4 + Z.of_nat (length pub) + 4 + Z.of_nat (length priv)))
    by (rewrite ?length_app; lia).
  cbv beta iota.
  rewrite (u32_small (4 + Z.of_nat (length pub) + 4 + Z.of_nat (length priv) + 4)) by lia.
  rewrite (app_assoc (((A ++ pub) ++ C) ++ priv) E).
  rewrite (Uint32_at_field ((((A ++ pub) ++ C) ++ priv) ++ E) F _
             (4 + Z.of_nat (length pub) + 4 + Z.of_nat (length priv) + 4))
    by (rewrite ?length_app; lia).
  cbv beta iota.
  rewrite (u32_small (4 + Z.of_nat (length pub) + 4 + Z.of_nat (length priv) + 4 + 4))
    by lia.
  (* the name *)
  rewrite (app_assoc ((((A ++ pub) ++ C) ++ priv) ++ E) F).
  rewrite (Uint32_at_field (((((A ++ pub) ++ C) ++ priv) ++ E) ++ F) G _
             (4 + Z.of_nat (length pub) + 4 + Z.of_nat (length priv) + 4 + 4))
    by (rewrite ?length_app; lia).
  cbv beta iota.
  rewrite VG.
  rewrite (u32_small (4 + Z.of_nat (length pub) + 4 + Z.of_nat (length priv) + 4 + 4 + 4))
    by lia.
  rewrite (u32_small (4 + Z.of_nat (length pub) + 4 + Z.of_nat (length priv) + 4 + 4 + 4
                      + Z.of_nat (length nm))) by lia.
  rewrite (app_assoc (((((A ++ pub) ++ C) ++ priv) ++ E) ++ F) G).
  rewrite (slice_end ((((((A ++ pub) ++ C) ++ priv) ++ E) ++ F) ++ G) nm
             (4 + Z.of_nat (length pub) + 4 + Z.of_nat (length priv) + 4 + 4 + 4)
             (4 + Z.of_nat (length pub) + 4 + Z.of_nat (length priv) + 4 + 4 + 4
              + Z.of_nat (length nm)))
    by (rewrite ?length_app; lia).
  cbv beta iota.
  reflexivity.
Qed.

Lemma serializeDefaultAccountRow_roundtrip t pub priv ne ni nm :
  Z.of_nat (length pub) + Z.of_nat (length priv) + Z.of_nat (length nm) + 20 < 2 ^ 32 ->
  0 <= ne < 2 ^ 32 -> 0 <= ni < 2 ^ 32 ->
  let row := {| acctType := t;
                acct_rawData := serializeDefaultAccountRow pub priv ne ni nm |} in
  deserializeDefaultAccountRow row
  = Ok {| dar_row := row; pubKeyEncrypted := pub; privKeyEncrypted := priv;
          nextExternalIndex := ne; nextInternalIndex := ni; name := nm |}.
Proof.
  intros Hlen Hne Hni row. unfold row, serializeDefaultAccountRow.
  rewrite default_row_fields;
    rewrite ?le_bytes_length, ?le_value_4; try reflexivity; lia.
Qed.

Lemma cleared_account_spec k v :
  account_entry_ok (k, Val v) = true ->
  account_row_cleared v (cleared_account v).
Proof.
  unfold account_entry_ok, account_row_cleared, cleared_account. cbn [fst snd].
  intros H. apply andb_true_iff in H. destruct H as [Hsz H].
  apply andb_true_iff in Hsz. destruct Hsz as [_ Hsz].
  unfold value_size_ok in Hsz. apply Z.ltb_lt in Hsz.
  destruct (deserializeAccountRow v) as [row| |] eqn:Ed; try discriminate.
  exists row. split; [reflexivity|].
  destruct (acctType row =? accountDefault) eqn:Et; [|reflexivity].
  destruct (deserializeDefaultAccountRow row) as [arow| |] eqn:Ea; try discriminate.
  pose proof (deserializeAccountRow_some _ _ Ed) as [Ht Hraw].
  assert (Hraw' : Z.of_nat (length (acct_rawData row)) < 2 ^ 31) by lia.
  pose proof (deserializeDefaultAccountRow_some _ _ Ea Hraw') as (_ & Hl & Hne & Hni).
  set (raw' := serializeDefaultAccountRow (pubKeyEncrypted arow) []
                 (nextExternalIndex arow) (nextInternalIndex arow) (name arow)).
  assert (Hlen' : Z.of_nat (length raw') + 5 < 2 ^ 32).
  { unfold raw', serializeDefaultAccountRow.
    rewrite !length_app, !le_bytes_length. cbn [length]. lia. }
  eexists arow, _, _. split; [reflexivity|].
  unfold with_acct_rawData. split.
  { apply serializeAccountRow_roundtrip; assumption. }
  split.
  { apply serializeDefaultAccountRow_roundtrip; cbn [length]; lia. }
  cbn [acctType pubKeyEncrypted privKeyEncrypted nextExternalIndex nextInternalIndex name].
  repeat split; reflexivity.
Qed.

(** Address rows *)

Lemma deserializeAddressRow_some v row :
  deserializeAddressRow v = Ok row ->
  0 <= addrType row < 256 /\ 0 <= account row < 2 ^ 32 /\
  0 <= addTime row < 2 ^ 64 /\ 0 <= syncStatus row < 256 /\
  Z.of_nat (length (rawData row)) + 18 <= Z.of_nat (length v).
Proof.
  unfold deserializeAddressRow.
  destruct (Z.of_nat (length v) <? 18) eqn:El; [discriminate|].
  apply Z.ltb_ge in El.
  destruct (slice v 18 _) as [d|] eqn:E; [|discriminate].
  intros [= <-]. cbn [addrType account addTime syncStatus rawData].
  apply slice_some in E. destruct E as (_ & H2 & H3 & H4 & _).
  split; [apply Z_of_byte_range|].
  split.
  { pose proof (le_value_range (firstn 4 (skipn 1 v))) as Hr.
    rewrite length_firstn, length_skipn in Hr.
    replace (Nat.min 4 (length v - 1)) with 4%nat in Hr by lia.
    change (256 ^ Z.of_nat 4) with (2 ^ 32) in Hr. exact Hr. }
  split.
  { pose proof (le_value_range (firstn 8 (skipn 5 v))) as Hr.
    rewrite length_firstn, length_skipn in Hr.
    replace (Nat.min 8 (length v - 5)) with 8%nat in Hr by lia.
    change (256 ^ Z.of_nat 8) with (2 ^ 64) in Hr. exact Hr. }
  split; [apply Z_of_byte_range|lia].
Qed.

Lemma le_value_8 x : 0 <= x < 2 ^ 64 -> le_value (le_bytes 8 x) = x.
Proof.
  intros H. rewrite le_value_bytes. apply Z.mod_small.
  change (256 ^ Z.of_nat 8) with (2 ^ 64). exact H.
Qed.

Lemma address_row_fields t X Y sy L raw :
  length X = 4%nat -> length Y = 8%nat -> length L = 4%nat ->
  le_value L = Z.of_nat (length raw) ->
  Z.of_nat (length raw) + 18 < 2 ^ 32 ->
  deserializeAddressRow (t :: X ++ Y ++ sy :: L ++ raw)
  = Ok {| addTime := le_value Y; rawData := raw; account := le_value X;
          syncStatus := Z_of_byte sy; addrType := Z_of_byte t |}.
Proof.
  intros HX HY HL VL Hlen.
  destruct X as [|x1 [|x2 [|x3 [|x4 [|]]]]]; try discriminate.
  destruct Y as [|y1 [|y2 [|y3 [|y4 [|y5 [|y6 [|y7 [|y8 [|]]]]]]]]]; try discriminate.
  destruct L as [|l1 [|l2 [|l3 [|l4 [|]]]]]; try discriminate.
  unfold deserializeAddressRow. cbn [app skipn nth].
  replace (Z.of_nat (length _) <? 18) with false.
  2:{ symmetry. apply Z.ltb_ge. cbn [length]. lia. }
  change (firstn 4 (l1 :: l2 :: l3 :: l4 :: raw)) with [l1; l2; l3; l4].
  change (firstn 4 (x1 :: _)) with [x1; x2; x3; x4].
  change (firstn 8 (y1 :: _)) with [y1; y2; y3; y4; y5; y6; y7; y8].
  rewrite VL.
  change (t :: x1 :: x2 :: x3 :: x4 :: y1 :: y2 :: y3 :: y4 :: y5 :: y6 :: y7 :: y8
            :: sy :: l1 :: l2 :: l3 :: l4 :: raw)
    with ([t; x1; x2; x3; x4; y1; y2; y3; y4; y5; y6; y7; y8; sy; l1; l2; l3; l4]
            ++ raw).
  rewrite (slice_end [t; x1; x2; x3; x4; y1; y2; y3; y4; y5; y6; y7; y8; sy;
                      l1; l2; l3; l4] raw 18 (u32 (18 + Z.of_nat (length raw)))).
  - reflexivity.
  - reflexivity.
  - rewrite u32_small by lia. reflexivity.
Qed.

Lemma serializeAddressRow_roundtrip row :
  0 <= addrType row < 256 -> 0 <= account row < 2 ^ 32 ->
  0 <= addTime row < 2 ^ 64 -> 0 <= syncStatus row < 256 ->
  Z.of_nat (length (rawData row)) + 18 < 2 ^ 32 ->
  deserializeAddressRow (serializeAddressRow row) = Ok row.
Proof.
  intros Ht Ha Hd Hs Hlen. unfold serializeAddressRow.
  rewrite address_row_fields;
    rewrite ?le_bytes_length, ?le_value_4, ?le_value_8, ?Z_of_byte_small;
    try reflexivity; try lia.
  destruct row; reflexivity.
Qed.

Lemma deserializeTwoFields_some raw msg f1 f2 :
  deserializeTwoFields raw msg = Ok (f1, f2) ->
  Z.of_nat (length raw) < 2 ^ 31 ->
  Z.of_nat (length f1) + 8 <= Z.of_nat (length raw).
Proof.
  unfold deserializeTwoFields. intros H Hlen.
  destruct (Z.of_nat (length raw) <? 8); [discriminate|].
  set (o1 := u32 (4 + le_value (firstn 4 raw))) in H.
  destruct (slice raw 4 o1) as [a|] eqn:E1; [|discriminate].
  destruct (Uint32_at raw o1) as [len2|] eqn:E2; [|discriminate].
  destruct (slice raw (u32 (o1 + 4)) (u32 (u32 (o1 + 4) + len2))) as [b|] eqn:E3;
    [|discriminate].
  injection H as <- <-.
  apply slice_some in E1. destruct E1 as (_ & a2 & a3 & a4 & _).
  apply Uint32_at_some in E2. destruct E2 as (_ & _ & b3 & _).
  assert (Ho2 : u32 (o1 + 4) = o1 + 4) by (apply u32_small; lia).
  lia.
Qed.

Lemma two_fields_parse A f1 C f2 msg :
  length A = 4%nat -> length C = 4%nat ->
  le_value A = Z.of_nat (length f1) -> le_value C = Z.of_nat (length f2) ->
  Z.of_nat (length f1) + Z.of_nat (length f2) + 8 < 2 ^ 32 ->
  deserializeTwoFields (A ++ f1 ++ C ++ f2) msg = Ok (f1, f2).
Proof.
  intros HA HC VA VC Hlen. unfold deserializeTwoFields.
  replace (Z.of_nat (length (A ++ f1 ++ C ++ f2)) <? 8) with false.
  2:{ symmetry. apply Z.ltb_ge. rewrite !length_app. lia. }
  rewrite firstn_prefix by exact HA. rewrite VA.
  rewrite (u32_small (4 + Z.of_nat (length f1))) by lia.
  rewrite (slice_mid A f1 _ 4 (4 + Z.of_nat (length f1))) by lia.
  cbv beta iota.
  rewrite (app_assoc A f1).
  rewrite (Uint32_at_field (A ++ f1) C _ (4 + Z.of_nat (length f1)))
    by (rewrite ?length_app; lia).
  cbv beta iota. rewrite VC.
  rewrite (u32_small (4 + Z.of_nat (length f1) + 4)) by lia.
  rewrite (u32_small (4 + Z.of_nat (length f1) + 4 + Z.of_nat (length f2))) by lia.
  rewrite (app_assoc (A ++ f1) C).
  rewrite (slice_end ((A ++ f1) ++ C) f2 (4 + Z.of_nat (length f1) + 4)
             (4 + Z.of_nat (length f1) + 4 + Z.of_nat (length f2)))
    by (rewrite ?length_app; lia).
  reflexivity.
Qed.

Lemma two_fields_cleared f1 msg :
  Z.of_nat (length f1) + 8 < 2 ^ 32 ->
  deserializeTwoFields
    (le_bytes 4 (Z.of_nat (length f1)) ++ f1 ++ le_bytes 4 (Z.of_nat 0) ++ []) msg
  = Ok (f1, []).
Proof.
  intros H. apply two_fields_parse;
    rewrite ?le_bytes_length, ?le_value_4; cbn [length]; try reflexivity; lia.
Qed.

Lemma cleared_address_spec k v :
  address_entry_ok (k, Val v) = true ->
  address_row_cleared v (cleared_address v).
Proof.
  unfold address_entry_ok, address_row_cleared, cleared_address.
  cbn [fst snd].
  intros H. apply andb_true_iff in H. destruct H as [Hsz H].
  apply andb_true_iff in Hsz. destruct Hsz as [_ Hsz].
  unfold value_size_ok in Hsz. apply Z.ltb_lt in Hsz.
  destruct (deserializeAddressRow v) as [row| |] eqn:Ed; try discriminate.
  exists row. split; [reflexivity|].
  pose proof (deserializeAddressRow_some _ _ Ed) as (Ht & Hac & Hti & Hsy & Hraw).
  destruct (addrType row =? adtImport) eqn:Et.
  - unfold deserializeImportedAddress in *.
    destruct (deserializeTwoFields (rawData row) _) as [[pub priv]| |] eqn:Ea;
      try discriminate.
    pose proof (deserializeTwoFields_some _ _ _ _ Ea ltac:(lia)) as Hl.
    cbn [encryptedPubKey].
    eexists _, _, _. split; [reflexivity|].
    split.
    { apply serializeAddressRow_roundtrip; unfold with_rawData;
        cbn [addrType account addTime syncStatus rawData]; try assumption.
      unfold serializeImportedAddress. rewrite !length_app, !le_bytes_length.
      cbn [length]. lia. }
    unfold with_rawData at 1. cbn [rawData]. unfold serializeImportedAddress.
    rewrite two_fields_cleared by lia.
    split; [reflexivity|].
    cbn [encryptedPubKey encryptedPrivKey].
    unfold same_address_header, with_rawData. cbn [addrType account addTime syncStatus].
    repeat split; reflexivity.
  - destruct (addrType row =? adtScript) eqn:Es; [|reflexivity].
    unfold deserializeScriptAddress in *.
    destruct (deserializeTwoFields (rawData row) _) as [[h sc]| |] eqn:Ea;
      try discriminate.
    pose proof (deserializeTwoFields_some _ _ _ _ Ea ltac:(lia)) as Hl.
    cbn [encryptedHash].
    eexists _, _, _. split; [reflexivity|].
    split.
    { apply serializeAddressRow_roundtrip; unfold with_rawData;
        cbn [addrType account addTime syncStatus rawData]; try assumption.
      unfold serializeScriptAddress. rewrite !length_app, !le_bytes_length.
      cbn [length]. lia. }
    unfold with_rawData at 1. cbn [rawData]. unfold serializeScriptAddress.
    rewrite two_fields_cleared by lia.
    split; [reflexivity|].
    cbn [encryptedHash encryptedScript].
    unfold same_address_header, with_rawData. cbn [addrType account addTime syncStatus].
    repeat split; reflexivity.
Qed.

(** *** The watching-only namespace, entry by entry *)

Lemma bytes_eqb_sym a b : bytes_eqb a b = bytes_eqb b a.
Proof.
  destruct (bytes_eqb a b) eqn:E.
  - apply bytes_eqb_eq in E. subst. symmetry. apply bytes_eqb_refl.
  - destruct (bytes_eqb b a) eqn:E'; [|reflexivity].
    apply bytes_eqb_eq in E'. subst. rewrite bytes_eqb_refl in E. discriminate.
Qed.

Lemma lookup_remove b k k' :
  lookup (remove b k) k' = if bytes_eqb k' k then None else lookup b k'.
Proof.
  destruct (bytes_eqb k' k) eqn:E.
  - apply bytes_eqb_eq in E. subst. apply lookup_remove_same.
  - apply lookup_remove_other. intros ->. rewrite bytes_eqb_refl in E. discriminate.
Qed.

Lemma lookup_replace b k n m k' :
  lookup b k = Some m ->
  lookup (replace b k n) k' = if bytes_eqb k' k then Some n else lookup b k'.
Proof.
  intros H. destruct (bytes_eqb k' k) eqn:E.
  - apply bytes_eqb_eq in E. subst. eapply lookup_replace_same. exact H.
  - apply lookup_replace_other. intros ->. rewrite bytes_eqb_refl in E. discriminate.
Qed.

Lemma lookup_cleared_main m k :
  lookup (cleared_main m) k
  = if existsb (bytes_eqb k) private_main_keys then None else lookup m k.
Proof.
  unfold cleared_main. rewrite !lookup_remove. cbn [existsb private_main_keys].
  destruct (bytes_eqb k masterPrivKeyName), (bytes_eqb k cryptoPrivKeyName),
    (bytes_eqb k cryptoScriptKeyName), (bytes_eqb k masterHDPrivName); reflexivity.
Qed.

Lemma existsb_bytes_In k l : existsb (bytes_eqb k) l = true <-> In k l.
Proof.
  rewrite existsb_exists. split.
  - intros (x & Hin & E). apply bytes_eqb_eq in E. subst. exact Hin.
  - intros Hin. exists k. split; [exact Hin|apply bytes_eqb_refl].
Qed.

Lemma lookup_watching_only ns m sb k :
  lookup ns mainBucketName = Some (Sub m) ->
  lookup ns scopeBucketName = Some (Sub sb) ->
  lookup (watching_only ns) k
  = if bytes_eqb k scopeBucketName
    then Some (Sub (map_entries cleared_scope_entry sb))
    else if bytes_eqb k mainBucketName then Some (Sub (cleared_main m))
    else lookup ns k.
Proof.
  intros Hm Hs. unfold watching_only.
  rewrite (update_at_child ns _ _ cleared_main Hm).
  assert (Hs1 : lookup (replace ns mainBucketName (Sub (cleared_main m)))
                  scopeBucketName = Some (Sub sb)).
  { rewrite (lookup_replace _ _ _ _ _ Hm). exact Hs. }
  rewrite (update_at_child _ _ _ _ Hs1).
  rewrite (lookup_replace _ _ _ _ _ Hs1), (lookup_replace _ _ _ _ _ Hm).
  reflexivity.
Qed.

Lemma lookup_cleared_scope mb ab db k :
  lookup mb acctBucketName = Some (Sub ab) ->
  lookup mb addrBucketName = Some (Sub db) ->
  lookup (cleared_scope mb) k
  = if bytes_eqb k addrBucketName
    then Some (Sub (map_entries (on_value cleared_address) db))
    else if bytes_eqb k acctBucketName
    then Some (Sub (map_entries (on_value cleared_account) ab))
    else if bytes_eqb k coinTypePrivKeyName then None
    else lookup mb k.
Proof.
  intros Ha Hd. unfold cleared_scope.
  assert (Ha1 : lookup (remove mb coinTypePrivKeyName) acctBucketName = Some (Sub ab)).
  { rewrite lookup_remove. exact Ha. }
  rewrite (update_at_child _ _ _ _ Ha1).
  assert (Hd1 : lookup (replace (remove mb coinTypePrivKeyName) acctBucketName
                          (Sub (map_entries (on_value cleared_account) ab)))
                  addrBucketName = Some (Sub db)).
  { rewrite (lookup_replace _ _ _ _ _ Ha1), lookup_remove. exact Hd. }
  rewrite (update_at_child _ _ _ _ Hd1).
  rewrite (lookup_replace _ _ _ _ _ Hd1), (lookup_replace _ _ _ _ _ Ha1), lookup_remove.
  reflexivity.
Qed.

Lemma entry_rel_cleared_accounts ab k :
  forallb account_entry_ok ab = true ->
  entry_rel account_row_cleared (lookup ab k)
    (lookup (map_entries (on_value cleared_account) ab) k).
Proof.
  intros Hok. rewrite lookup_map_entries.
  destruct (lookup ab k) as [[v|c]|] eqn:E; cbn [option_map on_value entry_rel]; auto.
  apply (cleared_account_spec k). apply (forallb_In _ _ _ Hok).
  apply lookup_in. exact E.
Qed.

Lemma entry_rel_cleared_addresses db k :
  forallb address_entry_ok db = true ->
  entry_rel address_row_cleared (lookup db k)
    (lookup (map_entries (on_value cleared_address) db) k).
Proof.
  intros Hok. rewrite lookup_map_entries.
  destruct (lookup db k) as [[v|c]|] eqn:E; cbn [option_map on_value entry_rel]; auto.
  apply (cleared_address_spec k). apply (forallb_In _ _ _ Hok).
  apply lookup_in. exact E.
Qed.

Lemma eqb_name_false k name : k <> name -> bytes_eqb k name = false.
Proof. intros H. apply bytes_eqb_neq. exact H. Qed.

(** C3. On a version-5 namespace deletePrivateKeys returns without error
    and leaves a namespace in which: the main bucket has lost the master
    private key parameters, the crypto private and script keys and the
    master HD private key, and nothing else; every scope bucket (8-byte
    key of the scope bucket) has lost its coin-type private key; every
    default account row reads back with the same public key, next
    indexes and name and an empty private key; every imported address row
    reads back with the same header and public key and an empty private
    key; every script address row reads back with the same header and
    script hash and an empty script; every other row, every other entry
    of a scope (coin-type public key, indexes, meta) and every other
    top-level entry is what it was. *)
Theorem deletePrivateKeys_clears_private_material ns :
  v5_namespace ns = true ->
  exists ns',
    deletePrivateKeys ns_root ns = (Ok tt, ns') /\
    (forall k, In k private_main_keys -> at_path ns' [mainBucketName] k = None) /\
    (forall k, ~ In k private_main_keys ->
       at_path ns' [mainBucketName] k = at_path ns [mainBucketName] k) /\
    (forall k, k <> mainBucketName -> k <> scopeBucketName ->
       lookup ns' k = lookup ns k) /\
    (forall sk, length sk <> 8%nat ->
       at_path ns' [scopeBucketName] sk = at_path ns [scopeBucketName] sk) /\
    (forall sk, length sk = 8%nat ->
       at_path ns' [scopeBucketName; sk] coinTypePrivKeyName = None /\
       (forall k, k <> coinTypePrivKeyName -> k <> acctBucketName ->
          k <> addrBucketName ->
          at_path ns' [scopeBucketName; sk] k = at_path ns [scopeBucketName; sk] k) /\
       (forall k,
          entry_rel account_row_cleared
            (at_path ns [scopeBucketName; sk; acctBucketName] k)
            (at_path ns' [scopeBucketName; sk; acctBucketName] k)) /\
       (forall k,
          entry_rel address_row_cleared
            (at_path ns [scopeBucketName; sk; addrBucketName] k)
            (at_path ns' [scopeBucketName; sk; addrBucketName] k))).
Proof.
  intros Hok. exists (watching_only ns).
  split; [apply deletePrivateKeys_refines; exact Hok|].
  unfold v5_namespace in Hok.
  destruct (lookup ns mainBucketName) as [[?|m]|] eqn:Emain; try discriminate.
  destruct (lookup ns scopeBucketName) as [[?|sb]|] eqn:Escope; try discriminate.
  apply andb_true_iff in Hok. destruct Hok as [_ Hsbok].
  pose proof (fun k => lookup_watching_only ns m sb k Emain Escope) as HW.
  assert (Hmain' : get_bucket (watching_only ns) [mainBucketName] = Some (cleared_main m)).
  { cbn [get_bucket]. rewrite HW. reflexivity. }
  assert (Hscope' : lookup (watching_only ns) scopeBucketName
                    = Some (Sub (map_entries cleared_scope_entry sb))).
  { rewrite HW. reflexivity. }
  split; [|split; [|split; [|split]]].
  - intros k Hin. unfold at_path. rewrite Hmain', lookup_cleared_main.
    apply existsb_bytes_In in Hin. rewrite Hin. reflexivity.
  - intros k Hin. unfold at_path. rewrite Hmain'. cbn [get_bucket]. rewrite Emain.
    rewrite lookup_cleared_main.
    destruct (existsb (bytes_eqb k) private_main_keys) eqn:E; [|reflexivity].
    apply existsb_bytes_In in E. contradiction.
  - intros k H1 H2. rewrite HW, (eqb_name_false _ _ H1), (eqb_name_false _ _ H2).
    reflexivity.
  - intros sk Hlen. unfold at_path. cbn [get_bucket]. rewrite Hscope', Escope.
    rewrite lookup_map_entries. unfold cleared_scope_entry.
    apply Nat.eqb_neq in Hlen. rewrite Hlen.
    destruct (lookup sb sk); reflexivity.
  - intros sk Hlen. unfold at_path. cbn [get_bucket]. rewrite Hscope', Escope.
    rewrite lookup_map_entries. unfold cleared_scope_entry.
    pose proof Hlen as Hlen'. apply Nat.eqb_eq in Hlen'. rewrite Hlen'.
    destruct (lookup sb sk) as [[v|mb]|] eqn:Esk; cbn [option_map];
      try (repeat split; intros; exact I).
    assert (Hmb : scope_entry_ok (sk, Sub mb) = true).
    { apply (forallb_In _ _ _ Hsbok). apply lookup_in. exact Esk. }
    unfold scope_entry_ok in Hmb. cbn [fst snd] in Hmb. rewrite Hlen' in Hmb.
    unfold scope_ok in Hmb. apply andb_true_iff in Hmb. destruct Hmb as [_ Hmb].
    destruct (lookup mb acctBucketName) as [[?|ab]|] eqn:Eacct; try discriminate.
    destruct (lookup mb addrBucketName) as [[?|db]|] eqn:Eaddr; try discriminate.
    apply andb_true_iff in Hmb. destruct Hmb as [Hmb Hdbok].
    apply andb_true_iff in Hmb. destruct Hmb as [Hmb _].
    apply andb_true_iff in Hmb. destruct Hmb as [_ Habok].
    pose proof (fun k => lookup_cleared_scope mb ab db k Eacct Eaddr) as HS.
    split; [|split; [|split]].
    + rewrite HS. reflexivity.
    + intros k H1 H2 H3. rewrite HS.
      rewrite (eqb_name_false _ _ H1), (eqb_name_false _ _ H2), (eqb_name_false _ _ H3).
      reflexivity.
    + intros k. rewrite HS. cbn [bytes_eqb].
      change (bytes_eqb acctBucketName addrBucketName) with false.
      rewrite bytes_eqb_refl.
      apply entry_rel_cleared_accounts. exact Habok.
    + intros k. rewrite HS, bytes_eqb_refl.
      apply entry_rel_cleared_addresses. exact Hdbok.
Qed.

Lemma deletePrivateKeys_clears_private_material_witness :
  v5_namespace example_v5 = true /\
  exists ns',
    deletePrivateKeys ns_root example_v5 = (Ok tt, ns') /\
    at_path ns' [mainBucketName] masterPrivKeyName = None /\
    at_path ns' [scopeBucketName; scopeToBytes KeyScopeBIP0044] coinTypePrivKeyName = None /\
    entry_rel account_row_cleared
      (at_path example_v5
         [scopeBucketName; scopeToBytes KeyScopeBIP0044; acctBucketName] (uint32ToBytes 0))
      (at_path ns'
         [scopeBucketName; scopeToBytes KeyScopeBIP0044; acctBucketName] (uint32ToBytes 0)).
Proof.
  assert (Hok : v5_namespace example_v5 = true) by (vm_compute; reflexivity).
  split; [exact Hok|].
  destruct (deletePrivateKeys_clears_private_material example_v5 Hok)
    as (ns' & Hrun & Hmain & _ & _ & _ & Hscope).
  destruct (Hscope (scopeToBytes KeyScopeBIP0044) eq_refl) as (Hct & _ & Hacct & _).
  exists ns'. split; [exact Hrun|]. split; [|split].
  - apply Hmain. left. reflexivity.
  - exact Hct.
  - apply Hacct.
Defined.

End DeleteFacts.

(* ===================================================================== *)
(** ** upgradeToVersion5 *)
(* ===================================================================== *)

Module UpgradeFacts.
Import Walletdb Waddrmgr WaddrmgrSpec WalletdbFacts DeleteFacts.

(** *** Paths that diverge *)

Lemma diverge_sym p q : diverge p q = diverge q p.
Proof.
  revert q. induction p as [|a p IH]; intros [|b q]; cbn [diverge]; try reflexivity.
  rewrite (bytes_eqb_sym b a). rewrite IH. reflexivity.
Qed.

Lemma diverge_app p q r t : diverge p q = true -> diverge (p ++ r) (q ++ t) = true.
Proof.
  revert q. induction p as [|a p IH]; intros [|b q]; cbn [diverge app]; try discriminate.
  destruct (bytes_eqb a b); [apply IH|reflexivity].
Qed.

Lemma get_update_diverge root p q f :
  diverge p q = true -> get_bucket (update_at root p f) q = get_bucket root q.
Proof.
  revert root q. induction p as [|a p IH]; intros root [|b q]; cbn [diverge];
    try discriminate.
  intros Hd. cbn [update_at].
  destruct (lookup root a) as [[v|c]|] eqn:Ea; try reflexivity.
  cbn [get_bucket]. rewrite (lookup_replace _ _ _ _ _ Ea).
  rewrite (bytes_eqb_sym b a).
  destruct (bytes_eqb a b) eqn:E; [|reflexivity].
  apply bytes_eqb_eq in E. subst b. rewrite Ea. apply IH. exact Hd.
Qed.

Lemma update_diverge_comm root p q f g :
  diverge p q = true ->
  update_at (update_at root p f) q g = update_at (update_at root q g) p f.
Proof.
  revert root q. induction p as [|a p IH]; intros root [|b q]; cbn [diverge];
    try discriminate.
  intros Hd.
  destruct (bytes_eqb a b) eqn:E.
  - apply bytes_eqb_eq in E. subst b. cbn [update_at].
    destruct (lookup root a) as [[v|c]|] eqn:Ea; cbn [update_at]; rewrite ?Ea;
      try reflexivity.
    rewrite !(lookup_replace_same _ _ _ _ Ea), !replace_replace.
    rewrite (IH c q Hd). reflexivity.
  - assert (Hab : a <> b) by (apply bytes_eqb_false; exact E).
    cbn [update_at].
    destruct (lookup root a) as [[v|c]|] eqn:Ea;
      destruct (lookup root b) as [[w|e]|] eqn:Eb; cbn [update_at];
      rewrite ?Ea, ?Eb;
      rewrite ?(lookup_replace_other _ _ _ _ Hab),
              ?(lookup_replace_other _ _ _ _ (not_eq_sym Hab)), ?Ea, ?Eb;
      try reflexivity.
    apply replace_comm. exact Hab.
Qed.

Lemma update_at_ext_all root p f g :
  (forall b, f b = g b) -> update_at root p f = update_at root p g.
Proof.
  intros H. revert root. induction p as [|k p IH]; intros root; cbn [update_at].
  - apply H.
  - destruct (lookup root k) as [[v|c]|]; try reflexivity. rewrite IH. reflexivity.
Qed.

Lemma get_bucket_snoc root p k c :
  get_bucket root (p ++ [k]) = Some c ->
  exists b, get_bucket root p = Some b /\ lookup b k = Some (Sub c).
Proof.
  rewrite get_bucket_app. destruct (get_bucket root p) as [b|]; [|discriminate].
  cbn [get_bucket]. destruct (lookup b k) as [[v|c']|] eqn:E; try discriminate.
  intros [= <-]. exists b. split; [reflexivity|exact E].
Qed.

(** *** One bucket, continued *)

Lemma remove_replace b k n : remove (replace b k n) k = remove b k.
Proof.
  induction b as [|[k1 m] t IH]; [reflexivity|].
  cbn [replace]. destruct (bytes_eqb k1 k) eqn:E.
  - cbn [remove filter fst]. rewrite bytes_eqb_refl, E. reflexivity.
  - cbn [remove filter fst]. rewrite E. cbn [negb]. fold (remove (replace t k n) k).
    fold (remove t k). rewrite IH. reflexivity.
Qed.

Lemma remove_notin b k : ~ In k (keys b) -> remove b k = b.
Proof.
  induction b as [|[k1 m] t IH]; intros H; [reflexivity|].
  cbn [remove filter fst]. destruct (bytes_eqb k1 k) eqn:E.
  - apply bytes_eqb_eq in E. exfalso. apply H. left. exact E.
  - cbn [negb]. fold (remove t k). rewrite IH; [reflexivity|].
    intros K. apply H. right. exact K.
Qed.

Lemma remove_head k n t : ~ In k (keys t) -> remove ((k, n) :: t) k = t.
Proof.
  intros H. cbn [remove filter fst]. rewrite bytes_eqb_refl. cbn [negb].
  apply remove_notin. exact H.
Qed.

Lemma replace_insert b k x y :
  lookup b k = None -> replace (insert_sorted b k x) k y = insert_sorted b k y.
Proof.
  induction b as [|[k1 m] t IH]; intros H.
  - cbn [insert_sorted replace]. rewrite bytes_eqb_refl. reflexivity.
  - rewrite lookup_cons in H. destruct (bytes_eqb k1 k) eqn:E; [discriminate|].
    cbn [insert_sorted]. destruct (bytes_compare k k1); cbn [replace].
    + rewrite E, IH by exact H. reflexivity.
    + rewrite bytes_eqb_refl. reflexivity.
    + rewrite E, IH by exact H. reflexivity.
Qed.

Lemma replace_put b k x y : replace (put b k x) k y = put b k y.
Proof.
  unfold put. destruct (lookup b k) eqn:E.
  - apply replace_replace.
  - apply replace_insert. exact E.
Qed.

Lemma lookup_put b k n k' :
  lookup (put b k n) k' = if bytes_eqb k' k then Some n else lookup b k'.
Proof.
  destruct (bytes_eqb k' k) eqn:E.
  - apply bytes_eqb_eq in E. subst. apply lookup_put_same.
  - apply lookup_put_other. intros ->. rewrite bytes_eqb_refl in E. discriminate.
Qed.

Lemma update_child_put b k N :
  update_at (put b k (Sub [])) [k] (fun _ => N) = put b k (Sub N).
Proof.
  cbn [update_at]. rewrite lookup_put_same. apply replace_put.
Qed.

Lemma remove_update_child b k h : remove (update_at b [k] h) k = remove b k.
Proof.
  cbn [update_at]. destruct (lookup b k) as [[v|c]|]; try reflexivity.
  apply remove_replace.
Qed.

Lemma bind_step {A B} (m : tx A) (k : A -> tx B) root a root' r :
  m root = (Ok a, root') -> k a root' = r -> bind m k root = r.
Proof. intros H1 H2. unfold bind. rewrite H1. exact H2. Qed.

Lemma bind_err {A B} (m : tx A) (k : A -> tx B) root e root' :
  m root = (Err e, root') -> bind m k root = (Err e, root').
Proof. intros H. unfold bind. rewrite H. reflexivity. Qed.

Lemma CreateBucketIfNotExists_fresh p key root b :
  get_bucket root p = Some b -> is_nil key = false ->
  lookup b key = None \/ lookup b key = Some (Sub []) ->
  CreateBucketIfNotExists (Some p) key root
  = (Ok (Some (p ++ [key])), update_at root p (fun b => put b key (Sub []))).
Proof.
  intros Hget Hk Hl. unfold CreateBucketIfNotExists.
  rewrite (on_bucket_some _ _ _ _ Hget), Hk.
  destruct Hl as [Hl|Hl]; rewrite Hl; [reflexivity|].
  unfold ret. f_equal. symmetry. eapply update_at_id; [exact Hget|].
  rewrite (put_existing _ _ _ _ Hl). apply replace_same. exact Hl.
Qed.

(** *** migrateRecursively *)

Definition migrate_post (fuel : nat) : Prop :=
  forall s d key root kb db,
    migratable fuel kb = true ->
    get_bucket root (s ++ [key]) = Some kb ->
    get_bucket root d = Some db ->
    lookup db key = None \/ lookup db key = Some (Sub []) ->
    is_nil key = false ->
    diverge (s ++ [key]) d = true ->
    migrateRecursively fuel (Some s) (Some d) key root
    = (Ok tt, update_at
                (update_at root d (fun b => put b key (Sub (rebuilt fuel kb))))
                s (fun b => remove b key)).

Section Loop.

Variable fuel' : nat.
Hypothesis IH : migrate_post fuel'.
Variables s' d' : path.
Variable root1 : bucket.
Hypothesis Hdiv : diverge s' d' = true.
Hypothesis Hs : exists x, get_bucket root1 s' = Some x.
Hypothesis Hd : exists y, get_bucket root1 d' = Some y.

(** The namespace while the entries [rest] are still to be moved and the
    new bucket holds [N]. *)
Let moving (N rest : bucket) : bucket :=
  update_at (update_at root1 d' (fun _ => N)) s' (fun _ => rest).

Lemma moving_src N rest : get_bucket (moving N rest) s' = Some rest.
Proof.
  unfold moving. destruct Hs as [x Hx].
  eapply (get_update_same _ s' (fun _ => rest)).
  rewrite get_update_diverge by (rewrite diverge_sym; exact Hdiv). exact Hx.
Qed.

Lemma moving_dst N rest : get_bucket (moving N rest) d' = Some N.
Proof.
  unfold moving. destruct Hd as [y Hy].
  rewrite get_update_diverge by exact Hdiv.
  exact (get_update_same _ d' (fun _ => N) _ Hy).
Qed.

Lemma moving_put N rest g : update_at (moving N rest) d' g = moving (g N) rest.
Proof.
  unfold moving. rewrite <- update_diverge_comm by (rewrite diverge_sym; exact Hdiv).
  rewrite update_update. reflexivity.
Qed.

Lemma moving_del N rest h : update_at (moving N rest) s' h = moving N (h rest).
Proof. unfold moving. rewrite update_update. reflexivity. Qed.

Lemma migrate_loop : forall rest N,
  NoDup (keys rest) ->
  forallb (fun e =>
             negb (is_nil (fst e)) &&
             match snd e with
             | Val _ => true
             | Sub c => migratable fuel' c
             end) rest = true ->
  (forall k, In k (keys rest) -> lookup N k = None) ->
  for_entries rest
    (fun k v =>
       nestedBucket <- NestedReadBucket (Some s') k ;;
       match nestedBucket with
       | Some _ => migrateRecursively fuel' (Some s') (Some d') k
       | None => Put (Some d') k (slice_bytes v) ;;; Delete (Some s') k
       end) (moving N rest)
  = (Ok tt,
     moving
       (fold_left
          (fun acc e =>
             put acc (fst e)
               match snd e with
               | Val v => Val v
               | Sub c => Sub (rebuilt fuel' c)
               end) rest N) []).
Proof.
  induction rest as [|[k n] t IHt]; intros N Hnd Hok Hfresh.
  - reflexivity.
  - cbn [forallb fst snd] in Hok.
    apply andb_true_iff in Hok. destruct Hok as [Hkn Hok].
    apply andb_true_iff in Hkn. destruct Hkn as [Hk Hn].
    apply negb_true_iff in Hk.
    cbn [keys map fst] in Hnd. inversion Hnd as [|? ? Hnotin Hnd']. subst.
    assert (Hlk : lookup ((k, n) :: t) k = Some n)
      by (rewrite lookup_cons, bytes_eqb_refl; reflexivity).
    assert (HNk : lookup N k = None) by (apply Hfresh; left; reflexivity).
    cbn [for_entries].
    assert (Hnext : forall X,
              (forall k', In k' (keys t) -> lookup (put N k X) k' = None)).
    { intros X k' Hin. rewrite lookup_put_other; [apply Hfresh; right; exact Hin|].
      intros ->. contradiction. }
    destruct n as [v|c].
    + (* a value: put it into the new bucket, delete it from the old one *)
      pose proof (IHt (put N k (Val v)) Hnd' Hok (Hnext _)) as HN'.
      cbn [fold_left fst snd].
      eapply bind_step.
      { eapply bind_step.
        { unfold NestedReadBucket.
          eapply Nested_not_sub; [apply moving_src|].
          intros c. rewrite Hlk. discriminate. }
        cbv beta iota. eapply bind_step.
        { eapply Put_ok; [apply moving_dst| |].
          - intros ->. discriminate.
          - intros c. rewrite HNk. discriminate. }
        rewrite moving_put.
        eapply Delete_ok; [apply moving_src|].
        intros c. rewrite Hlk. discriminate. }
      rewrite moving_del, (remove_head _ _ _ Hnotin). exact HN'.
    + (* a nested bucket: recurse *)
      assert (Hdiv' : diverge (s' ++ [k]) d' = true).
      { rewrite <- (app_nil_r d'). apply diverge_app. exact Hdiv. }
      pose proof (IH s' d' k (moving N ((k, Sub c) :: t)) c N Hn
                    (get_bucket_child _ _ _ _ _ (moving_src _ _) Hlk)
                    (moving_dst _ _) (or_introl HNk) Hk Hdiv') as HM.
      pose proof (IHt (put N k (Sub (rebuilt fuel' c))) Hnd' Hok (Hnext _)) as HN'.
      cbn [fold_left fst snd].
      eapply bind_step.
      { eapply bind_step.
        { unfold NestedReadBucket.
          eapply Nested_sub; [apply moving_src|exact Hlk]. }
        cbv beta iota. exact HM. }
      rewrite moving_put, moving_del, (remove_head _ _ _ Hnotin). exact HN'.
Qed.

End Loop.

Lemma migrateRecursively_moves : forall fuel, migrate_post fuel.
Proof.
  induction fuel as [|fuel' IH]; intros s d key root kb db Hm Hkb Hdb Hfresh Hkey Hdiv.
  - discriminate.
  - cbn [migratable] in Hm. apply andb_true_iff in Hm. destruct Hm as [Hnd Hok].
    destruct (get_bucket_snoc _ _ _ _ Hkb) as (sb & Hsb & Hlk).
    set (root1 := update_at root d (fun b => put b key (Sub []))).
    assert (Hdiv' : diverge (s ++ [key]) (d ++ [key]) = true).
    { rewrite <- (app_nil_r (s ++ [key])). apply diverge_app. exact Hdiv. }
    assert (Hd1 : get_bucket root1 (d ++ [key]) = Some []).
    { eapply get_bucket_child.
      - exact (get_update_same root d (fun b => put b key (Sub [])) _ Hdb).
      - apply lookup_put_same. }
    assert (Hs1 : get_bucket root1 (s ++ [key]) = Some kb).
    { unfold root1. rewrite get_update_diverge by (rewrite diverge_sym; exact Hdiv).
      exact Hkb. }
    pose proof (migrate_loop fuel' IH (s ++ [key]) (d ++ [key]) root1 Hdiv'
                  (ex_intro _ _ Hs1) (ex_intro _ _ Hd1) kb []
                  (distinct_NoDup _ Hnd) Hok (fun k _ => eq_refl)) as HN.
    cbv beta in HN.
    change (fold_left _ kb []) with (rebuilt (S fuel') kb) in HN.
    set (N := rebuilt (S fuel') kb) in *.
    assert (Hstart : update_at (update_at root1 (d ++ [key]) (fun _ => []))
                       (s ++ [key]) (fun _ => kb) = root1).
    { rewrite (update_at_id root1 (d ++ [key]) (fun _ => []) _ Hd1 eq_refl).
      apply (update_at_id root1 (s ++ [key]) (fun _ => kb) _ Hs1 eq_refl). }
    rewrite Hstart in HN.
    set (rootN := update_at (update_at root1 (d ++ [key]) (fun _ => N))
                    (s ++ [key]) (fun _ => [])) in HN.
    assert (HsN : get_bucket rootN (s ++ [key]) = Some []).
    { unfold rootN. apply (get_update_same _ (s ++ [key]) (fun _ => [])) with (b := kb).
      rewrite get_update_diverge by (rewrite diverge_sym; exact Hdiv'). exact Hs1. }
    destruct (get_bucket_snoc _ _ _ _ HsN) as (sbN & HsbN & HlkN).
    cbn [migrateRecursively].
    eapply bind_step.
    { eapply Nested_sub; [exact Hsb|exact Hlk]. }
    cbv beta. eapply bind_step.
    { eapply CreateBucketIfNotExists_fresh; [exact Hdb|exact Hkey|exact Hfresh]. }
    cbv beta. fold root1. eapply bind_step.
    { unfold ForEach. rewrite (on_bucket_some _ _ _ _ Hs1). exact HN. }
    cbv beta. refine (eq_trans (DeleteNestedBucket_ok _ _ _ _ _ HsbN HlkN) _). f_equal.
    unfold rootN, root1.
    rewrite (update_at_app _ s [key]), update_update.
    rewrite (update_at_app _ d [key]), update_update.
    rewrite (update_at_ext_all _ s _ (fun b => remove b key))
      by (intros b; apply remove_update_child).
    f_equal. apply update_at_ext_all. intros b. apply update_child_put.
Qed.

(** *** The check of the address rows *)

Lemma check_rows ab root :
  forallb is_address_row ab = true ->
  for_entries ab
    (fun k v =>
       row <- lift (deserializeAddressRow (slice_bytes v)) ;;
       if addrType row >? adtScript then fail segwit_error else ret tt) root
  = (if existsb beyond_script ab then Err segwit_error else Ok tt, root).
Proof.
  induction ab as [|[k n] t IH]; intros Hok; [reflexivity|].
  cbn [forallb] in Hok. apply andb_true_iff in Hok. destruct Hok as [Hrow Hok].
  cbn [for_entries existsb].
  unfold is_address_row in Hrow. unfold beyond_script at 1.
  unfold row_type in *. cbn [snd] in *.
  destruct (deserializeAddressRow (slice_bytes (entry_value n))) as [row| |];
    try discriminate.
  unfold bind at 1. unfold bind at 1. cbn [lift]. unfold ret at 1.
  destruct (addrType row >? adtScript); cbn [orb].
  - reflexivity.
  - unfold ret at 1. apply IH. exact Hok.
Qed.

(** *** Lookups in a namespace that has been updated *)

Lemma lookup_update_at root k0 p f k :
  lookup (update_at root (k0 :: p) f) k
  = if bytes_eqb k k0
    then match lookup root k0 with
         | Some (Sub b) => Some (Sub (update_at b p f))
         | o => o
         end
    else lookup root k.
Proof.
  cbn [update_at]. destruct (lookup root k0) as [[v|c]|] eqn:E.
  - destruct (bytes_eqb k k0) eqn:Ek; [|reflexivity].
    apply bytes_eqb_eq in Ek. subst. exact E.
  - apply (lookup_replace _ _ _ _ _ E).
  - destruct (bytes_eqb k k0) eqn:Ek; [|reflexivity].
    apply bytes_eqb_eq in Ek. subst. exact E.
Qed.

Lemma update_at_nil root f : update_at root [] f = f root.
Proof. reflexivity. Qed.

Lemma lookup_nil k : lookup [] k = None.
Proof. reflexivity. Qed.

Ltac eval_names :=
  repeat match goal with
         | |- context [bytes_eqb ?a ?b] =>
             let r := eval vm_compute in (bytes_eqb a b) in
             match r with
             | true => change (bytes_eqb a b) with true
             | false => change (bytes_eqb a b) with false
             end
         end.

Ltac look_step :=
  first [ rewrite lookup_update_at
        | rewrite lookup_put
        | rewrite lookup_remove
        | rewrite update_at_nil
        | rewrite lookup_nil
        | progress eval_names
        | progress cbv beta iota
        | match goal with
          | H : lookup ?b ?k = _ |- context [lookup ?b ?k] => rewrite H
          end ].

Ltac look := repeat look_step.

Lemma Put_value p key value root b :
  get_bucket root p = Some b -> is_nil key = false -> not_bucket b key = true ->
  Put (Some p) key value root
  = (Ok tt, update_at root p (fun b => put b key (Val value))).
Proof.
  intros Hget Hk Hb. apply (Put_ok p key value root b Hget).
  - intros ->. discriminate.
  - apply not_bucket_spec. exact Hb.
Qed.

Lemma Delete_value p key root b :
  get_bucket root p = Some b -> not_bucket b key = true ->
  Delete (Some p) key root = (Ok tt, update_at root p (fun b => remove b key)).
Proof.
  intros Hget Hb. apply (Delete_ok p key root b Hget).
  apply not_bucket_spec. exact Hb.
Qed.

Lemma CreateBucket_new p key root b :
  get_bucket root p = Some b -> is_nil key = false -> lookup b key = None ->
  CreateBucket (Some p) key root
  = (Ok (Some (p ++ [key])), update_at root p (fun b => put b key (Sub []))).
Proof.
  intros Hget Hk Hb. apply (CreateBucket_ok p key root b Hget); [|exact Hb].
  intros ->. discriminate.
Qed.

Lemma slice_get (o : option node) :
  slice_bytes (match o with Some (Val v) => Some v | _ => None end)
  = match o with Some (Val v) => v | _ => [] end.
Proof. destruct o as [[v|c]|]; reflexivity. Qed.

Ltac side := cbn [get_bucket app]; look; try reflexivity.

Ltac created :=
  eapply bind_step;
  [ eapply wrap_err_ok; eapply CreateBucket_new;
    [ side | reflexivity | unfold bip44; side ]
  | cbv beta ].

(** createScopedManagerNS on a scope bucket that has no entry of the scope. *)
Lemma createScopedManagerNS_creates p scope root b :
  get_bucket root p = Some b -> lookup b (scopeToBytes scope) = None ->
  createScopedManagerNS (Some p) scope root
  = (Ok tt,
     update_at
       (update_at root p (fun b => put b (scopeToBytes scope) (Sub [])))
       (p ++ [scopeToBytes scope])
       (fun b =>
          put (put (put (put (put (put (put b
            acctBucketName (Sub []))
            addrBucketName (Sub []))
            usedAddrBucketName (Sub []))
            addrAcctIdxBucketName (Sub []))
            acctNameIdxBucketName (Sub []))
            acctIDIdxBucketName (Sub []))
            metaBucketName (Sub []))).
Proof.
  intros Hget Hfree. unfold createScopedManagerNS.
  eapply bind_step.
  { eapply wrap_err_ok. eapply CreateBucket_new; [exact Hget| |exact Hfree].
    unfold scopeToBytes. destruct (le_bytes 4 (Purpose scope)) eqn:E; [|reflexivity].
    apply (f_equal (@length byte)) in E. rewrite le_bytes_length in E. discriminate. }
  cbv beta.
  set (root1 := update_at root p (fun b => put b (scopeToBytes scope) (Sub []))).
  set (q := p ++ [scopeToBytes scope]).
  assert (Hq : get_bucket root1 q = Some []).
  { eapply get_bucket_child.
    - exact (get_update_same root p _ _ Hget).
    - apply lookup_put_same. }
  assert (Hstep : forall (f : bucket -> bucket) name,
            is_nil name = false -> lookup (f []) name = None ->
            CreateBucket (Some q) name (update_at root1 q f)
            = (Ok (Some (q ++ [name])),
               update_at root1 q (fun b => put (f b) name (Sub [])))).
  { intros f name Hn Hl.
    refine (eq_trans (CreateBucket_new q name (update_at root1 q f) (f [])
                        (get_update_same root1 q f _ Hq) Hn Hl) _).
    rewrite update_update. reflexivity. }
  eapply bind_step.
  { eapply wrap_err_ok.
    rewrite <- (update_at_id root1 q (fun b => b) _ Hq eq_refl) at 1.
    apply (Hstep (fun b => b)); reflexivity. }
  cbv beta. eapply bind_step.
  { eapply wrap_err_ok. apply Hstep; [reflexivity|look; reflexivity]. }
  cbv beta. eapply bind_step.
  { eapply wrap_err_ok. apply Hstep; [reflexivity|look; reflexivity]. }
  cbv beta. eapply bind_step.
  { eapply wrap_err_ok. apply Hstep; [reflexivity|look; reflexivity]. }
  cbv beta. eapply bind_step.
  { eapply wrap_err_ok. apply Hstep; [reflexivity|look; reflexivity]. }
  cbv beta. eapply bind_step.
  { eapply wrap_err_ok. apply Hstep; [reflexivity|look; reflexivity]. }
  cbv beta. eapply bind_step.
  { eapply wrap_err_ok. apply Hstep; [reflexivity|look; reflexivity]. }
  cbv beta. reflexivity.
Qed.

(** *** The straight-line part of upgradeToVersion5 *)

Lemma upgradeToVersion5_prepares schema fuel pass ns :
  address_rows ns = true -> has_segwit ns = false ->
  v4_namespace fuel ns = true ->
  upgradeToVersion5 schema fuel ns_root pass ns
  = migrate_each fuel ns_root (Some bip44) keysToMigrate (prepared schema ns).
Proof.
  unfold address_rows, has_segwit, v4_namespace. intros Hrows Hseg Hok.
  destruct (lookup ns addrBucketName) as [[?|ab]|] eqn:Haddr; try discriminate.
  destruct (lookup ns mainBucketName) as [[?|m]|] eqn:Hmain; try discriminate.
  destruct (lookup ns metaBucketName) as [[?|mt]|] eqn:Hmeta; try discriminate.
  apply andb_true_iff in Hok. destruct Hok as [Hok _].
  apply andb_true_iff in Hok. destruct Hok as [Hok Hnew].
  apply andb_true_iff in Hok. destruct Hok as [Hok Hlast].
  apply andb_true_iff in Hok. destruct Hok as [Hok Hpub].
  apply andb_true_iff in Hok. destruct Hok as [Hver Hpriv].
  destruct (lookup ns scopeBucketName) eqn:Hscope; try discriminate.
  destruct (lookup ns scopeSchemaBucketName) eqn:Hschema; try discriminate.
  clear Hnew.
  unfold upgradeToVersion5, ns_root.
  (* the address rows *)
  eapply bind_step.
  { unfold NestedReadBucket. eapply (Nested_sub [] addrBucketName ns ns ab eq_refl Haddr). }
  cbv beta. cbn [app]. eapply bind_step.
  { unfold ForEach.
    rewrite (on_bucket_some [addrBucketName] _ ns ab) by (cbn [get_bucket]; rewrite Haddr; reflexivity).
    rewrite (check_rows ab ns Hrows), Hseg. reflexivity. }
  cbv beta.
  (* the version *)
  eapply bind_step.
  { unfold putManagerVersion. eapply bind_step.
    { eapply (Nested_sub [] mainBucketName ns ns m eq_refl Hmain). }
    cbv beta. cbn [app]. eapply wrap_err_ok.
    eapply Put_value; [side|reflexivity|exact Hver]. }
  cbv beta.
  (* the new buckets *)
  created. created.
  cbn [app]. eapply bind_step.
  { eapply Put_value; [side|reflexivity|side]. }
  cbv beta. eapply bind_step.
  { eapply createScopedManagerNS_creates; [side|side]. }
  cbv beta. cbn [app]. eapply bind_step.
  { eapply Nested_sub; [side|side]. }
  cbv beta. cbn [app]. eapply bind_step.
  { eapply (Nested_sub []); [side|side]. }
  cbv beta. cbn [app].
  (* the coin-type keys *)
  eapply bind_step.
  { eapply Get_value; [side]. }
  cbv beta. eapply bind_step.
  { eapply Get_value; [side]. }
  cbv beta. look. rewrite !slice_get.
  eapply bind_step.
  { eapply Put_value; [side|reflexivity|unfold not_bucket; side]. }
  cbv beta. eapply bind_step.
  { eapply Put_value; [side|reflexivity|unfold not_bucket; side]. }
  cbv beta. eapply bind_step.
  { eapply Delete_value; [side|unfold not_bucket; look; exact Hpriv]. }
  cbv beta. eapply bind_step.
  { eapply Delete_value; [side|unfold not_bucket; look; exact Hpub]. }
  cbv beta.
  (* the last account *)
  eapply bind_step.
  { eapply (Nested_sub []); [side|side]. }
  cbv beta. cbn [app]. eapply bind_step.
  { eapply Get_value; [side]. }
  cbv beta. look. rewrite slice_get.
  eapply bind_step.
  { eapply Delete_value; [side|exact Hlast]. }
  cbv beta. eapply bind_step.
  { eapply Nested_sub; [side|side]. }
  cbv beta. cbn [app]. eapply bind_step.
  { eapply Put_value; [side|reflexivity|unfold not_bucket; side]. }
  cbv beta.
  (* the namespace at this point *)
  f_equal. unfold prepared, value_at, at_path, bip44. cbv zeta. cbn [get_bucket app].
  rewrite Hmain, Hmeta. rewrite !update_update. reflexivity.
Qed.

(** *** The trees *)

Lemma moved_lookup R key N k :
  bytes_eqb k key = false -> bytes_eqb k scopeBucketName = false ->
  lookup (moved R key N) k = lookup R k.
Proof.
  intros H1 H2. unfold moved, bip44.
  rewrite update_at_nil, lookup_remove, H1, lookup_update_at, H2. reflexivity.
Qed.

Lemma moved_bip44 R key N db :
  bytes_eqb scopeBucketName key = false ->
  get_bucket R bip44 = Some db ->
  get_bucket (moved R key N) bip44 = Some (put db key (Sub N)).
Proof.
  intros H1 Hdb. unfold moved. rewrite update_at_nil.
  rewrite <- (get_update_same R bip44 (fun b => put b key (Sub N)) db Hdb).
  generalize (update_at R bip44 (fun b => put b key (Sub N))). intros X.
  unfold bip44. cbn [get_bucket]. rewrite lookup_remove, H1. reflexivity.
Qed.

Lemma migrate_each_moves fuel : forall ks R db,
  NoDup ks ->
  get_bucket R bip44 = Some db ->
  (forall key, In key ks ->
     is_nil key = false /\ bytes_eqb key scopeBucketName = false /\
     tree_ok fuel R key = true /\
     (lookup db key = None \/ lookup db key = Some (Sub []))) ->
  migrate_each fuel ns_root (Some bip44) ks R = (Ok tt, moved_all fuel R ks).
Proof.
  induction ks as [|key t IH]; intros R db Hnd Hdb Hks.
  - reflexivity.
  - destruct (Hks key (or_introl eq_refl)) as (Hkey & Hsc & Htree & Hfree).
    unfold tree_ok in Htree.
    destruct (lookup R key) as [[?|kb]|] eqn:Hkb; try discriminate.
    assert (HN : migrateRecursively fuel (Some []) (Some bip44) key R
                 = (Ok tt, moved R key (rebuilt fuel kb))).
    { apply (migrateRecursively_moves fuel [] bip44 key R kb db Htree);
        try assumption.
      - cbn [app get_bucket]. rewrite Hkb. reflexivity.
      - cbn [app]. unfold bip44. cbn [diverge]. rewrite Hsc. reflexivity. }
    inversion Hnd as [|? ? Hnotin Hnd']. subst.
    cbn [migrate_each moved_all]. unfold tree_of. rewrite Hkb.
    eapply bind_step; [exact HN|].
    apply (IH (moved R key (rebuilt fuel kb)) (put db key (Sub (rebuilt fuel kb))) Hnd').
    + apply moved_bip44; [|exact Hdb]. rewrite bytes_eqb_sym. exact Hsc.
    + intros key' Hin. destruct (Hks key' (or_intror Hin)) as (H1 & H2 & H3 & H4).
      assert (Hne : bytes_eqb key' key = false).
      { apply bytes_eqb_neq. intros ->. contradiction. }
      split; [exact H1|]. split; [exact H2|]. split.
      * unfold tree_ok in *. rewrite (moved_lookup _ _ _ _ Hne H2). exact H3.
      * rewrite lookup_put, Hne. exact H4.
Qed.

Lemma upgradeToVersion5_runs schema fuel pass ns :
  address_rows ns = true -> has_segwit ns = false ->
  v4_namespace fuel ns = true ->
  upgradeToVersion5 schema fuel ns_root pass ns
  = (Ok tt, moved_all fuel (prepared schema ns) keysToMigrate).
Proof.
  intros Hrows Hseg Hok.
  rewrite (upgradeToVersion5_prepares schema fuel pass ns Hrows Hseg Hok).
  unfold v4_namespace in Hok.
  destruct (lookup ns mainBucketName) as [[?|m]|] eqn:Hmain; try discriminate.
  destruct (lookup ns metaBucketName) as [[?|mt]|] eqn:Hmeta; try discriminate.
  apply andb_true_iff in Hok. destruct Hok as [Hok Htrees].
  apply andb_true_iff in Hok. destruct Hok as [_ Hnew].
  destruct (lookup ns scopeBucketName) eqn:Hscope; try discriminate.
  destruct (lookup ns scopeSchemaBucketName) eqn:Hschema; try discriminate.
  eapply migrate_each_moves.
  - vm_compute. repeat (constructor; [simpl; intuition discriminate|]). constructor.
  - unfold prepared, bip44. cbv zeta. side.
  - intros key Hin.
    pose proof (forallb_In _ _ _ Htrees Hin) as Htree.
    unfold tree_ok in *.
    cbn [keysToMigrate In] in Hin.
    repeat (destruct Hin as [<-|Hin];
            [split; [reflexivity|]; split; [reflexivity|]; split;
             [unfold prepared, bip44; cbv zeta; side; exact Htree
             |right; side]|]).
    destruct Hin.
Qed.

(** *** Trees in key order *)

Lemma bytes_compare_refl a : bytes_compare a a = Eq.
Proof.
  induction a as [|x a IH]; [reflexivity|]. cbn [bytes_compare].
  rewrite Z.compare_refl. exact IH.
Qed.

Lemma bytes_compare_antisym a b : bytes_compare a b = Lt -> bytes_compare b a = Gt.
Proof.
  revert b. induction a as [|x a IH]; intros [|y b]; cbn [bytes_compare];
    try discriminate; try reflexivity.
  rewrite (Z.compare_antisym (Z_of_byte x) (Z_of_byte y)).
  destruct (Z_of_byte x ?= Z_of_byte y); cbn [CompOpp]; try discriminate.
  - apply IH.
  - reflexivity.
Qed.

Lemma insert_sorted_end acc k n :
  (forall a, In a (keys acc) -> bytes_compare a k = Lt) ->
  insert_sorted acc k n = acc ++ [(k, n)].
Proof.
  induction acc as [|[a m] t IH]; intros H; [reflexivity|].
  cbn [insert_sorted app].
  rewrite (bytes_compare_antisym a k (H a (or_introl eq_refl))).
  rewrite IH; [reflexivity|]. intros a' Hin. apply H. right. exact Hin.
Qed.

Lemma put_end acc k n :
  (forall a, In a (keys acc) -> bytes_compare a k = Lt) ->
  put acc k n = acc ++ [(k, n)].
Proof.
  intros H. unfold put. rewrite lookup_notin.
  - apply insert_sorted_end. exact H.
  - intros Hin. pose proof (H k Hin) as Hk. rewrite bytes_compare_refl in Hk.
    discriminate.
Qed.

Lemma rebuilt_in_key_order : forall fuel b,
  in_key_order fuel b = true -> rebuilt fuel b = b.
Proof.
  induction fuel as [|fuel' IH]; intros b Hb; [discriminate|].
  cbn [in_key_order] in Hb. apply andb_true_iff in Hb. destruct Hb as [Hord Hnest].
  cbn [rebuilt].
  enough (Hgen : forall rest acc,
             (forall a r, In a (keys acc) -> In r (keys rest) -> bytes_compare a r = Lt) ->
             ordered (keys rest) = true ->
             forallb (fun e => match snd e with
                               | Val _ => true
                               | Sub c => in_key_order fuel' c
                               end) rest = true ->
             fold_left
               (fun acc e =>
                  put acc (fst e)
                    match snd e with
                    | Val v => Val v
                    | Sub c => Sub (rebuilt fuel' c)
                    end) rest acc = acc ++ rest).
  { apply (Hgen b []); [intros a r []|exact Hord|exact Hnest]. }
  induction rest as [|[k n] t IHt]; intros acc Hlt Ho Hn.
  - cbn [fold_left]. symmetry. apply app_nil_r.
  - cbn [keys map fst ordered] in Ho. apply andb_true_iff in Ho.
    destruct Ho as [Hk Ho].
    cbn [forallb snd] in Hn. apply andb_true_iff in Hn. destruct Hn as [Hn1 Hn].
    cbn [fold_left fst snd].
    assert (Hsame : match n with
                    | Val v => Val v
                    | Sub c => Sub (rebuilt fuel' c)
                    end = n).
    { destruct n as [v|c]; [reflexivity|]. rewrite (IH c Hn1). reflexivity. }
    rewrite Hsame.
    rewrite put_end by (intros a Ha; apply Hlt; [exact Ha|left; reflexivity]).
    rewrite (IHt (acc ++ [(k, n)])); [rewrite <- app_assoc; reflexivity| |exact Ho|exact Hn].
    intros a r Ha Hr. unfold keys in Ha. rewrite map_app in Ha.
    apply in_app_or in Ha. destruct Ha as [Ha|Ha].
    + apply Hlt; [exact Ha|right; exact Hr].
    + cbn [map fst In] in Ha. destruct Ha as [<-|[]].
      pose proof (forallb_In _ _ _ Hk Hr) as Hc. cbv beta in Hc.
      destruct (bytes_compare k r); try discriminate. reflexivity.
Qed.

(** Reading a bucket that an update of one key elsewhere cannot reach. *)
Lemma get_update_key_diverge f key :
  (forall b k', bytes_eqb key k' = false -> lookup (f b) k' = lookup b k') ->
  forall s X q,
    diverge (s ++ [key]) q = true ->
    get_bucket (update_at X s f) q = get_bucket X q.
Proof.
  intros Hf. induction s as [|a s IH]; intros X [|b q]; cbn [app diverge];
    try discriminate.
  - destruct (bytes_eqb key b) eqn:E; [destruct q; discriminate|]. intros _.
    cbn [update_at get_bucket]. rewrite (Hf X b E). reflexivity.
  - intros Hd. cbn [update_at].
    destruct (lookup X a) as [[v|c]|] eqn:Ea; try reflexivity.
    cbn [get_bucket]. rewrite (lookup_replace _ _ _ _ _ Ea).
    rewrite (bytes_eqb_sym b a).
    destruct (bytes_eqb a b) eqn:E; [|reflexivity].
    apply bytes_eqb_eq in E. subst b. rewrite Ea. apply IH. exact Hd.
Qed.

(** X3. migrateRecursively moves the tree under [key] from the bucket
    [src] to the bucket [dst], for a tree in bolt's key order without empty
    keys and a destination that has no entry [key]: it returns without
    error, [dst] then holds the same tree under [key], [src] has no entry
    [key] any more, the other entries of [dst] are what they were, and so
    is every bucket outside the two trees. *)
Theorem migrateRecursively_moves_tree fuel src dst key root kb db :
  migratable fuel kb = true -> in_key_order fuel kb = true ->
  get_bucket root (src ++ [key]) = Some kb ->
  get_bucket root dst = Some db -> lookup db key = None ->
  is_nil key = false -> diverge (src ++ [key]) dst = true ->
  exists root',
    migrateRecursively fuel (Some src) (Some dst) key root = (Ok tt, root') /\
    get_bucket root' (dst ++ [key]) = Some kb /\
    at_path root' src key = None /\
    (forall k, k <> key -> at_path root' dst k = at_path root dst k) /\
    (forall q, diverge (src ++ [key]) q = true -> diverge (dst ++ [key]) q = true ->
       get_bucket root' q = get_bucket root q).
Proof.
  intros Hm Ho Hkb Hdb Hfree Hkey Hdiv.
  pose proof (migrateRecursively_moves fuel src dst key root kb db Hm Hkb Hdb
                (or_introl Hfree) Hkey Hdiv) as Hrun.
  rewrite (rebuilt_in_key_order fuel kb Ho) in Hrun.
  eexists. split; [exact Hrun|].
  assert (Hrem : forall b k', bytes_eqb key k' = false ->
                   lookup (remove b key) k' = lookup b k').
  { intros b k' E. rewrite lookup_remove, bytes_eqb_sym, E. reflexivity. }
  assert (Hput : forall b k', bytes_eqb key k' = false ->
                   lookup (put b key (Sub kb)) k' = lookup b k').
  { intros b k' E. rewrite lookup_put, bytes_eqb_sym, E. reflexivity. }
  set (X := update_at root dst (fun b => put b key (Sub kb))).
  assert (HXd : get_bucket X dst = Some (put db key (Sub kb))).
  { exact (get_update_same root dst (fun b => put b key (Sub kb)) db Hdb). }
  assert (HXs : get_bucket X (src ++ [key]) = Some kb).
  { unfold X. rewrite get_update_diverge by (rewrite diverge_sym; exact Hdiv).
    exact Hkb. }
  destruct (get_bucket_snoc _ _ _ _ HXs) as (sb & Hsb & _).
  assert (Hdiv' : diverge (src ++ [key]) (dst ++ [key]) = true).
  { rewrite <- (app_nil_r (src ++ [key])). apply diverge_app. exact Hdiv. }
  split; [|split; [|split]].
  - rewrite (get_update_key_diverge _ key Hrem src X (dst ++ [key]) Hdiv').
    eapply get_bucket_child; [exact HXd|]. apply lookup_put_same.
  - unfold at_path.
    rewrite (get_update_same X src (fun b => remove b key) sb Hsb).
    apply lookup_remove_same.
  - intros k Hk. unfold at_path.
    rewrite (get_update_key_diverge _ key Hrem src X dst Hdiv), HXd, Hdb.
    apply lookup_put_other. congruence.
  - intros q H1 H2.
    rewrite (get_update_key_diverge _ key Hrem src X q H1).
    exact (get_update_key_diverge _ key Hput dst root q H2).
Qed.

Lemma migrateRecursively_moves_tree_witness :
  exists root',
    migrateRecursively 3 (Some [B "src"]) (Some [B "dst"]) (B "tree") example_src_dst
    = (Ok tt, root') /\
    get_bucket root' [B "dst"; B "tree"] = Some example_tree /\
    at_path root' [B "src"] (B "tree") = None /\
    at_path root' [B "dst"] (B "kept") = Some (Val (B "0")).
Proof.
  destruct (migrateRecursively_moves_tree 3 [B "src"] [B "dst"] (B "tree")
              example_src_dst example_tree
              (bucket_of [ (B "kept", Val (B "0")) ])
              eq_refl eq_refl eq_refl eq_refl eq_refl eq_refl eq_refl)
    as (root' & Hrun & Htree & Hgone & Hkept & _).
  exists root'. split; [exact Hrun|]. split; [exact Htree|]. split; [exact Hgone|].
  rewrite Hkept; [reflexivity|].
  intros E. vm_compute in E. discriminate E.
Defined.

(** X1. upgradeToVersion5 refuses a namespace whose address bucket has a
    row of a type beyond the script type: when every entry of the address
    bucket deserialises as an address row and one of them has such a
    type, the call returns the segwit error and the namespace is what it
    was; not even the version has been written. *)
Theorem upgradeToVersion5_refuses_segwit schema fuel pass ns :
  address_rows ns = true -> has_segwit ns = true ->
  upgradeToVersion5 schema fuel ns_root pass ns = (Err segwit_error, ns).
Proof.
  unfold address_rows, has_segwit. intros Hrows Hseg.
  destruct (lookup ns addrBucketName) as [[?|ab]|] eqn:Haddr; try discriminate.
  unfold upgradeToVersion5, ns_root.
  eapply bind_step.
  { unfold NestedReadBucket. eapply (Nested_sub [] addrBucketName ns ns ab eq_refl Haddr). }
  cbv beta. cbn [app]. apply bind_err.
  unfold ForEach.
  rewrite (on_bucket_some [addrBucketName] _ ns ab)
    by (cbn [get_bucket]; rewrite Haddr; reflexivity).
  rewrite (check_rows ab ns Hrows), Hseg. reflexivity.
Qed.

Lemma upgradeToVersion5_refuses_segwit_witness :
  upgradeToVersion5 {| InternalAddrType := 0; ExternalAddrType := 0 |} 3 ns_root []
    example_v4_segwit
  = (Err segwit_error, example_v4_segwit).
Proof.
  apply upgradeToVersion5_refuses_segwit; vm_compute; reflexivity.
Defined.

Lemma moved_lookup_gone R key N :
  lookup (moved R key N) key = None.
Proof.
  unfold moved. rewrite update_at_nil. apply lookup_remove_same.
Qed.

Lemma moved_all_lookup fuel : forall ks R k,
  ~ In k ks -> bytes_eqb k scopeBucketName = false ->
  lookup (moved_all fuel R ks) k = lookup R k.
Proof.
  induction ks as [|key t IH]; intros R k Hin Hsc; [reflexivity|].
  cbn [moved_all]. rewrite IH.
  - apply moved_lookup; [|exact Hsc]. apply bytes_eqb_neq. intros ->.
    apply Hin. left. reflexivity.
  - intros K. apply Hin. right. exact K.
  - exact Hsc.
Qed.

Lemma moved_all_gone fuel : forall ks R key,
  In key ks -> bytes_eqb key scopeBucketName = false ->
  lookup (moved_all fuel R ks) key = None.
Proof.
  induction ks as [|key' t IH]; intros R key Hin Hsc; [destruct Hin|].
  cbn [moved_all].
  destruct (in_dec (list_eq_dec Byte.byte_eq_dec) key t) as [Ht|Ht].
  - apply IH; assumption.
  - destruct Hin as [->|Hin]; [|contradiction].
    rewrite moved_all_lookup by assumption. apply moved_lookup_gone.
Qed.

Lemma moved_all_bip44 fuel : forall ks R db,
  NoDup ks ->
  (forall key, In key ks -> bytes_eqb key scopeBucketName = false) ->
  get_bucket R bip44 = Some db ->
  exists db',
    get_bucket (moved_all fuel R ks) bip44 = Some db' /\
    (forall k, ~ In k ks -> lookup db' k = lookup db k) /\
    (forall key, In key ks ->
       lookup db' key = Some (Sub (rebuilt fuel (tree_of R key)))).
Proof.
  induction ks as [|key t IH]; intros R db Hnd Hsc Hdb.
  - exists db. split; [exact Hdb|]. split; [reflexivity|]. intros key [].
  - inversion Hnd as [|? ? Hnotin Hnd']. subst.
    cbn [moved_all].
    set (N := rebuilt fuel (tree_of R key)).
    assert (Hk : bytes_eqb scopeBucketName key = false).
    { rewrite bytes_eqb_sym. apply Hsc. left. reflexivity. }
    destruct (IH (moved R key N) (put db key (Sub N)) Hnd'
                (fun k H => Hsc k (or_intror H)) (moved_bip44 R key N db Hk Hdb))
      as (db' & Hget & Hother & Htrees).
    exists db'. split; [exact Hget|]. split.
    + intros k Hin. rewrite Hother by (intros K; apply Hin; right; exact K).
      apply lookup_put_other. intros ->. apply Hin. left. reflexivity.
    + intros key' [<-|Hin].
      * rewrite Hother by exact Hnotin. apply lookup_put_same.
      * rewrite (Htrees key' Hin). unfold tree_of.
        rewrite moved_lookup; [reflexivity| |apply Hsc; right; exact Hin].
        apply bytes_eqb_neq. intros ->. contradiction.
Qed.

Lemma keysToMigrate_NoDup : NoDup keysToMigrate.
Proof.
  vm_compute. repeat (constructor; [simpl; intuition discriminate|]). constructor.
Qed.

Lemma keysToMigrate_names key :
  In key keysToMigrate ->
  bytes_eqb key scopeBucketName = false /\ bytes_eqb key mainBucketName = false /\
  bytes_eqb key metaBucketName = false /\ bytes_eqb key scopeSchemaBucketName = false /\
  bytes_eqb key coinTypePrivKeyName = false /\ bytes_eqb key coinTypePubKeyName = false.
Proof.
  cbn [keysToMigrate In]. intros H.
  repeat (destruct H as [<-|H]; [repeat split; reflexivity|]). destruct H.
Qed.

Lemma prepared_main schema ns m :
  lookup ns mainBucketName = Some (Sub m) ->
  lookup ns scopeBucketName = None -> lookup ns scopeSchemaBucketName = None ->
  lookup (prepared schema ns) mainBucketName
  = Some (Sub (remove (remove (put m mgrVersionName (Val (uint32ToBytes 5)))
                         coinTypePrivKeyName) coinTypePubKeyName)).
Proof.
  intros Hmain Hscope Hschema.
  unfold prepared, bip44. cbv zeta. cbn [app]. look. reflexivity.
Qed.

Lemma prepared_meta schema ns m mt :
  lookup ns mainBucketName = Some (Sub m) ->
  lookup ns metaBucketName = Some (Sub mt) ->
  lookup ns scopeBucketName = None -> lookup ns scopeSchemaBucketName = None ->
  lookup (prepared schema ns) metaBucketName = Some (Sub (remove mt lastAccountName)).
Proof.
  intros Hmain Hmeta Hscope Hschema.
  unfold prepared, bip44. cbv zeta. cbn [app]. look. reflexivity.
Qed.

Lemma prepared_tree schema ns key :
  In key keysToMigrate ->
  lookup (prepared schema ns) key = lookup ns key.
Proof.
  intros Hin. cbn [keysToMigrate In] in Hin.
  repeat (destruct Hin as [<-|Hin];
          [unfold prepared, bip44; cbv zeta; cbn [app]; look; reflexivity|]).
  destruct Hin.
Qed.

Lemma prepared_bip44 schema ns m mt :
  lookup ns mainBucketName = Some (Sub m) ->
  lookup ns metaBucketName = Some (Sub mt) ->
  lookup ns scopeBucketName = None -> lookup ns scopeSchemaBucketName = None ->
  exists db,
    get_bucket (prepared schema ns) bip44 = Some db /\
    lookup db coinTypePrivKeyName
      = Some (Val (value_at ns [mainBucketName] coinTypePrivKeyName)) /\
    lookup db coinTypePubKeyName
      = Some (Val (value_at ns [mainBucketName] coinTypePubKeyName)) /\
    lookup db metaBucketName
      = Some (Sub [(lastAccountName,
                    Val (value_at ns [metaBucketName] lastAccountName))]).
Proof.
  intros Hmain Hmeta Hscope Hschema.
  eexists. split; [unfold prepared, bip44; cbv zeta; side|].
  split; [look; reflexivity|]. split; [look; reflexivity|]. look. reflexivity.
Qed.

Lemma not_migrated k :
  existsb (bytes_eqb k) keysToMigrate = false -> ~ In k keysToMigrate.
Proof.
  intros H Hin. apply existsb_bytes_In in Hin. congruence.
Qed.

Lemma fetchManagerVersion_stored root m v :
  lookup root mainBucketName = Some (Sub m) ->
  lookup m mgrVersionName = Some (Val (uint32ToBytes v)) ->
  0 <= v < 2 ^ 32 ->
  fetchManagerVersion ns_root root = (Ok v, root).
Proof.
  intros Hmain Hver Hv. unfold fetchManagerVersion, ns_root, NestedReadBucket.
  eapply bind_step.
  { eapply (Nested_sub []); [reflexivity|exact Hmain]. }
  cbv beta. cbn [app]. eapply bind_step.
  { eapply Get_value. cbn [get_bucket]. rewrite Hmain. reflexivity. }
  cbv beta. rewrite Hver. unfold uint32ToBytes.
  change (slice (le_bytes 4 v) 0 4) with (slice ([] ++ le_bytes 4 v) 0 4).
  rewrite (slice_end [] (le_bytes 4 v) 0 4) by (rewrite ?le_bytes_length; reflexivity).
  unfold ret. rewrite le_value_4 by exact Hv. reflexivity.
Qed.

(** The namespace upgradeToVersion5 leaves, entry by entry. *)
Lemma upgraded_facts fuel P db m mt priv pub last :
  lookup P mainBucketName
  = Some (Sub (remove (remove (put m mgrVersionName (Val (uint32ToBytes 5)))
                         coinTypePrivKeyName) coinTypePubKeyName)) ->
  lookup P metaBucketName = Some (Sub (remove mt lastAccountName)) ->
  get_bucket P bip44 = Some db ->
  lookup db coinTypePrivKeyName = Some (Val priv) ->
  lookup db coinTypePubKeyName = Some (Val pub) ->
  lookup db metaBucketName = Some (Sub [(lastAccountName, Val last)]) ->
  let F := moved_all fuel P keysToMigrate in
  fetchManagerVersion ns_root F = (Ok 5, F) /\
  at_path F bip44 coinTypePrivKeyName = Some (Val priv) /\
  at_path F bip44 coinTypePubKeyName = Some (Val pub) /\
  at_path F [mainBucketName] coinTypePrivKeyName = None /\
  at_path F [mainBucketName] coinTypePubKeyName = None /\
  at_path F (bip44 ++ [metaBucketName]) lastAccountName = Some (Val last) /\
  at_path F [metaBucketName] lastAccountName = None /\
  (forall key, In key keysToMigrate ->
     lookup F key = None /\
     at_path F bip44 key = Some (Sub (rebuilt fuel (tree_of P key)))).
Proof.
  intros HPmain HPmeta HPdb HPpriv HPpub HPm F.
  destruct (moved_all_bip44 fuel keysToMigrate P db keysToMigrate_NoDup
              (fun key H => proj1 (keysToMigrate_names key H)) HPdb)
    as (db' & HFdb & HFother & HFtrees).
  assert (HFmain : lookup F mainBucketName = lookup P mainBucketName).
  { apply moved_all_lookup; [|reflexivity]. apply not_migrated. reflexivity. }
  assert (HFmeta : lookup F metaBucketName = lookup P metaBucketName).
  { apply moved_all_lookup; [|reflexivity]. apply not_migrated. reflexivity. }
  assert (HFgone : forall key, In key keysToMigrate -> lookup F key = None).
  { intros key Hin. apply moved_all_gone; [exact Hin|].
    apply (keysToMigrate_names key Hin). }
  fold F in HFdb. clearbody F.
  rewrite HPmain in HFmain. rewrite HPmeta in HFmeta.
  split.
  { eapply fetchManagerVersion_stored; [exact HFmain| |lia].
    rewrite !lookup_remove, lookup_put. reflexivity. }
  unfold at_path. rewrite HFdb.
  split; [rewrite HFother by (apply not_migrated; reflexivity); exact HPpriv|].
  split; [rewrite HFother by (apply not_migrated; reflexivity); exact HPpub|].
  cbn [get_bucket]. rewrite HFmain, HFmeta.
  split; [rewrite !lookup_remove; reflexivity|].
  split; [rewrite !lookup_remove; reflexivity|].
  split.
  { rewrite get_bucket_app, HFdb. cbn [get_bucket].
    rewrite HFother by (apply not_migrated; reflexivity). rewrite HPm.
    rewrite lookup_cons, bytes_eqb_refl. reflexivity. }
  split; [apply lookup_remove_same|].
  intros key Hin. split; [apply HFgone; exact Hin|apply HFtrees; exact Hin].
Qed.

(** X2. On a version-4 namespace whose address rows are all of the chained,
    imported or script type, upgradeToVersion5 returns without error and
    leaves a namespace in which: the stored version is 5; the coin-type
    private and public keys are in the bucket of the default scope with
    the bytes they had in the main bucket, and are no longer in the main
    bucket; the last account is in the meta bucket of the default scope
    with the bytes it had in the top-level meta bucket, and is no longer
    there; and each of the six trees acct, addr, usedaddrs, addracctidx,
    acctnameidx and acctididx (in bolt's key order) is gone from the top
    level and stands unchanged in the bucket of the default scope. *)
Theorem upgradeToVersion5_moves_keys schema fuel pass ns :
  address_rows ns = true -> has_segwit ns = false ->
  v4_namespace fuel ns = true ->
  exists ns',
    upgradeToVersion5 schema fuel ns_root pass ns = (Ok tt, ns') /\
    fetchManagerVersion ns_root ns' = (Ok 5, ns') /\
    at_path ns' bip44 coinTypePrivKeyName
      = Some (Val (value_at ns [mainBucketName] coinTypePrivKeyName)) /\
    at_path ns' bip44 coinTypePubKeyName
      = Some (Val (value_at ns [mainBucketName] coinTypePubKeyName)) /\
    at_path ns' [mainBucketName] coinTypePrivKeyName = None /\
    at_path ns' [mainBucketName] coinTypePubKeyName = None /\
    at_path ns' (bip44 ++ [metaBucketName]) lastAccountName
      = Some (Val (value_at ns [metaBucketName] lastAccountName)) /\
    at_path ns' [metaBucketName] lastAccountName = None /\
    (forall key kb, In key keysToMigrate ->
       lookup ns key = Some (Sub kb) -> in_key_order fuel kb = true ->
       lookup ns' key = None /\ at_path ns' bip44 key = Some (Sub kb)).
Proof.
  intros Hrows Hseg Hok.
  exists (moved_all fuel (prepared schema ns) keysToMigrate).
  split; [apply upgradeToVersion5_runs; assumption|].
  unfold v4_namespace in Hok.
  destruct (lookup ns mainBucketName) as [[?|m]|] eqn:Hmain; try discriminate.
  destruct (lookup ns metaBucketName) as [[?|mt]|] eqn:Hmeta; try discriminate.
  apply andb_true_iff in Hok. destruct Hok as [Hok Htrees].
  apply andb_true_iff in Hok. destruct Hok as [_ Hnew].
  destruct (lookup ns scopeBucketName) eqn:Hscope; try discriminate.
  destruct (lookup ns scopeSchemaBucketName) eqn:Hschema; try discriminate.
  clear Hnew.
  destruct (prepared_bip44 schema ns m mt Hmain Hmeta Hscope Hschema)
    as (db & HPdb & HPpriv & HPpub & HPm).
  destruct (upgraded_facts fuel (prepared schema ns) db m mt _ _ _
              (prepared_main schema ns m Hmain Hscope Hschema)
              (prepared_meta schema ns m mt Hmain Hmeta Hscope Hschema)
              HPdb HPpriv HPpub HPm)
    as (H1 & H2 & H3 & H4 & H5 & H6 & H7 & H8).
  repeat (split; [assumption|]).
  intros key kb Hin Hkb Hord. destruct (H8 key Hin) as [Hgone Hthere].
  split; [exact Hgone|]. rewrite Hthere. unfold tree_of.
  rewrite (prepared_tree schema ns key Hin), Hkb.
  rewrite (rebuilt_in_key_order fuel kb Hord). reflexivity.
Qed.

Lemma upgradeToVersion5_moves_keys_witness :
  exists ns',
    upgradeToVersion5 {| InternalAddrType := 0; ExternalAddrType := 0 |} 3 ns_root []
      example_v4 = (Ok tt, ns') /\
    fetchManagerVersion ns_root ns' = (Ok 5, ns') /\
    at_path ns' bip44 coinTypePrivKeyName = Some (Val (B "ct-priv")) /\
    at_path ns' [mainBucketName] coinTypePrivKeyName = None /\
    at_path ns' (bip44 ++ [metaBucketName]) lastAccountName = Some (Val (uint32ToBytes 0)) /\
    lookup ns' addrAcctIdxBucketName = None.
Proof.
  destruct (upgradeToVersion5_moves_keys
              {| InternalAddrType := 0; ExternalAddrType := 0 |} 3 [] example_v4
              eq_refl eq_refl eq_refl)
    as (ns' & Hrun & Hver & Hpriv & _ & Hgone & _ & Hlast & _ & Htrees).
  exists ns'. split; [exact Hrun|]. split; [exact Hver|]. split; [exact Hpriv|].
  split; [exact Hgone|]. split; [exact Hlast|].
  refine (proj1 (Htrees addrAcctIdxBucketName _ _ eq_refl eq_refl)).
  cbn [keysToMigrate In]. auto.
Defined.

Lemma scopeToBytes_not_nil scope : is_nil (scopeToBytes scope) = false.
Proof.
  unfold scopeToBytes. destruct (le_bytes 4 (Purpose scope)) eqn:E; [|reflexivity].
  apply (f_equal (@length byte)) in E. rewrite le_bytes_length in E. discriminate.
Qed.

(** X4. createScopedManagerNS creates, in a bucket that has no entry for
    the scope, a bucket under the 8-byte scope key that holds exactly the
    seven empty buckets acct, acctididx, acctnameidx, addr, addracctidx,
    meta and usedaddrs, and leaves every other entry alone; when the
    bucket already has an entry for the scope it returns the error
    "failed to create sync bucket" and changes nothing. *)
Theorem createScopedManagerNS_outcome p scope root b :
  get_bucket root p = Some b ->
  (lookup b (scopeToBytes scope) = None ->
     exists root',
       createScopedManagerNS (Some p) scope root = (Ok tt, root') /\
       get_bucket root' (p ++ [scopeToBytes scope]) = Some empty_scope /\
       (forall k, k <> scopeToBytes scope -> at_path root' p k = at_path root p k)) /\
  (lookup b (scopeToBytes scope) <> None ->
     createScopedManagerNS (Some p) scope root
     = (Err "failed to create sync bucket", root)).
Proof.
  intros Hget. split.
  - intros Hfree. eexists. split.
    { apply (createScopedManagerNS_creates p scope root b Hget Hfree). }
    set (key := scopeToBytes scope).
    set (root1 := update_at root p (fun b => put b key (Sub []))).
    assert (H1 : get_bucket root1 p = Some (put b key (Sub [])))
      by exact (get_update_same root p (fun b => put b key (Sub [])) b Hget).
    assert (Hq : get_bucket root1 (p ++ [key]) = Some []).
    { eapply get_bucket_child; [exact H1|apply lookup_put_same]. }
    split.
    + rewrite (get_update_same root1 (p ++ [key]) _ [] Hq). reflexivity.
    + intros k Hk. unfold at_path. rewrite update_at_app.
      rewrite (get_update_same root1 p _ _ H1), Hget.
      rewrite (update_at_child _ key [] _ (lookup_put_same b key (Sub []))).
      rewrite lookup_replace_other by congruence.
      apply lookup_put_other. congruence.
  - intros Hthere. unfold createScopedManagerNS. apply bind_err.
    unfold wrap_err, CreateBucket. rewrite (on_bucket_some _ _ _ _ Hget).
    rewrite scopeToBytes_not_nil.
    destruct (lookup b (scopeToBytes scope)) as [[v|c]|]; try reflexivity.
    congruence.
Qed.

Lemma createScopedManagerNS_outcome_witness :
  exists root',
    createScopedManagerNS (Some [scopeBucketName]) {| Purpose := 49; Coin := 0 |}
      example_v5 = (Ok tt, root') /\
    get_bucket root' [scopeBucketName; scopeToBytes {| Purpose := 49; Coin := 0 |}]
    = Some empty_scope.
Proof.
  destruct (proj1 (createScopedManagerNS_outcome [scopeBucketName]
                     {| Purpose := 49; Coin := 0 |} example_v5 _ eq_refl) eq_refl)
    as (root' & Hrun & Hget & _).
  exists root'. split; [exact Hrun|exact Hget].
Defined.

End UpgradeFacts.

(* ===================================================================== *)
(** ** Rows of the account and address buckets *)
(* ===================================================================== *)

Module RowFacts.
Import Walletdb Waddrmgr WaddrmgrSpec WaddrmgrStore WalletdbFacts DeleteFacts.

(** X5. An account row survives serializeAccountRow followed by
    deserializeAccountRow: for an account type that fits a byte and raw
    data shorter than 2^32 - 5 bytes, deserialising the serialisation
    gives the row back. *)
Theorem account_row_round_trip row :
  0 <= acctType row < 256 ->
  Z.of_nat (length (acct_rawData row)) + 5 < 2 ^ 32 ->
  deserializeAccountRow (serializeAccountRow row) = Ok row.
Proof.
  intros Ht Hlen. destruct row as [t raw]. cbn [acctType acct_rawData] in *.
  apply serializeAccountRow_roundtrip; assumption.
Qed.

Lemma account_row_round_trip_witness :
  deserializeAccountRow
    (serializeAccountRow {| acctType := accountDefault; acct_rawData := B "raw" |})
  = Ok {| acctType := accountDefault; acct_rawData := B "raw" |}.
Proof.
  apply account_row_round_trip; cbn [acctType acct_rawData]; vm_compute; split; congruence.
Defined.

(** X6. deserializeAccountRow checks the five bytes of the header only: a
    value shorter than five bytes is an error, a value whose length field
    promises more raw data than the value holds makes the slice
    expression panic, and any other value deserialises. *)
Theorem deserializeAccountRow_outcome v :
  Z.of_nat (length v) < 2 ^ 32 ->
  let rdlen := le_value (firstn 4 (skipn 1 v)) in
  (Z.of_nat (length v) < 5 ->
     deserializeAccountRow v = Err "malformed serialized account") /\
  (5 <= Z.of_nat (length v) -> Z.of_nat (length v) < 5 + rdlen ->
     deserializeAccountRow v = Panic) /\
  (5 <= Z.of_nat (length v) -> 5 + rdlen <= Z.of_nat (length v) ->
     exists row, deserializeAccountRow v = Ok row /\
                 Z.of_nat (length (acct_rawData row)) = rdlen).
Proof.
  intros Hlen rdlen. unfold deserializeAccountRow. fold rdlen.
  assert (Hrd : 0 <= rdlen < 2 ^ 32).
  { unfold rdlen. pose proof (le_value_range (firstn 4 (skipn 1 v))) as Hr.
    rewrite length_firstn in Hr.
    assert (256 ^ Z.of_nat (Nat.min 4 (length (skipn 1 v))) <= 2 ^ 32).
    { change (2 ^ 32) with (256 ^ 4). apply Z.pow_le_mono_r; lia. }
    lia. }
  split; [|split].
  - intros H. apply Z.ltb_lt in H. rewrite H. reflexivity.
  - intros H5 H. apply Z.ltb_ge in H5. rewrite H5.
    unfold slice, u32. cbn [Z.leb andb].
    destruct (Z_lt_dec (5 + rdlen) (2 ^ 32)) as [Hs|Hs].
    + rewrite Z.mod_small by lia.
      replace (5 + rdlen <=? Z.of_nat (length v)) with false
        by (symmetry; apply Z.leb_gt; lia).
      rewrite andb_false_r. reflexivity.
    + replace ((5 + rdlen) mod 2 ^ 32) with (5 + rdlen - 2 ^ 32).
      2:{ symmetry. rewrite <- (Z.mod_small (5 + rdlen - 2 ^ 32) (2 ^ 32)) by lia.
          rewrite <- (Z_mod_plus_full (5 + rdlen - 2 ^ 32) 1 (2 ^ 32)).
          f_equal. lia. }
      replace (5 <=? 5 + rdlen - 2 ^ 32) with false
        by (symmetry; apply Z.leb_gt; lia).
      reflexivity.
  - intros H5 H. apply Z.ltb_ge in H5. rewrite H5.
    destruct (slice v 5 (u32 (5 + rdlen))) as [d|] eqn:E.
    + eexists. split; [reflexivity|]. cbn [acct_rawData].
      apply slice_some in E. destruct E as (_ & _ & _ & E & _).
      rewrite E. unfold u32. rewrite Z.mod_small by lia. lia.
    + exfalso. unfold slice, u32 in E. rewrite Z.mod_small in E by lia.
      replace (5 <=? 5 + rdlen) with true in E by (symmetry; apply Z.leb_le; lia).
      replace (5 + rdlen <=? Z.of_nat (length v)) with true in E
        by (symmetry; apply Z.leb_le; lia).
      cbn in E. discriminate.
Qed.

Lemma deserializeAccountRow_outcome_witness :
  deserializeAccountRow [x00; x09; x00; x00; x00; x01] = Panic.
Proof.
  refine (proj1 (proj2 (deserializeAccountRow_outcome
                         [x00; x09; x00; x00; x00; x01] _)) _ _);
    vm_compute; congruence.
Defined.
(** X7. The raw data of a default account survives
    serializeDefaultAccountRow followed by deserializeDefaultAccountRow:
    when the three byte strings together are shorter than 2^32 - 20
    bytes and the two indexes are uint32 values, deserialising gives the
    public key, the private key, the two next indexes and the name back. *)
Theorem default_account_row_round_trip t pub priv ne ni nm :
  Z.of_nat (length pub) + Z.of_nat (length priv) + Z.of_nat (length nm) + 20 < 2 ^ 32 ->
  0 <= ne < 2 ^ 32 -> 0 <= ni < 2 ^ 32 ->
  deserializeDefaultAccountRow
    {| acctType := t; acct_rawData := serializeDefaultAccountRow pub priv ne ni nm |}
  = Ok {| dar_row := {| acctType := t;
                        acct_rawData := serializeDefaultAccountRow pub priv ne ni nm |};
          pubKeyEncrypted := pub; privKeyEncrypted := priv;
          nextExternalIndex := ne; nextInternalIndex := ni; name := nm |}.
Proof.
  intros Hlen Hne Hni.
  exact (serializeDefaultAccountRow_roundtrip t pub priv ne ni nm Hlen Hne Hni).
Qed.

Lemma default_account_row_round_trip_witness :
  exists arow,
    deserializeDefaultAccountRow
      {| acctType := accountDefault;
         acct_rawData := serializeDefaultAccountRow (B "xpub") (B "xpriv") 7 2 (B "default") |}
    = Ok arow /\
    pubKeyEncrypted arow = B "xpub" /\ privKeyEncrypted arow = B "xpriv" /\
    nextExternalIndex arow = 7 /\ nextInternalIndex arow = 2 /\ name arow = B "default".
Proof.
  eexists. split.
  - apply default_account_row_round_trip; vm_compute; split; congruence.
  - repeat split.
Defined.

(** X8. An address row survives serializeAddressRow followed by
    deserializeAddressRow, when its address type and sync status fit a
    byte, its account is a uint32, its time a uint64 and its raw data is
    shorter than 2^32 - 18 bytes. *)
Theorem address_row_round_trip row :
  0 <= addrType row < 256 -> 0 <= account row < 2 ^ 32 ->
  0 <= addTime row < 2 ^ 64 -> 0 <= syncStatus row < 256 ->
  Z.of_nat (length (rawData row)) + 18 < 2 ^ 32 ->
  deserializeAddressRow (serializeAddressRow row) = Ok row.
Proof. apply serializeAddressRow_roundtrip. Qed.

Lemma address_row_round_trip_witness :
  deserializeAddressRow example_chained_row
  = Ok {| addTime := 1500000000; rawData := le_bytes 4 0 ++ le_bytes 4 7;
          account := 0; syncStatus := 0; addrType := adtChain |}.
Proof.
  apply address_row_round_trip; vm_compute; split; congruence.
Defined.

Lemma firstn_4_le_bytes x rest : firstn 4 (le_bytes 4 x ++ rest) = le_bytes 4 x.
Proof. apply firstn_prefix. apply le_bytes_length. Qed.

(** X9. The raw data of a chained address is exactly eight bytes:
    deserializeChainedAddress gives back the branch and the index that
    serializeChainedAddress wrote, uint32 values, and refuses raw data of
    any other length with an error. *)
Theorem chained_address_round_trip row b i :
  0 <= b < 2 ^ 32 -> 0 <= i < 2 ^ 32 ->
  deserializeChainedAddress (with_rawData row (serializeChainedAddress b i))
  = Ok {| car_row := with_rawData row (serializeChainedAddress b i);
          branch := b; index := i |} /\
  (forall row', length (rawData row') <> 8%nat ->
     deserializeChainedAddress row' = Err "malformed serialized chained address").
Proof.
  intros Hb Hi. split.
  - unfold deserializeChainedAddress, with_rawData, serializeChainedAddress.
    cbn [rawData]. rewrite length_app, !le_bytes_length. cbn [Nat.add Nat.eqb negb].
    rewrite firstn_4_le_bytes.
    rewrite skipn_app, le_bytes_length, Nat.sub_diag.
    rewrite skipn_all2 by (rewrite le_bytes_length; lia). cbn [app skipn].
    rewrite firstn_all2 by (rewrite le_bytes_length; lia).
    rewrite !le_value_4 by assumption. reflexivity.
  - intros row' Hlen. unfold deserializeChainedAddress.
    apply Nat.eqb_neq in Hlen. rewrite Hlen. reflexivity.
Qed.

Lemma chained_address_round_trip_witness :
  exists crow,
    deserializeChainedAddress
      {| addTime := 1; rawData := serializeChainedAddress 1 41; account := 0;
         syncStatus := 0; addrType := adtChain |} = Ok crow /\
    branch crow = 1 /\ index crow = 41.
Proof.
  eexists. split.
  - refine (proj1 (chained_address_round_trip
                     {| addTime := 1; rawData := []; account := 0;
                        syncStatus := 0; addrType := adtChain |} 1 41 _ _));
      vm_compute; split; congruence.
  - split; reflexivity.
Defined.

(** X10. The raw data of an imported address and of a script address
    survive their serialisation: deserializeImportedAddress gives back the
    public and the private key serializeImportedAddress wrote, and
    deserializeScriptAddress the hash and the script
    serializeScriptAddress wrote, for fields that together are shorter
    than 2^32 - 8 bytes. *)
Theorem imported_and_script_round_trip row f1 f2 :
  Z.of_nat (length f1) + Z.of_nat (length f2) + 8 < 2 ^ 32 ->
  deserializeImportedAddress (with_rawData row (serializeImportedAddress f1 f2))
  = Ok {| iar_row := with_rawData row (serializeImportedAddress f1 f2);
          encryptedPubKey := f1; encryptedPrivKey := f2 |} /\
  deserializeScriptAddress (with_rawData row (serializeScriptAddress f1 f2))
  = Ok {| sar_row := with_rawData row (serializeScriptAddress f1 f2);
          encryptedHash := f1; encryptedScript := f2 |}.
Proof.
  intros Hlen.
  assert (H : forall msg,
            deserializeTwoFields
              (le_bytes 4 (Z.of_nat (length f1)) ++ f1
                 ++ le_bytes 4 (Z.of_nat (length f2)) ++ f2) msg = Ok (f1, f2)).
  { intros msg. apply two_fields_parse;
      rewrite ?le_bytes_length, ?le_value_4; try reflexivity; lia. }
  split.
  - unfold deserializeImportedAddress, with_rawData, serializeImportedAddress.
    cbn [rawData]. rewrite H. reflexivity.
  - unfold deserializeScriptAddress, with_rawData, serializeScriptAddress.
    cbn [rawData]. rewrite H. reflexivity.
Qed.

Lemma imported_and_script_round_trip_witness :
  exists irow,
    deserializeImportedAddress
      {| addTime := 1; rawData := serializeImportedAddress (B "pub") (B "priv");
         account := 0; syncStatus := 0; addrType := adtImport |} = Ok irow /\
    encryptedPubKey irow = B "pub" /\ encryptedPrivKey irow = B "priv".
Proof.
  eexists. split.
  - refine (proj1 (imported_and_script_round_trip
                     {| addTime := 1; rawData := []; account := 0;
                        syncStatus := 0; addrType := adtImport |}
                     (B "pub") (B "priv") _)).
    vm_compute. congruence.
  - split; reflexivity.
Defined.

End RowFacts.

(* ===================================================================== *)
(** ** The fetch and put functions *)
(* ===================================================================== *)

Module StoreFacts.
Import Walletdb Waddrmgr WaddrmgrSpec WaddrmgrStore WalletdbFacts DeleteFacts
  UpgradeFacts RowFacts.

(** The main bucket of a namespace. *)
Lemma main_bucket ns m :
  lookup ns mainBucketName = Some (Sub m) ->
  NestedReadWriteBucket ns_root mainBucketName ns = (Ok (Some [mainBucketName]), ns) /\
  get_bucket ns [mainBucketName] = Some m.
Proof.
  intros Hmain. split.
  - exact (Nested_sub [] mainBucketName ns ns m eq_refl Hmain).
  - cbn [get_bucket]. rewrite Hmain. reflexivity.
Qed.

Lemma lookup_top_update ns k0 b f k :
  lookup ns k0 = Some (Sub b) ->
  lookup (update_at ns [k0] f) k
  = if bytes_eqb k k0 then Some (Sub (f b)) else lookup ns k.
Proof.
  intros H. rewrite lookup_update_at, H, update_at_nil. reflexivity.
Qed.

(** X11. putManagerVersion followed by fetchManagerVersion gives the
    version back: in a namespace with a main bucket the put succeeds,
    changes nothing but the version entry of the main bucket, and the
    fetch then returns the version; on a main bucket without a version
    entry fetchManagerVersion returns an error. *)
Theorem manager_version_round_trip ns m v :
  lookup ns mainBucketName = Some (Sub m) ->
  not_bucket m mgrVersionName = true ->
  0 <= v < 2 ^ 32 ->
  (exists ns',
     putManagerVersion ns_root v ns = (Ok tt, ns') /\
     fetchManagerVersion ns_root ns' = (Ok v, ns') /\
     (forall k, k <> mainBucketName -> lookup ns' k = lookup ns k) /\
     (forall k, k <> mgrVersionName ->
        at_path ns' [mainBucketName] k = at_path ns [mainBucketName] k)) /\
  (lookup m mgrVersionName = None ->
     fetchManagerVersion ns_root ns
     = (Err "required version number not stored in database", ns)).
Proof.
  intros Hmain Hnb Hv. destruct (main_bucket ns m Hmain) as [Hn Hm]. split.
  - eexists. split.
    { unfold putManagerVersion. eapply bind_step; [exact Hn|]. cbv beta.
      apply wrap_err_ok. eapply Put_value; [exact Hm|reflexivity|exact Hnb]. }
    split; [|split].
    + eapply fetchManagerVersion_stored; [|apply lookup_put_same|exact Hv].
      rewrite (lookup_top_update ns _ m _ _ Hmain), bytes_eqb_refl. reflexivity.
    + intros k Hk. rewrite (lookup_top_update ns _ m _ _ Hmain).
      rewrite (eqb_name_false _ _ Hk). reflexivity.
    + intros k Hk. unfold at_path. cbn [get_bucket].
      rewrite (lookup_top_update ns _ m _ _ Hmain), bytes_eqb_refl, Hmain.
      apply lookup_put_other. congruence.
  - intros Hnone. unfold fetchManagerVersion, NestedReadBucket.
    eapply bind_step; [exact Hn|]. cbv beta. eapply bind_step.
    { eapply Get_value. exact Hm. }
    cbv beta. rewrite Hnone. reflexivity.
Qed.

Lemma manager_version_round_trip_witness :
  exists ns',
    putManagerVersion ns_root 7 example_v4 = (Ok tt, ns') /\
    fetchManagerVersion ns_root ns' = (Ok 7, ns').
Proof.
  destruct (proj1 (manager_version_round_trip example_v4 _ 7 eq_refl eq_refl
                     ltac:(vm_compute; split; congruence)))
    as (ns' & Hput & Hfetch & _).
  exists ns'. split; [exact Hput|exact Hfetch].
Defined.

(** X12. putWatchingOnly followed by fetchWatchingOnly gives the flag
    back; fetchWatchingOnly returns an error when the flag is missing or
    its value is not exactly one byte. *)
Theorem watching_only_round_trip ns m w :
  lookup ns mainBucketName = Some (Sub m) ->
  not_bucket m watchingOnlyName = true ->
  (exists ns',
     putWatchingOnly ns_root w ns = (Ok tt, ns') /\
     fetchWatchingOnly ns_root ns' = (Ok w, ns')) /\
  (forall v, at_path ns [mainBucketName] watchingOnlyName = Some (Val v) ->
     length v <> 1%nat ->
     fetchWatchingOnly ns_root ns
     = (Err "malformed watching-only flag stored in database", ns)) /\
  (at_path ns [mainBucketName] watchingOnlyName = None ->
     fetchWatchingOnly ns_root ns
     = (Err "malformed watching-only flag stored in database", ns)).
Proof.
  intros Hmain Hnb. destruct (main_bucket ns m Hmain) as [Hn Hm].
  assert (Hfetch : forall root m',
            lookup root mainBucketName = Some (Sub m') ->
            fetchWatchingOnly ns_root root
            = (match slice_bytes (match lookup m' watchingOnlyName with
                                  | Some (Val v) => Some v
                                  | _ => None
                                  end) with
               | [b] => ret (negb (Z_of_byte b =? 0))
               | _ => fail "malformed watching-only flag stored in database"
               end) root).
  { intros root m' H. destruct (main_bucket root m' H) as [Hn' Hm'].
    unfold fetchWatchingOnly, NestedReadBucket.
    eapply bind_step; [exact Hn'|]. cbv beta. eapply bind_step.
    { eapply Get_value. exact Hm'. }
    reflexivity. }
  split; [|split].
  - eexists. split.
    { unfold putWatchingOnly. eapply bind_step; [exact Hn|]. cbv beta.
      apply wrap_err_ok. eapply Put_value; [exact Hm|reflexivity|exact Hnb]. }
    rewrite (Hfetch _ (put m watchingOnlyName (Val [if w then x01 else x00]))).
    + rewrite lookup_put_same. cbn [slice_bytes]. destruct w; reflexivity.
    + rewrite (lookup_top_update ns _ m _ _ Hmain), bytes_eqb_refl. reflexivity.
  - intros v Hv Hlen. unfold at_path in Hv. rewrite Hm in Hv.
    rewrite (Hfetch ns m Hmain), Hv. cbn [slice_bytes].
    destruct v as [|a [|c t]]; try reflexivity. exfalso. apply Hlen. reflexivity.
  - intros Hv. unfold at_path in Hv. rewrite Hm in Hv.
    rewrite (Hfetch ns m Hmain), Hv. reflexivity.
Qed.

Lemma watching_only_round_trip_witness :
  exists ns',
    putWatchingOnly ns_root true example_v5 = (Ok tt, ns') /\
    fetchWatchingOnly ns_root ns' = (Ok true, ns').
Proof.
  exact (proj1 (watching_only_round_trip example_v5 _ true eq_refl eq_refl)).
Defined.
Lemma put_if_given_run p key v str root b :
  get_bucket root p = Some b -> is_nil key = false -> not_bucket b key = true ->
  put_if_given (Some p) key v str root
  = (Ok tt, update_at root p
              (fun b => match v with Some value => put b key (Val value) | None => b end)).
Proof.
  intros Hget Hk Hnb. destruct v as [value|]; cbn [put_if_given].
  - apply wrap_err_ok. eapply Put_value; eassumption.
  - unfold ret. f_equal. symmetry. eapply update_at_id; [exact Hget|reflexivity].
Qed.

Lemma fetchMasterKeyParams_reads root m :
  lookup root mainBucketName = Some (Sub m) ->
  fetchMasterKeyParams ns_root root
  = (match stored m masterPubKeyName with
     | Some pub => Ok (pub, stored m masterPrivKeyName)
     | None => Err "required master public key parameters not stored in database"
     end, root).
Proof.
  intros H. destruct (main_bucket root m H) as [Hn Hm].
  unfold fetchMasterKeyParams, NestedReadBucket.
  eapply bind_step; [exact Hn|]. cbv beta. eapply bind_step.
  { eapply Get_value. exact Hm. }
  cbv beta. fold (stored m masterPubKeyName).
  destruct (stored m masterPubKeyName); [|reflexivity].
  eapply bind_step.
  { eapply Get_value. exact Hm. }
  reflexivity.
Qed.

(** X13. putMasterKeyParams writes the parameters it is given and leaves
    alone those passed as nil: after it has stored public parameters,
    fetchMasterKeyParams returns them together with the private
    parameters just stored or, when nil was passed, the ones stored
    before (nil when there are none); without stored public parameters
    fetchMasterKeyParams returns an error. *)
Theorem master_key_params_round_trip ns m pub priv :
  lookup ns mainBucketName = Some (Sub m) ->
  not_bucket m masterPubKeyName = true -> not_bucket m masterPrivKeyName = true ->
  (exists ns',
     putMasterKeyParams ns_root (Some pub) priv ns = (Ok tt, ns') /\
     fetchMasterKeyParams ns_root ns'
     = (Ok (pub, match priv with
                 | Some v => Some v
                 | None => stored m masterPrivKeyName
                 end), ns')) /\
  (stored m masterPubKeyName = None ->
     fetchMasterKeyParams ns_root ns
     = (Err "required master public key parameters not stored in database", ns)).
Proof.
  intros Hmain Hpub Hpriv. destruct (main_bucket ns m Hmain) as [Hn Hm]. split.
  - eexists. split.
    { unfold putMasterKeyParams. eapply bind_step; [exact Hn|]. cbv beta.
      eapply bind_step.
      { eapply put_if_given_run; [exact Hm|reflexivity|exact Hpriv]. }
      eapply put_if_given_run; [|reflexivity|].
      - exact (get_update_same ns [mainBucketName] _ m Hm).
      - unfold not_bucket in *. destruct priv; [rewrite lookup_put|]; exact Hpub. }
    rewrite update_update.
    erewrite fetchMasterKeyParams_reads
      by (rewrite (lookup_top_update ns _ m _ _ Hmain), bytes_eqb_refl; reflexivity).
    unfold stored. rewrite lookup_put_same, lookup_put.
    change (bytes_eqb masterPrivKeyName masterPubKeyName) with false.
    destruct priv; [rewrite lookup_put_same|]; reflexivity.
  - intros Hnone. rewrite (fetchMasterKeyParams_reads ns m Hmain), Hnone. reflexivity.
Qed.

Lemma master_key_params_round_trip_witness :
  exists ns',
    putMasterKeyParams ns_root (Some (B "pub-params")) None example_v5 = (Ok tt, ns') /\
    fetchMasterKeyParams ns_root ns'
    = (Ok (B "pub-params", Some (B "master-priv")), ns').
Proof.
  exact (proj1 (master_key_params_round_trip example_v5 _ (B "pub-params") None
                  eq_refl eq_refl eq_refl)).
Defined.

Lemma fetchCryptoKeys_reads root m :
  lookup root mainBucketName = Some (Sub m) ->
  fetchCryptoKeys ns_root root
  = (match stored m cryptoPubKeyName with
     | Some pub => Ok (pub, stored m cryptoPrivKeyName, stored m cryptoScriptKeyName)
     | None => Err "required encrypted crypto public not stored in database"
     end, root).
Proof.
  intros H. destruct (main_bucket root m H) as [Hn Hm].
  unfold fetchCryptoKeys, NestedReadBucket.
  eapply bind_step; [exact Hn|]. cbv beta. eapply bind_step.
  { eapply Get_value. exact Hm. }
  cbv beta. fold (stored m cryptoPubKeyName).
  destruct (stored m cryptoPubKeyName); [|reflexivity].
  eapply bind_step.
  { eapply Get_value. exact Hm. }
  cbv beta. eapply bind_step.
  { eapply Get_value. exact Hm. }
  reflexivity.
Qed.

Lemma fetchMasterHDKeys_reads root m :
  lookup root mainBucketName = Some (Sub m) ->
  fetchMasterHDKeys ns_root root
  = (Ok (stored m masterHDPrivName, stored m masterHDPubName), root).
Proof.
  intros H. destruct (main_bucket root m H) as [Hn Hm].
  unfold fetchMasterHDKeys, NestedReadBucket.
  eapply bind_step; [exact Hn|]. cbv beta. eapply bind_step.
  { eapply Get_value. exact Hm. }
  cbv beta. eapply bind_step.
  { eapply Get_value. exact Hm. }
  reflexivity.
Qed.

(** X14. A wallet stripped by deletePrivateKeys reads back without
    private keys: fetchMasterKeyParams returns the stored public
    parameters and nil private ones, fetchCryptoKeys the stored public key
    and nil private and script keys, and fetchMasterHDKeys a nil private
    key and the public key as stored. *)
Theorem stripped_wallet_reads_no_private_keys ns m mpub cpub :
  v5_namespace ns = true ->
  lookup ns mainBucketName = Some (Sub m) ->
  stored m masterPubKeyName = Some mpub ->
  stored m cryptoPubKeyName = Some cpub ->
  exists ns',
    deletePrivateKeys ns_root ns = (Ok tt, ns') /\
    fetchMasterKeyParams ns_root ns' = (Ok (mpub, None), ns') /\
    fetchCryptoKeys ns_root ns' = (Ok (cpub, None, None), ns') /\
    fetchMasterHDKeys ns_root ns' = (Ok (None, stored m masterHDPubName), ns').
Proof.
  intros Hok Hmain Hmpub Hcpub. exists (watching_only ns).
  split; [apply deletePrivateKeys_refines; exact Hok|].
  unfold v5_namespace in Hok. rewrite Hmain in Hok.
  destruct (lookup ns scopeBucketName) as [[?|sb]|] eqn:Hscope; try discriminate.
  assert (HW : lookup (watching_only ns) mainBucketName = Some (Sub (cleared_main m))).
  { rewrite (lookup_watching_only ns m sb _ Hmain Hscope). reflexivity. }
  assert (Hs : forall k, stored (cleared_main m) k
                         = if existsb (bytes_eqb k) private_main_keys then None
                           else stored m k).
  { intros k. unfold stored. rewrite lookup_cleared_main.
    destruct (existsb (bytes_eqb k) private_main_keys); reflexivity. }
  split; [|split].
  - rewrite (fetchMasterKeyParams_reads _ _ HW), !Hs. cbn [existsb private_main_keys].
    change (existsb (bytes_eqb masterPubKeyName) private_main_keys) with false.
    change (existsb (bytes_eqb masterPrivKeyName) private_main_keys) with true.
    cbv iota. rewrite Hmpub. reflexivity.
  - rewrite (fetchCryptoKeys_reads _ _ HW), !Hs.
    change (existsb (bytes_eqb cryptoPubKeyName) private_main_keys) with false.
    change (existsb (bytes_eqb cryptoPrivKeyName) private_main_keys) with true.
    change (existsb (bytes_eqb cryptoScriptKeyName) private_main_keys) with true.
    cbv iota. rewrite Hcpub. reflexivity.
  - rewrite (fetchMasterHDKeys_reads _ _ HW), !Hs.
    change (existsb (bytes_eqb masterHDPrivName) private_main_keys) with true.
    change (existsb (bytes_eqb masterHDPubName) private_main_keys) with false.
    reflexivity.
Qed.

Lemma stripped_wallet_reads_no_private_keys_witness :
  exists ns',
    deletePrivateKeys ns_root example_v5 = (Ok tt, ns') /\
    fetchMasterKeyParams ns_root ns' = (Ok (B "master-pub", None), ns') /\
    fetchCryptoKeys ns_root ns' = (Ok (B "crypto-pub", None, None), ns') /\
    fetchMasterHDKeys ns_root ns' = (Ok (None, Some (B "hd-pub")), ns').
Proof.
  exact (stripped_wallet_reads_no_private_keys example_v5 _ (B "master-pub")
           (B "crypto-pub") eq_refl eq_refl eq_refl eq_refl).
Defined.

End StoreFacts.

